(** * Email task manager: the ingestion pipeline, embedded and verified

    A shallow embedding of the backend of the email task manager: the
    sliding-window rate limiter ([utils/rate_limiter.py]), the token
    encryption wrapper ([utils/encryption.py]), the validators
    ([utils/validators.py]), AI response parsing
    ([services/ai_service.py]), body extraction
    ([services/gmail_service.py]) and the ingestion endpoint
    ([routes/emails.py]) over the [Email] and [Task] tables.

    Conventions.  A Python [str] is a [string]; a character is a code
    point below 256.  A Python call that may raise returns an [exc]
    value; [try ... except] is [catch].  Time stamps are integers
    (seconds): the source only compares and subtracts them. *)

From Stdlib Require Import ZArith Ascii String List Bool Lia Sorted.
From stdpp Require Import base option list gmap strings pretty.
Import ListNotations.
Local Open Scope Z_scope.

(** ** Python values and exceptions *)

Module Py.

(** The exception classes the modelled code raises or names in an
    [except] clause. *)
Inductive exn_class :=
| AttributeError | TypeError | KeyError | ValueError
| UnicodeDecodeError | JSONDecodeError | ValidationError
| InvalidToken | IntegrityError | RefreshError | HttpError
| RuntimeError.

(** An exception object: its class and [str(e)]. *)
Record exn := Exn { exn_class_of : exn_class; exn_str : string }.

Inductive exc (A : Type) :=
| Ok (a : A)
| Raise (e : exn).
Arguments Ok {A} a.
Arguments Raise {A} e.

Definition bind {A B} (m : exc A) (k : A -> exc B) : exc B :=
  match m with
  | Ok a => k a
  | Raise e => Raise e
  end.

(** [try: m  except Exception as e: h e] *)
Definition catch {A} (m : exc A) (h : exn -> exc A) : exc A :=
  match m with
  | Ok a => Ok a
  | Raise e => h e
  end.

Definition exn_class_eqb (a b : exn_class) : bool :=
  match a, b with
  | AttributeError, AttributeError | TypeError, TypeError
  | KeyError, KeyError | ValueError, ValueError
  | UnicodeDecodeError, UnicodeDecodeError
  | JSONDecodeError, JSONDecodeError
  | ValidationError, ValidationError | InvalidToken, InvalidToken
  | IntegrityError, IntegrityError | RefreshError, RefreshError
  | HttpError, HttpError | RuntimeError, RuntimeError => true
  | _, _ => false
  end.

(** [try: m  except C as e: h e]: other classes propagate. *)
Definition catch_class {A} (c : exn_class) (m : exc A) (h : exn -> exc A)
  : exc A :=
  match m with
  | Ok a => Ok a
  | Raise e => if exn_class_eqb (exn_class_of e) c then h e else Raise e
  end.

Definition raises {A} (m : exc A) : Prop :=
  match m with Ok _ => False | Raise _ => True end.

End Py.
Import Py.

#[global] Instance exc_bind : MBind exc := fun _ _ k m => Py.bind m k.
#[global] Instance exc_ret : MRet exc := fun _ a => Ok a.

(** ** Strings *)

Module Str.

(** [str.isspace] on one character (code points below 256). *)
Definition isspace (c : ascii) : bool :=
  let n := nat_of_ascii c in
  ((9 <=? n) && (n <=? 13) || (28 <=? n) && (n <=? 32)
   || (n =? 133) || (n =? 160))%nat.

Fixpoint lstrip (s : string) : string :=
  match s with
  | EmptyString => EmptyString
  | String c r => if isspace c then lstrip r else s
  end.

(** [rstrip] by recursion from the right end: a character is kept when
    something non-blank survives after it. *)
Fixpoint rstrip (s : string) : string :=
  match s with
  | EmptyString => EmptyString
  | String c r =>
      match rstrip r with
      | EmptyString => if isspace c then EmptyString else String c EmptyString
      | r' => String c r'
      end
  end.

(** [s.strip()] *)
Definition strip (s : string) : string := rstrip (lstrip s).

(** [len(s)] *)
Definition len (s : string) : Z := Z.of_nat (String.length s).

(** [s[:n]] for [n >= 0] *)
Fixpoint take (n : nat) (s : string) : string :=
  match n, s with
  | S n', String c r => String c (take n' r)
  | _, _ => EmptyString
  end.

(** [s[n:]] for [n >= 0] *)
Fixpoint drop (n : nat) (s : string) : string :=
  match n, s with
  | S n', String _ r => drop n' r
  | _, _ => s
  end.

(** [s[:-n]] for [n > 0] *)
Definition drop_last (n : nat) (s : string) : string :=
  take (String.length s - n) s.

(** [s[:n]] for an integer [n] of either sign *)
Definition slice_to (n : Z) (s : string) : string :=
  if 0 <=? n then take (Z.to_nat n) s else drop_last (Z.to_nat (- n)) s.

(** [s.startswith(p)] *)
Fixpoint startswith (p s : string) : bool :=
  match p, s with
  | EmptyString, _ => true
  | String a p', String b s' => if Ascii.eqb a b then startswith p' s' else false
  | String _ _, EmptyString => false
  end.

(** [s.endswith(p)] *)
Definition endswith (p s : string) : bool :=
  (len p <=? len s) && String.eqb (drop (String.length s - String.length p) s) p.

(** [p in s] for strings *)
Fixpoint contains (p s : string) : bool :=
  startswith p s ||
  match s with
  | EmptyString => false
  | String _ r => contains p r
  end.

(** [html.escape(s)] with [quote=True]: the five replacements act on
    distinct characters, [&] first, so they amount to a per-character
    substitution. *)
Definition escape_char (c : ascii) : string :=
  if Ascii.eqb c "&" then "&amp;"
  else if Ascii.eqb c "<" then "&lt;"
  else if Ascii.eqb c ">" then "&gt;"
  else if Ascii.eqb c (ascii_of_nat 34) then "&quot;"
  else if Ascii.eqb c "'" then "&#x27;"
  else String c EmptyString.

Fixpoint escape (s : string) : string :=
  match s with
  | EmptyString => EmptyString
  | String c r => escape_char c +:+ escape r
  end.

Fixpoint replicate (n : nat) (c : ascii) : string :=
  match n with
  | O => EmptyString
  | S n' => String c (replicate n' c)
  end.

End Str.

(** ** utils/rate_limiter.py *)

Module RateLimiter.

(** [self.clients]: a [defaultdict(deque)] from client id to the
    admission time stamps, oldest first. *)
Abbreviation clients := (gmap string (list Z)).

(** [self.clients[client_id]]: reading a missing key of a
    [defaultdict] stores and returns the empty deque. *)
Definition getitem (c : clients) (client_id : string) : list Z :=
  default [] (c !! client_id).

(** The cleaning loop: [popleft] while the oldest entry is before
    [bound = now - window]. *)
Fixpoint clean (q : list Z) (bound : Z) : list Z :=
  match q with
  | t :: q' => if t <? bound then clean q' bound else q
  | [] => []
  end.

(** [is_allowed(client_id, limit, window)] at clock reading [now]:
    the answer and the clients afterwards. *)
Definition is_allowed (c : clients) (now : Z) (client_id : string)
    (limit window : Z) : bool * clients :=
  let q := clean (getitem c client_id) (now - window) in
  if Z.of_nat (length q) >=? limit
  then (false, <[client_id := q]> c)
  else (true, <[client_id := q ++ [now]]> c).

(** Successive calls for one client with one policy, at the given
    clock readings. *)
Fixpoint calls (c : clients) (client_id : string) (limit window : Z)
    (times : list Z) : list bool * clients :=
  match times with
  | [] => ([], c)
  | now :: rest =>
      let '(b, c1) := is_allowed c now client_id limit window in
      let '(bs, c2) := calls c1 client_id limit window rest in
      (b :: bs, c2)
  end.

(** The deque of a client is time ordered. *)
Definition time_ordered (q : list Z) : Prop := Sorted Z.le q.

(** [is_allowed] seen on the deque of the client alone. *)
Definition gate_step (q : list Z) (now limit window : Z) : bool * list Z :=
  let q' := clean q (now - window) in
  if Z.of_nat (length q') >=? limit then (false, q') else (true, q' ++ [now]).

Fixpoint gate_steps (q : list Z) (limit window : Z) (times : list Z)
  : list bool * list Z :=
  match times with
  | [] => ([], q)
  | now :: rest =>
      let '(b, q1) := gate_step q now limit window in
      let '(bs, q2) := gate_steps q1 limit window rest in
      (b :: bs, q2)
  end.

End RateLimiter.

(** ** utils/encryption.py *)

Module Encryption.

Abbreviation bytes := (list Byte.byte).

(** The interface of [cryptography.fernet.Fernet] for a fixed derived
    key.  [encrypt] draws an initialisation vector and a time stamp,
    the [entropy]; [decrypt] raises [InvalidToken]. *)
Class Fernet := {
  entropy : Type;
  encrypt : entropy -> bytes -> bytes;
  decrypt : bytes -> exc bytes
}.

(** [str.encode()] and [bytes.decode()] (UTF-8). *)
Class Codec := {
  encode : string -> bytes;
  decode : bytes -> exc string
}.

Section TokenEncryption.
Context `{cipher : Fernet} `{codec : Codec}.

(** [encrypt_token(token)]; [None] for a falsy token. *)
Definition encrypt_token (r : entropy) (token : string)
  : exc (option string) :=
  if String.eqb token "" then Ok None
  else t ← decode (encrypt r (encode token)); Ok (Some t).

(** [decrypt_token(encrypted_token)] *)
Definition decrypt_token (encrypted_token : string)
  : exc (option string) :=
  if String.eqb encrypted_token "" then Ok None
  else
    catch
      (b ← decrypt (encode encrypted_token);
       s ← decode b;
       Ok (Some s))
      (fun _ => Ok None).

(** [decrypt_token(encrypt_token(token))], threading the optional
    result as the hybrid properties of the user model do: a missing
    stored token reads as [None]. *)
Definition roundtrip (r : entropy) (token : string)
  : exc (option string) :=
  stored ← encrypt_token r token;
  match stored with
  | Some ct => decrypt_token ct
  | None => Ok None
  end.
End TokenEncryption.

(** What the wrapper relies on from its libraries: Fernet decrypts
    what it encrypted, UTF-8 decoding inverts encoding, and a Fernet
    token is non-empty base64 text, so that it survives
    [.decode()] and [.encode()]. *)
Class Laws `{cipher : Fernet} `{codec : Codec} : Prop := {
  decrypt_encrypt : ∀ r m, decrypt (encrypt r m) = Ok m;
  decode_encode : ∀ s, decode (encode s) = Ok s;
  token_is_text : ∀ r m, ∃ t,
    decode (encrypt r m) = Ok t ∧ t ≠ "" ∧ encode t = encrypt r m
}.

(** A small cipher with the same interface: a one-byte tag in front
    of the plaintext, checked on decryption; bytes and characters
    correspond one to one. *)
Definition tag_cipher : Fernet := {|
  entropy := unit;
  encrypt := fun _ m => Byte.x74 :: m;
  decrypt := fun c =>
    match c with
    | Byte.x74 :: m => Ok m
    | _ => Raise (Exn InvalidToken "")
    end
|}.

Definition byte_codec : Codec := {|
  encode := list_byte_of_string;
  decode := fun b => Ok (string_of_list_byte b)
|}.

End Encryption.

(** ** utils/validators.py *)

Module Validators.

(** [sanitize_text(text, max_length)] *)
Definition sanitize_text (text : string) (max_length : option Z) : string :=
  if String.eqb text "" then ""
  else
    let sanitized := Str.escape (Str.strip text) in
    match max_length with
    | Some n =>
        if negb (n =? 0) && (n <? Str.len sanitized)
        then Str.slice_to n sanitized
        else sanitized
    | None => sanitized
    end.

Definition valid_priorities : list string := ["High"; "Medium"; "Low"].

Definition valid_categories : list string :=
  ["Follow-up"; "Meeting Prep"; "Purchase"; "General";
   "Review"; "Approval"; "Schedule"; "Research"].

(** [x in l] for a list of strings *)
Definition str_in (x : string) (l : list string) : bool :=
  existsb (String.eqb x) l.

Definition validate_priority (priority : string) : bool :=
  str_in priority valid_priorities.

Definition validate_category (category : string) : bool :=
  str_in category valid_categories.

(** ['; '.join(errors)] *)
Fixpoint join (sep : string) (l : list string) : string :=
  match l with
  | [] => ""
  | [x] => x
  | x :: r => x +:+ sep +:+ join sep r
  end.

Definition raise_validation {A} (errors : list string) : exc A :=
  Raise (Exn ValidationError (join "; " errors)).

Record email_content := { cleaned_subject : string; cleaned_body : string }.

(** [validate_email_content(subject, body)] *)
Definition validate_email_content (subject body : string)
  : exc email_content :=
  let errors :=
    (if String.eqb subject "" || (Str.len (Str.strip subject) =? 0)
     then ["Subject is required"]
     else if (500 <? Str.len subject)
          then ["Subject too long (max 500 characters)"]
          else [])
    ++
    (if negb (String.eqb body "") && (50000 <? Str.len body)
     then ["Email body too long (max 50KB)"]
     else []) in
  match errors with
  | _ :: _ => raise_validation errors
  | [] =>
      Ok {| cleaned_subject := sanitize_text subject (Some 500);
            cleaned_body :=
              if String.eqb body "" then ""
              else sanitize_text body (Some 50000) |}
  end.

Record task_data := {
  description : string;
  priority : string;
  category : string
}.

(** Truthiness of an optional string argument. *)
Definition truthy (o : option string) : bool :=
  match o with
  | Some s => negb (String.eqb s "")
  | None => false
  end.

(** [o or d] *)
Definition or_default (o : option string) (d : string) : string :=
  match o with
  | Some s => if String.eqb s "" then d else s
  | None => d
  end.

(** [validate_task_data(description, priority, category)] *)
Definition validate_task_data (description : string)
    (priority category : option string) : exc task_data :=
  let errors :=
    (if String.eqb description ""
        || (Str.len (Str.strip description) =? 0)
     then ["Task description is required"]
     else if (1000 <? Str.len description)
          then ["Task description too long (max 1000 characters)"]
          else [])
    ++
    (if truthy priority && negb (validate_priority (or_default priority ""))
     then ["Invalid priority. Must be High, Medium, or Low"]
     else [])
    ++
    (if truthy category && negb (validate_category (or_default category ""))
     then ["Invalid category"]
     else []) in
  match errors with
  | _ :: _ => raise_validation errors
  | [] =>
      Ok {| description := sanitize_text description (Some 1000);
            priority := or_default priority "Medium";
            category := or_default category "General" |}
  end.

End Validators.

(** ** JSON values as Python objects *)

Module Json.

(** What [json.loads] and the Gmail client return: [None], booleans,
    numbers (kept as their literal), strings, lists and dicts.  The
    fields of a dict have distinct keys. *)
#[local] Unset Elimination Schemes.
Inductive json :=
| JNull
| JBool (b : bool)
| JNum (literal : string)
| JStr (s : string)
| JArr (items : list json)
| JObj (fields : list (string * json)).
#[local] Set Elimination Schemes.

(** [d.get(key)] on a dict *)
Fixpoint lookup (key : string) (fields : list (string * json)) : option json :=
  match fields with
  | [] => None
  | (k, v) :: r => if String.eqb k key then Some v else lookup key r
  end.

(** [v == s] for a string [s] *)
Definition eq_str (v : json) (s : string) : bool :=
  match v with
  | JStr t => String.eqb t s
  | _ => false
  end.

(** [v in l] for a list [l] of strings *)
Definition in_strs (v : json) (l : list string) : bool :=
  existsb (eq_str v) l.

(** [key in v] *)
Definition contains (key : string) (v : json) : exc bool :=
  match v with
  | JObj fields => Ok (bool_decide (is_Some (lookup key fields)))
  | JArr items => Ok (existsb (fun x => eq_str x key) items)
  | JStr s => Ok (Str.contains key s)
  | _ => Raise (Exn TypeError "argument is not iterable")
  end.

(** [v[key]] for a string [key] *)
Definition getitem (v : json) (key : string) : exc json :=
  match v with
  | JObj fields =>
      match lookup key fields with
      | Some x => Ok x
      | None => Raise (Exn KeyError key)
      end
  | JArr _ => Raise (Exn TypeError "list indices must be integers or slices, not str")
  | JStr _ => Raise (Exn TypeError "string indices must be integers")
  | _ => Raise (Exn TypeError "object is not subscriptable")
  end.

Fixpoint chars (s : string) : list json :=
  match s with
  | EmptyString => []
  | String c r => JStr (String c EmptyString) :: chars r
  end.

(** [for x in v]: the elements of a list, the keys of a dict, the
    characters of a string. *)
Definition iterate (v : json) : exc (list json) :=
  match v with
  | JArr items => Ok items
  | JObj fields => Ok (map (fun kv => JStr (fst kv)) fields)
  | JStr s => Ok (chars s)
  | _ => Raise (Exn TypeError "object is not iterable")
  end.

End Json.
Import Json.

(** ** services/ai_service.py *)

Module AIService.
Import Validators.

(** The three values interpolated into the extraction prompt:
    subject, sender and [body[:2000]]; the fixed instruction text
    around them is left out. *)
Record prompt := {
  prompt_subject : string;
  prompt_sender : string;
  prompt_body : string
}.

Definition _create_task_extraction_prompt (subject body sender : string)
  : prompt :=
  {| prompt_subject := subject;
     prompt_sender := sender;
     prompt_body := Str.take 2000 body |}.

(** The text handed to [json.loads]: stripped, without a leading
    [```json] and a trailing [```], stripped again. *)
Definition unfence (response_text : string) : string :=
  let t := Str.strip response_text in
  let t := if Str.startswith "```json" t then Str.drop 7 t else t in
  let t := if Str.endswith "```" t then Str.drop_last 3 t else t in
  Str.strip t.

(** The body of the validation loop for one element; [None] when
    nothing is appended. *)
Definition clean_task (task : json) : exc (option task_data) :=
  match task with
  | JObj fields =>
      match lookup "description" fields with
      | Some d =>
          description ←
            match d with
            | JStr s => Ok (Str.strip s)
            | _ => Raise (Exn AttributeError "object has no attribute 'strip'")
            end;
          let priority := default (JStr "Medium") (lookup "priority" fields) in
          let category := default (JStr "General") (lookup "category" fields) in
          let priority :=
            if negb (in_strs priority valid_priorities) then "Medium"
            else match priority with JStr p => p | _ => "Medium" end in
          let category :=
            if negb (in_strs category valid_categories) then "General"
            else match category with JStr c => c | _ => "General" end in
          if String.eqb description "" then Ok None
          else Ok (Some {| description := description;
                           priority := priority;
                           category := category |})
      | None => Ok None
      end
  | _ => Ok None
  end.

Fixpoint clean_tasks (tasks_data : list json) : exc (list task_data) :=
  match tasks_data with
  | [] => Ok []
  | task :: rest =>
      r ← clean_task task;
      valid_tasks ← clean_tasks rest;
      Ok (match r with Some t => t :: valid_tasks | None => valid_tasks end)
  end.


Section Service.
(** [json.loads]; raises [JSONDecodeError]. *)
Variable loads : string -> exc json.
(** The chat completion call and [choices[0].message.content]. *)
Variable complete : prompt -> exc (option string).

(** [_parse_ai_response(response_text)] *)
Definition _parse_ai_response (response_text : option string)
  : exc (list task_data) :=
  catch
    (catch_class JSONDecodeError
       (text ←
          match response_text with
          | Some t => Ok (unfence t)
          | None => Raise (Exn AttributeError
                             "'NoneType' object has no attribute 'strip'")
          end;
        tasks_data ← loads text;
        items ← iterate tasks_data;
        clean_tasks items)
       (fun _ => Ok []))
    (fun _ => Ok []).

(** [extract_tasks(subject, body, sender)] *)
Definition extract_tasks (subject body sender : string)
  : exc (list task_data) :=
  catch
    (content ← complete (_create_task_extraction_prompt subject body sender);
     _parse_ai_response content)
    (fun _ => Ok []).
End Service.

End AIService.

(** ** services/gmail_service.py *)

Module GmailService.
Import Encryption.

(** [re.sub('<[^<]+?>', '', html)].  After an opening [<] the pattern
    wants one character other than [<], then as few further such
    characters as possible, then [>].  [tag_close] counts the
    characters up to and including the first [>], failing on [<] or at
    the end of the text. *)
Fixpoint tag_close (s : string) : option nat :=
  match s with
  | EmptyString => None
  | String c r =>
      if Ascii.eqb c ">" then Some 1%nat
      else if Ascii.eqb c "<" then None
      else S <$> tag_close r
  end.

(** The length of the match that starts at a [<], given the text
    after it. *)
Definition tag_length (s : string) : option nat :=
  match s with
  | EmptyString => None
  | String c r => if Ascii.eqb c "<" then None else S <$> tag_close r
  end.

(** Left to right, leftmost matches removed; [skip] characters of a
    match are still to be dropped. *)
Fixpoint strip_tags_from (skip : nat) (s : string) : string :=
  match s with
  | EmptyString => EmptyString
  | String c r =>
      match skip with
      | S k => strip_tags_from k r
      | O =>
          if Ascii.eqb c "<" then
            match tag_length r with
            | Some n => strip_tags_from n r
            | None => String c (strip_tags_from O r)
            end
          else String c (strip_tags_from O r)
      end
  end.

Definition strip_tags (html : string) : string := strip_tags_from O html.

Section Body.
(** [base64.urlsafe_b64decode] on a string; raises [binascii.Error],
    a [ValueError]. *)
Variable urlsafe_b64decode : string -> exc bytes.
Context `{codec : Codec}.

(** [base64.urlsafe_b64decode(data).decode('utf-8')] *)
Definition decode_data (data : json) : exc string :=
  match data with
  | JStr s => b ← urlsafe_b64decode s; decode b
  | _ => Raise (Exn TypeError
                  "argument should be a bytes-like object or ASCII string")
  end.

(** The loop over [payload['parts']]: [Some text] when an iteration
    returns, [None] when the loop runs to its end. *)
Fixpoint scan_parts (parts : list json) : exc (option string) :=
  match parts with
  | [] => Ok None
  | part :: rest =>
      mime ← getitem part "mimeType";
      if eq_str mime "text/plain" then
        body ← getitem part "body";
        has_data ← contains "data" body;
        if has_data : bool then
          data ← getitem body "data";
          text ← decode_data data;
          Ok (Some text)
        else scan_parts rest
      else if eq_str mime "text/html" then
        body ← getitem part "body";
        has_data ← contains "data" body;
        if has_data : bool then
          data ← getitem body "data";
          html_content ← decode_data data;
          Ok (Some (Str.strip (strip_tags html_content)))
        else scan_parts rest
      else scan_parts rest
  end.

(** The [try] block of [_extract_body]. *)
Definition extract_body_try (payload : json) : exc string :=
  multipart ← contains "parts" payload;
  if multipart : bool then
    parts ← getitem payload "parts";
    items ← iterate parts;
    found ← scan_parts items;
    Ok (default "" found)
  else
    body ← getitem payload "body";
    has_data ← contains "data" body;
    if has_data : bool then
      data ← getitem body "data";
      decode_data data
    else Ok "".

(** [_extract_body(payload)] *)
Definition _extract_body (payload : json) : exc string :=
  catch (extract_body_try payload) (fun _ => Ok "").

(** A part the loop passes by: a dict with a [mimeType] that is
    neither of the two text types, or whose [body] has no [data]. *)
Definition passed_by (part : json) : Prop :=
  ∃ mime, getitem part "mimeType" = Ok mime
    ∧ ((eq_str mime "text/plain" = false ∧ eq_str mime "text/html" = false)
       ∨ ∃ body, getitem part "body" = Ok body
                 ∧ contains "data" body = Ok false).

(** A part of the given type whose [data] decodes to [text]. *)
Definition text_part (mime_type : string) (part : json) (text : string)
  : Prop :=
  ∃ mime body data,
    getitem part "mimeType" = Ok mime ∧ eq_str mime mime_type = true
    ∧ getitem part "body" = Ok body ∧ contains "data" body = Ok true
    ∧ getitem body "data" = Ok data ∧ decode_data data = Ok text.
End Body.

(** A decoder that leaves the text as it is, for payloads whose
    [data] is written unencoded. *)
Definition unencoded (s : string) : exc bytes := Ok (list_byte_of_string s).

End GmailService.

(** ** models/user.py: the token properties *)

Module UserTokens.
Import Encryption.

(** The two token columns of a [users] row. *)
Record t := mk {
  _gmail_access_token : option string;
  _gmail_refresh_token : option string
}.

(** Truthiness of a nullable text column. *)
Definition present (column : option string) : bool :=
  match column with
  | Some s => negb (String.eqb s "")
  | None => false
  end.

Section Properties.
Context `{cipher : Fernet} `{codec : Codec}.

(** The getter of [gmail_access_token] *)
Definition gmail_access_token (u : t) : exc (option string) :=
  if present (_gmail_access_token u)
  then decrypt_token (default "" (_gmail_access_token u))
  else Ok None.

(** The setter of [gmail_access_token] *)
Definition set_gmail_access_token (r : entropy) (value : option string)
    (u : t) : exc t :=
  if present value then
    stored ← encrypt_token r (default "" value);
    Ok (mk stored (_gmail_refresh_token u))
  else Ok (mk None (_gmail_refresh_token u)).

(** The getter of [gmail_refresh_token] *)
Definition gmail_refresh_token (u : t) : exc (option string) :=
  if present (_gmail_refresh_token u)
  then decrypt_token (default "" (_gmail_refresh_token u))
  else Ok None.

(** The setter of [gmail_refresh_token] *)
Definition set_gmail_refresh_token (r : entropy) (value : option string)
    (u : t) : exc t :=
  if present value then
    stored ← encrypt_token r (default "" value);
    Ok (mk (_gmail_access_token u) stored)
  else Ok (mk (_gmail_access_token u) None).
End Properties.

End UserTokens.

(** ** models/email.py, models/task.py, models/user.py *)

Module Email.
(** A row of [emails]; [created_at] and [updated_at] are left out. *)
Record t := mk {
  id : nat;
  user_id : nat;
  gmail_id : string;
  thread_id : option string;
  subject : string;
  sender : string;
  sender_email : string;
  body : string;
  snippet : string;
  processed : bool;
  processed_at : option Z;
  received_at : Z
}.

(** [mark_processed()] at clock reading [now] *)
Definition mark_processed (now : Z) (e : t) : t :=
  mk (id e) (user_id e) (gmail_id e) (thread_id e) (subject e) (sender e)
     (sender_email e) (body e) (snippet e) true (Some now) (received_at e).
End Email.

Module Task.
(** A row of [tasks]; [created_at] and [updated_at] are left out. *)
Record t := mk {
  id : nat;
  user_id : nat;
  email_id : nat;
  description : string;
  sender : string;
  priority : string;
  category : string;
  completed : bool;
  completed_at : option Z
}.
End Task.

Module User.
(** A row of [users], as far as ingestion reads or writes it: the
    two encrypted token columns, the expiry of the access token and
    [updated_at]. *)
Record t := mk {
  id : nat;
  gmail_connected : bool;
  tokens : UserTokens.t;
  gmail_token_expiry : option Z;
  updated_at : Z
}.
End User.

Module Credentials.
(** [google.oauth2.credentials.Credentials], as far as
    [_build_service] uses it. *)
Record t := mk {
  token : option string;
  refresh_token : option string;
  expiry : option Z
}.
End Credentials.

(** ** The database session *)

Module Db.

Record database := {
  users : list User.t;
  emails : list Email.t;
  tasks : list Task.t
}.

(** A fresh primary key: one more than the largest in the table. *)
Definition next_id (ids : list nat) : nat := S (foldr Nat.max O ids).

(** [User.query.get(user_id)] *)
Definition get_user (db : database) (uid : nat) : option User.t :=
  find (fun u => Nat.eqb (User.id u) uid) (users db).

(** [Email.query.filter_by(gmail_id=g, user_id=uid).first()] *)
Definition find_email (db : database) (g : string) (uid : nat)
  : option Email.t :=
  find (fun e => String.eqb (Email.gmail_id e) g
                 && Nat.eqb (Email.user_id e) uid) (emails db).

(** The [unique=True] index of [emails.gmail_id]. *)
Definition gmail_id_taken (db : database) (g : string) : bool :=
  existsb (fun e => String.eqb (Email.gmail_id e) g) (emails db).

(** The [IntegrityError] of the unique index.  Its text stands for
    [str(e)], in which SQLAlchemy wraps the driver's message together
    with the statement and its parameters. *)
Definition unique_violation : exn :=
  Exn IntegrityError "UNIQUE constraint failed: emails.gmail_id".

(** [db.session.add(email_record); db.session.flush()]: the insert
    is refused when the [gmail_id] is taken, whoever owns the row;
    otherwise the row gets its primary key. *)
Definition add_email (db : database) (row : nat -> Email.t)
  : exc (database * Email.t) :=
  let e := row (next_id (map Email.id (emails db))) in
  if gmail_id_taken db (Email.gmail_id e) then Raise unique_violation
  else Ok ({| users := users db;
              emails := emails db ++ [e];
              tasks := tasks db |}, e).

(** [db.session.add(task)] and its later flush. *)
Definition add_task (db : database) (row : nat -> Task.t) : database :=
  {| users := users db;
     emails := emails db;
     tasks := tasks db ++ [row (next_id (map Task.id (tasks db)))] |}.

(** Assigning to the loaded user row. *)
Definition update_user (db : database) (u : User.t) : database :=
  {| users := map (fun x => if Nat.eqb (User.id x) (User.id u)
                            then u else x) (users db);
     emails := emails db;
     tasks := tasks db |}.

(** Assigning to a loaded row: the row with that primary key is
    replaced. *)
Definition update_email (db : database) (e : Email.t) : database :=
  {| users := users db;
     emails := map (fun x => if Nat.eqb (Email.id x) (Email.id e)
                             then e else x) (emails db);
     tasks := tasks db |}.

(** The constraint the [emails] table keeps: no two rows share a
    [gmail_id]. *)
Definition gmail_ids_unique (db : database) : Prop :=
  NoDup (map Email.gmail_id (emails db)).

End Db.

(** ** routes/emails.py *)

Module EmailData.
(** The dict [_get_email_details] builds for one message. *)
Record t := mk {
  gmail_id : string;
  thread_id : option string;
  subject : string;
  sender : string;
  sender_email : string;
  body : string;
  snippet : string;
  received_at : Z
}.
End EmailData.

Module Http.
Inductive body :=
| Processed (message : string) (emails_processed tasks_created : nat)
| Error (error : string)
| ErrorMessage (error message : string).

Record response := { status : nat; payload : body }.
End Http.

Module Emails.
Import Validators AIService Db Http.

(** What a request meets outside the process: the clocks, the token
    cipher, the Google and OpenAI calls, [json.loads].  The clock of
    [mark_processed] is read anew for every message: [utcnow] gives
    the reading for the message with a given [gmail_id]. *)
Record world := {
  time : Z;                                   (* time.time() *)
  utcnow : string -> Z;                       (* datetime.utcnow() in mark_processed *)
  fernet : Encryption.Fernet;                 (* token_encryption.fernet *)
  codec : Encryption.Codec;                   (* str.encode, bytes.decode *)
  iv : @Encryption.entropy fernet;            (* what fernet.encrypt draws *)
  expired_at : Z -> bool;                     (* credentials.expired, expiry set *)
  refresh : Credentials.t -> exc Credentials.t; (* credentials.refresh(Request()) *)
  refreshed_at : Z;                           (* datetime.utcnow() in _build_service *)
  build : exc unit;                           (* build('gmail', 'v1', ...) *)
  ai_init : exc unit;                         (* openai.OpenAI(api_key=...) *)
  max_emails : nat;                           (* MAX_EMAILS_PER_PROCESS *)
  list_messages : nat -> exc (list string);   (* messages().list(...).execute() *)
  get_email_details : string -> option EmailData.t;
  complete : prompt -> exc (option string);
  loads : string -> exc json
}.

(** [credentials.expired]: a credential without [expiry] does not
    count as expired. *)
Definition expired (w : world) (c : Credentials.t) : bool :=
  match Credentials.expiry c with
  | None => false
  | Some t => expired_at w t
  end.

(** [GmailService._build_service] on the loaded row [user]: the
    outcome of the construction, and the committed database.  The
    credential is built from the two decrypted tokens, without
    [expiry].  The branch for an expired credential refreshes it,
    assigns the new token, its expiry and [updated_at] to the row, and
    commits.  The [except] clause logs and raises again. *)
Definition _build_service (w : world) (user : User.t) (db : database)
  : exc unit * database :=
  match (token ← UserTokens.gmail_access_token (cipher := fernet w)
                   (codec := codec w) (User.tokens user);
         refresh_token ← UserTokens.gmail_refresh_token (cipher := fernet w)
                           (codec := codec w) (User.tokens user);
         Ok (Credentials.mk token refresh_token None)) with
  | Raise e => (Raise e, db)
  | Ok credentials =>
      if expired w credentials
         && truthy (Credentials.refresh_token credentials)
      then
        match (credentials' ← refresh w credentials;
               tokens' ← UserTokens.set_gmail_access_token
                           (cipher := fernet w) (codec := codec w) (iv w)
                           (Credentials.token credentials')
                           (User.tokens user);
               Ok (User.mk (User.id user) (User.gmail_connected user)
                     tokens' (Credentials.expiry credentials')
                     (refreshed_at w))) with
        | Raise e => (Raise e, db)
        | Ok user' => (build w, update_user db user')
        end
      else (build w, db)
  end.

(** [GmailService.get_unprocessed_emails(max_results)]: a message
    whose details cannot be fetched is left out. *)
Definition get_unprocessed_emails (w : world) (max_results : nat)
  : exc (list EmailData.t) :=
  catch
    (messages ← (list_messages w max_results : exc (list string));
     Ok (omap (M:=list) (get_email_details w) messages))
    (fun e => Raise e).

Section Run.
Variable w : world.
Variable current_user_id : nat.

(** The inner loop over the extracted tasks (lines 74-93): the
    session and [tasks_created]. *)
Fixpoint add_tasks (email_record : Email.t) (email_data : EmailData.t)
    (tasks : list task_data) (db : database) (tasks_created : nat)
  : exc (database * nat) :=
  match tasks with
  | [] => Ok (db, tasks_created)
  | task_data :: rest =>
      '(db1, n1) ←
        catch_class ValidationError
          (validated_task ←
             validate_task_data (description task_data)
               (Some (priority task_data)) (Some (category task_data));
           Ok (add_task db (fun i =>
                 Task.mk i current_user_id (Email.id email_record)
                   (description validated_task)
                   (Str.take 255 (EmailData.sender email_data))
                   (priority validated_task)
                   (category validated_task)
                   false None),
               S tasks_created))
          (fun _ => Ok (db, tasks_created));
      add_tasks email_record email_data rest db1 n1
  end.

(** One iteration of the outer loop (lines 40-96) on the session,
    [processed_count] and [tasks_created]. *)
Definition process_one (email_data : EmailData.t)
    (st : database * nat * nat) : exc (database * nat * nat) :=
  let '(db, processed_count, tasks_created) := st in
  match find_email db (EmailData.gmail_id email_data) current_user_id with
  | Some _ => Ok st
  | None =>
      match validate_email_content (EmailData.subject email_data)
              (EmailData.body email_data) with
      | Raise e =>
          if exn_class_eqb (exn_class_of e) ValidationError then Ok st
          else Raise e
      | Ok validated_content =>
          '(db1, email_record) ←
            add_email db (fun i =>
              Email.mk i current_user_id
                (EmailData.gmail_id email_data)
                (EmailData.thread_id email_data)
                (cleaned_subject validated_content)
                (Str.take 255 (EmailData.sender email_data))
                (Str.take 255 (EmailData.sender_email email_data))
                (cleaned_body validated_content)
                (Str.take 500 (EmailData.snippet email_data))
                false None
                (EmailData.received_at email_data));
          tasks ← extract_tasks (loads w) (complete w)
                    (EmailData.subject email_data)
                    (EmailData.body email_data)
                    (EmailData.sender email_data);
          '(db2, n2) ← add_tasks email_record email_data tasks db1 tasks_created;
          Ok (update_email db2
                (Email.mark_processed
                   (utcnow w (EmailData.gmail_id email_data)) email_record),
              S processed_count, n2)
      end
  end.

Fixpoint process_loop (new_emails : list EmailData.t)
    (st : database * nat * nat) : exc (database * nat * nat) :=
  match new_emails with
  | [] => Ok st
  | email_data :: rest => st1 ← process_one email_data st; process_loop rest st1
  end.

(** The [try] block of [process_emails] after [GmailService(user)]
    (lines 31-96), up to, not including, the commit. *)
Definition run (db : database) : exc (database * nat * nat) :=
  _ ← ai_init w;
  new_emails ← get_unprocessed_emails w (max_emails w);
  process_loop new_emails (db, O, O).

(** [process_emails()] for an authenticated request: the response
    and the committed database.  A raised exception rolls the
    session back to the last commit. *)
Definition process_emails (db : database) : response * database :=
  match get_user db current_user_id with
  | Some user =>
      if User.gmail_connected user then
        let '(service, committed) := _build_service w user db in
        match (_ ← service; run committed) with
        | Ok (db', processed_count, tasks_created) =>
            ({| status := 200;
                payload := Processed "Emails processed successfully"
                             processed_count tasks_created |}, db')
        | Raise e =>
            ({| status := 500; payload := Error (exn_str e) |}, committed)
        end
      else ({| status := 400; payload := Error "Gmail not connected" |}, db)
  | None => ({| status := 400; payload := Error "Gmail not connected" |}, db)
  end.

(** The [@ratelimit(limit, window, per='user')] wrapper around a
    view. *)
Definition ratelimit (limit window : Z)
    (f : database -> response * database)
    (c : RateLimiter.clients) (db : database)
  : response * RateLimiter.clients * database :=
  let client_id := "user_" +:+ pretty current_user_id in
  let '(allowed, c') :=
    RateLimiter.is_allowed c (time w) client_id limit window in
  if allowed then let '(r, db') := f db in (r, c', db')
  else ({| status := 429;
           payload := ErrorMessage "Rate limit exceeded"
             ("Too many requests. Limit: " +:+ pretty limit +:+ " per "
              +:+ pretty window +:+ " seconds") |}, c', db).

(** [POST /process] *)
Definition process_emails_view :=
  ratelimit 5 300 process_emails.
End Run.

(** The database a run leaves behind. *)
Definition persisted (w : world) (uid : nat) (db : database) : database :=
  snd (process_emails w uid db).

(** The loop with its commit or rollback, on a given fetched list. *)
Definition ingest (w : world) (uid : nat) (new_emails : list EmailData.t)
    (db : database) : database :=
  match process_loop w uid new_emails (db, O, O) with
  | Ok (db', _, _) => db'
  | Raise _ => db
  end.

(** The message passes [validate_email_content]. *)
Definition is_valid (m : EmailData.t) : bool :=
  match validate_email_content (EmailData.subject m) (EmailData.body m) with
  | Ok _ => true
  | Raise _ => false
  end.

(** The [(gmail_id, user_id)] pairs of the [emails] table, in row
    order. *)
Definition keys (db : database) : list (string * nat) :=
  map (fun e => (Email.gmail_id e, Email.user_id e)) (emails db).

Definition key_present (ks : list (string * nat)) (g : string) (uid : nat)
  : bool :=
  existsb (fun k => String.eqb (fst k) g && Nat.eqb (snd k) uid) ks.

Definition id_present (ks : list (string * nat)) (g : string) : bool :=
  existsb (fun k => String.eqb (fst k) g) ks.

(** The four outcomes of one turn of the outer loop. *)
Inductive outcome (uid : nat) (m : EmailData.t) (db : database)
    (pc tc : nat) : exc (database * nat * nat) → Prop :=
| Skipped_present :
    key_present (keys db) (EmailData.gmail_id m) uid = true →
    outcome uid m db pc tc (Ok (db, pc, tc))
| Skipped_invalid :
    key_present (keys db) (EmailData.gmail_id m) uid = false →
    is_valid m = false →
    outcome uid m db pc tc (Ok (db, pc, tc))
| Refused :
    key_present (keys db) (EmailData.gmail_id m) uid = false →
    is_valid m = true →
    id_present (keys db) (EmailData.gmail_id m) = true →
    outcome uid m db pc tc (Raise Db.unique_violation)
| Inserted e rows tc' :
    key_present (keys db) (EmailData.gmail_id m) uid = false →
    is_valid m = true →
    id_present (keys db) (EmailData.gmail_id m) = false →
    Email.gmail_id e = EmailData.gmail_id m →
    Email.user_id e = uid →
    Email.processed e = true →
    outcome uid m db pc tc
      (Ok ({| users := users db; emails := emails db ++ [e];
              tasks := tasks db ++ rows |}, S pc, tc')).

(** A message the loop passes over: its key is in the table, or its
    content is invalid. *)
Definition passed_over (ks : list (string * nat)) (uid : nat)
    (m : EmailData.t) : Prop :=
  key_present ks (EmailData.gmail_id m) uid = true ∨ is_valid m = false.

End Emails.

(** ** Sample data

    Two fetched messages, an AI answer with three candidates, and a
    database in which another user already owns the second message. *)

Module Sample.
Import Db Emails.

Definition report : EmailData.t :=
  EmailData.mk "m1" (Some "t1") "Please send the Q3 report by Friday"
    "Jane Doe" "jane@co.com" "Hi, please send the report." "Hi, please" 1000.

Definition invoice : EmailData.t :=
  EmailData.mk "m2" None "Invoice 42" "Billing" "billing@co.com"
    "Your invoice is attached." "Your invoice" 1001.

(** An out-of-set priority and category; a blank description; a
    description of 5000 characters. *)
Definition candidates : json :=
  JArr [JObj [("description", JStr " Send the Q3 report ");
              ("priority", JStr "Urgent");
              ("category", JStr "Reports")];
        JObj [("description", JStr "   ");
              ("priority", JStr "High")];
        JObj [("description", JStr (Str.replicate (Z.to_nat 5000) "a"));
              ("priority", JStr "High");
              ("category", JStr "Review")]].

(** A loader that knows two texts. *)
Definition loader (text : string) : exc json :=
  if String.eqb text "[]" then Ok (JArr [])
  else if String.eqb text "CANDIDATES" then Ok candidates
  else Raise (Exn JSONDecodeError "Expecting value").

(** The clock of [mark_processed] has moved on between the two
    messages. *)
Definition clock (gmail_id : string) : Z :=
  if String.eqb gmail_id "m1" then 2000 else 2003.

Definition env : world := {|
  time := 0;
  utcnow := clock;
  fernet := Encryption.tag_cipher;
  codec := Encryption.byte_codec;
  iv := tt;
  expired_at := fun t => t <=? 1990;
  refresh := fun c =>
    Ok (Credentials.mk (Some "ya29.new") (Credentials.refresh_token c)
          (Some 5600));
  refreshed_at := 1990;
  build := Ok tt;
  ai_init := Ok tt;
  max_emails := 50;
  list_messages := fun _ => Ok ["m1"; "m2"];
  get_email_details := fun i =>
    if String.eqb i "m1" then Some report
    else if String.eqb i "m2" then Some invoice
    else None;
  complete := fun _ => Ok (Some "```json CANDIDATES ```");
  loads := loader
|}.

(** The same world with another outcome of the message listing. *)
Definition with_listing (r : exc (list string)) : world := {|
  time := 0; utcnow := clock;
  fernet := fernet env; codec := codec env; iv := iv env;
  expired_at := expired_at env; refresh := refresh env;
  refreshed_at := 1990; build := Ok tt; ai_init := Ok tt; max_emails := 50;
  list_messages := fun _ => r;
  get_email_details := get_email_details env;
  complete := complete env; loads := loader
|}.

(** The same world with another outcome of building the client. *)
Definition with_build (r : exc unit) : world := {|
  time := 0; utcnow := clock;
  fernet := fernet env; codec := codec env; iv := iv env;
  expired_at := expired_at env; refresh := refresh env;
  refreshed_at := 1990; build := r; ai_init := Ok tt; max_emails := 50;
  list_messages := list_messages env;
  get_email_details := get_email_details env;
  complete := complete env; loads := loader
|}.



(** A two-part payload with the HTML part first. *)
Definition html_first : json :=
  JObj [("mimeType", JStr "multipart/alternative");
        ("parts",
         JArr [JObj [("mimeType", JStr "text/html");
                     ("body", JObj [("data", JStr "<p>Hello <b>Bob</b></p>")])];
               JObj [("mimeType", JStr "text/plain");
                     ("body", JObj [("data", JStr "Hello, Bob.")])]])].

(** Two connected users; the token columns hold what the sample
    cipher makes of the tokens. *)
Definition ann : User.t :=
  User.mk 1 true (UserTokens.mk (Some "tya29.ann") (Some "t1//ann")) None 900.

Definition bob : User.t :=
  User.mk 2 true (UserTokens.mk (Some "tya29.bob") (Some "t1//bob")) None 950.

Definition accounts : list User.t := [ann; bob].

(** No message stored yet. *)
Definition empty_db : database :=
  {| users := accounts; emails := []; tasks := [] |}.

(** User 2 owns message [m2]. *)
Definition shared : database :=
  {| users := accounts;
     emails := [Email.mk 1 2 "m2" None "Invoice 42" "Billing"
                  "billing@co.com" "Your invoice is attached."
                  "Your invoice" true (Some 1500) 1001];
     tasks := [] |}.

End Sample.

(** ** More string operations *)

Module StrOps.

(** [c.lower()] on one character: the ASCII capitals and the Latin-1
    capitals (all of [192..222] but the multiplication sign) move up
    by 32. *)
Definition lower_char (c : ascii) : ascii :=
  let n := nat_of_ascii c in
  if ((65 <=? n) && (n <=? 90)
      || (192 <=? n) && (n <=? 222) && negb (n =? 215))%nat
  then ascii_of_nat (n + 32)
  else c.

(** [s.lower()] *)
Fixpoint lower (s : string) : string :=
  match s with
  | EmptyString => EmptyString
  | String c r => String (lower_char c) (lower r)
  end.

(** [s.split(sep)] for a separator of one character. *)
Fixpoint split (sep : ascii) (s : string) : list string :=
  match s with
  | EmptyString => [EmptyString]
  | String c r =>
      if Ascii.eqb c sep then EmptyString :: split sep r
      else match split sep r with
           | h :: t => String c h :: t
           | [] => [String c EmptyString]
           end
  end.

(** [s.split(sep)[i]].  The list is never empty, and it has a second
    piece whenever the separator occurs, which is where the source
    reads it; outside that range the empty string stands in. *)
Definition piece (i : nat) (sep : ascii) (s : string) : string :=
  nth i (split sep s) EmptyString.

(** [s.strip(chars)]: characters of the set are removed at both ends. *)
Fixpoint lstrip_set (p : ascii -> bool) (s : string) : string :=
  match s with
  | EmptyString => EmptyString
  | String c r => if p c then lstrip_set p r else s
  end.

Fixpoint rstrip_set (p : ascii -> bool) (s : string) : string :=
  match s with
  | EmptyString => EmptyString
  | String c r =>
      match rstrip_set p r with
      | EmptyString => if p c then EmptyString else String c EmptyString
      | r' => String c r'
      end
  end.

Definition strip_set (p : ascii -> bool) (s : string) : string :=
  rstrip_set p (lstrip_set p s).

(** Every character of [s] satisfies [p]. *)
Fixpoint all (p : ascii -> bool) (s : string) : bool :=
  match s with
  | EmptyString => true
  | String c r => p c && all p r
  end.

(** The character [c] occurs in [s]. *)
Fixpoint has (c : ascii) (s : string) : bool :=
  match s with
  | EmptyString => false
  | String a r => Ascii.eqb a c || has c r
  end.

End StrOps.

(** ** services/ai_service.py: the keyword heuristics *)

Module AIHeuristics.

Definition high_indicators : list string :=
  ["urgent"; "asap"; "immediately"; "critical"; "emergency"; "deadline";
   "important"].

Definition medium_indicators : list string :=
  ["soon"; "this week"; "when possible"; "at your convenience"].

Definition low_indicators : list string :=
  ["when you have time"; "no rush"; "when convenient"].

(** [any(k in content for k in ks)], as the [for] loops that return on
    the first hit compute it. *)
Definition any_in (ks : list string) (content : string) : bool :=
  existsb (fun k => Str.contains k content) ks.

(** [f"{subject} {body}".lower()] *)
Definition content_of (subject body : string) : string :=
  StrOps.lower (subject +:+ " " +:+ body).

(** [_determine_priority(subject, body, sender)] *)
Definition _determine_priority (subject body sender : string) : string :=
  let content := content_of subject body in
  if any_in high_indicators content then "High"
  else if any_in medium_indicators content then "Medium"
  else if any_in low_indicators content then "Low"
  else "Medium".

(** The dict [category_keywords], in insertion order. *)
Definition category_keywords : list (string * list string) :=
  [("Follow-up", ["follow up"; "follow-up"; "check in"; "status update";
                  "response needed"]);
   ("Meeting Prep", ["meeting"; "agenda"; "prepare"; "presentation";
                     "discussion"]);
   ("Purchase", ["purchase"; "buy"; "order"; "invoice"; "payment"; "cost";
                 "budget"]);
   ("Review", ["review"; "approve"; "check"; "examine"; "assess"]);
   ("Approval", ["approve"; "approval"; "authorize"; "sign off";
                 "permission"]);
   ("Schedule", ["schedule"; "calendar"; "appointment"; "booking";
                 "time slot"]);
   ("Research", ["research"; "investigate"; "look into"; "find out";
                 "analyze"])].

(** The nested loop over categories and their keywords. *)
Fixpoint first_category (table : list (string * list string))
    (content : string) : option string :=
  match table with
  | [] => None
  | (category, keywords) :: rest =>
      if any_in keywords content then Some category
      else first_category rest content
  end.

(** [_determine_category(subject, body)] *)
Definition _determine_category (subject body : string) : string :=
  default "General" (first_category category_keywords (content_of subject body)).

End AIHeuristics.

(** ** services/gmail_service.py: sender and date headers *)

Module GmailHeaders.

Definition is_quote (c : ascii) : bool := Ascii.eqb c (ascii_of_nat 34).

(** [_parse_sender(sender)] for a string.  The bare [except] of the
    source is not reached on a string: both indexed pieces exist. *)
Definition _parse_sender (sender : string) : string * string :=
  if Str.contains "<" sender && Str.contains ">" sender then
    let name_part :=
      StrOps.strip_set is_quote (Str.strip (StrOps.piece 0 "<" sender)) in
    let email_part :=
      Str.strip (StrOps.piece 0 ">" (StrOps.piece 1 "<" sender)) in
    (name_part, email_part)
  else (sender, sender).

Section Date.
(** [datetime.strptime(s, '%a, %d %b %Y %H:%M:%S')], raising
    [ValueError], and [datetime.utcnow()]. *)
Variable strptime : string -> exc Z.
Variable utcnow : Z.

(** The text handed to [strptime]: what stands before the first [+]
    and the first [-], stripped. *)
Definition date_text (date_str : string) : string :=
  Str.strip (StrOps.piece 0 "-" (StrOps.piece 0 "+" date_str)).

(** [_parse_date(date_str)] *)
Definition _parse_date (date_str : string) : Z :=
  match strptime (date_text date_str) with
  | Ok t => t
  | Raise _ => utcnow
  end.
End Date.

End GmailHeaders.

(** ** routes/emails.py and routes/tasks.py: the views on single rows *)

Module Views.
Import Db.

(** [Task.to_dict()] carries the task and, through the relationship
    [self.email], the subject and date of its email. *)
Inductive body :=
| EmailJson (e : Email.t)
| EmailTasksJson (e : Email.t) (ts : list (Task.t * option Email.t))
| TaskJson (t : Task.t) (email : option Email.t)
| NotFound (error : string).

Record response := { status : nat; payload : body }.

(** [Email.query.filter_by(id=email_id, user_id=uid).first()] *)
Definition find_email_by_id (db : database) (email_id uid : nat)
  : option Email.t :=
  find (fun e => Nat.eqb (Email.id e) email_id
                 && Nat.eqb (Email.user_id e) uid) (emails db).

(** [Task.query.filter_by(id=task_id, user_id=uid).first()] *)
Definition find_task (db : database) (task_id uid : nat) : option Task.t :=
  find (fun t => Nat.eqb (Task.id t) task_id
                 && Nat.eqb (Task.user_id t) uid) (tasks db).

(** The relationship [task.email]: the row the foreign key names. *)
Definition task_email (db : database) (t : Task.t) : option Email.t :=
  find (fun e => Nat.eqb (Email.id e) (Task.email_id t)) (emails db).

Definition to_dict (db : database) (t : Task.t) : Task.t * option Email.t :=
  (t, task_email db t).

(** [get_email(email_id)] *)
Definition get_email (uid email_id : nat) (db : database) : response :=
  match find_email_by_id db email_id uid with
  | None => {| status := 404; payload := NotFound "Email not found" |}
  | Some email_record => {| status := 200; payload := EmailJson email_record |}
  end.

(** [get_email_tasks(email_id)] *)
Definition get_email_tasks (uid email_id : nat) (db : database) : response :=
  match find_email_by_id db email_id uid with
  | None => {| status := 404; payload := NotFound "Email not found" |}
  | Some email_record =>
      let tasks :=
        List.filter (fun t => Nat.eqb (Task.email_id t) email_id
                              && Nat.eqb (Task.user_id t) uid) (tasks db) in
      {| status := 200;
         payload := EmailTasksJson email_record (map (to_dict db) tasks) |}
  end.

(** [Task.mark_completed()] at clock reading [now] *)
Definition mark_completed (now : Z) (t : Task.t) : Task.t :=
  Task.mk (Task.id t) (Task.user_id t) (Task.email_id t)
    (Task.description t) (Task.sender t) (Task.priority t)
    (Task.category t) true (Some now).

(** The assignments of [incomplete_task] *)
Definition mark_incomplete (t : Task.t) : Task.t :=
  Task.mk (Task.id t) (Task.user_id t) (Task.email_id t)
    (Task.description t) (Task.sender t) (Task.priority t)
    (Task.category t) false None.

(** Committing a changed task: the row with that primary key is
    replaced. *)
Definition update_task (db : database) (t : Task.t) : database :=
  {| users := users db;
     emails := emails db;
     tasks := map (fun x => if Nat.eqb (Task.id x) (Task.id t)
                            then t else x) (tasks db) |}.

(** [complete_task(task_id)] *)
Definition complete_task (now : Z) (uid task_id : nat) (db : database)
  : response * database :=
  match find_task db task_id uid with
  | None => ({| status := 404; payload := NotFound "Task not found" |}, db)
  | Some task =>
      let task' := mark_completed now task in
      let db' := update_task db task' in
      ({| status := 200; payload := TaskJson task' (task_email db' task') |},
       db')
  end.

(** [incomplete_task(task_id)] *)
Definition incomplete_task (uid task_id : nat) (db : database)
  : response * database :=
  match find_task db task_id uid with
  | None => ({| status := 404; payload := NotFound "Task not found" |}, db)
  | Some task =>
      let task' := mark_incomplete task in
      let db' := update_task db task' in
      ({| status := 200; payload := TaskJson task' (task_email db' task') |},
       db')
  end.

(** The primary keys of the [tasks] table are distinct. *)
Definition task_ids_unique (db : database) : Prop :=
  NoDup (map Task.id (tasks db)).

End Views.

(** ** What a run stores *)

Module Rows.
Import Validators Db Emails.

(** An [emails] row as a run of user [uid] in world [w] leaves it:
    owned by the user, marked as processed at the clock reading taken
    for its message, its texts within the column bounds. *)
Definition email_row_ok (w : world) (uid : nat) (e : Email.t) : Prop :=
  Email.user_id e = uid
  ∧ Email.processed e = true
  ∧ Email.processed_at e = Some (utcnow w (Email.gmail_id e))
  ∧ Email.subject e ≠ ""
  ∧ Str.len (Email.subject e) ≤ 500
  ∧ Str.len (Email.body e) ≤ 50000
  ∧ Str.len (Email.sender e) ≤ 255
  ∧ Str.len (Email.sender_email e) ≤ 255
  ∧ Str.len (Email.snippet e) ≤ 500.

(** A [tasks] row as a run of user [uid] leaves it: owned by the user,
    open, validated, and tied to one of the emails [es] of the same
    user. *)
Definition task_row_ok (uid : nat) (es : list Email.t) (t : Task.t) : Prop :=
  Task.user_id t = uid
  ∧ Task.completed t = false
  ∧ Task.completed_at t = None
  ∧ validate_priority (Task.priority t) = true
  ∧ validate_category (Task.category t) = true
  ∧ Task.description t ≠ ""
  ∧ Str.len (Task.description t) ≤ 1000
  ∧ ∃ e, e ∈ es ∧ Email.id e = Task.email_id t ∧ Email.user_id e = uid.

End Rows.

(** ** Markup characters *)

Module Markup.

(** The characters that open or close markup or an attribute value. *)
Definition is_markup (c : ascii) : bool :=
  Ascii.eqb c "<" || Ascii.eqb c ">"
  || Ascii.eqb c (ascii_of_nat 34) || Ascii.eqb c "'".

(** No character of [s] is a markup character. *)
Definition markup_free (s : string) : bool :=
  StrOps.all (fun c => negb (is_markup c)) s.

End Markup.

(** ** Optional fields *)

Module Optional.

(** An optional field that is absent, empty, or passes the check. *)
Definition absent_or (valid : string -> bool) (o : option string) : Prop :=
  match o with
  | None => True
  | Some s => s = "" ∨ valid s = true
  end.

End Optional.

(** ** What a run adds *)

Module Growth.
Import Validators Db Emails Rows.

(** The columns of a task row a run of user [uid] writes for the
    email with primary key [eid]. *)
Definition task_fields_ok (uid eid : nat) (t : Task.t) : Prop :=
  Task.user_id t = uid
  ∧ Task.email_id t = eid
  ∧ Task.completed t = false
  ∧ Task.completed_at t = None
  ∧ validate_priority (Task.priority t) = true
  ∧ validate_category (Task.category t) = true
  ∧ Task.description t ≠ ""
  ∧ Str.len (Task.description t) ≤ 1000.

(** [db'] is [db] with the emails [es] and the tasks [rows] appended,
    each as a run of user [uid] in world [w] leaves them. *)
Definition grows (w : world) (uid : nat) (db db' : database)
    (es : list Email.t) (rows : list Task.t) : Prop :=
  users db' = users db
  ∧ emails db' = emails db ++ es
  ∧ tasks db' = tasks db ++ rows
  ∧ Forall (email_row_ok w uid) es
  ∧ Forall (task_row_ok uid es) rows.

(** The primary keys of both tables are distinct. *)
Definition ids_unique (db : database) : Prop :=
  NoDup (map Email.id (emails db)) ∧ NoDup (map Task.id (tasks db)).

End Growth.

(** ** utils/validators.py: [validate_email] *)

Module EmailPattern.

(** Regular expressions over character classes, as far as the pattern
    of [validate_email] needs them. *)
Inductive re :=
| Void
| Eps
| Class (p : ascii -> bool)
| Cat (r s : re)
| Alt (r s : re)
| Star (r : re).

(** The strings a regular expression matches in full. *)
Inductive lang : re -> string -> Prop :=
| lang_eps : lang Eps EmptyString
| lang_class p c : p c = true -> lang (Class p) (String c EmptyString)
| lang_cat r s u v : lang r u -> lang s v -> lang (Cat r s) (u +:+ v)
| lang_alt_l r s u : lang r u -> lang (Alt r s) u
| lang_alt_r r s u : lang s u -> lang (Alt r s) u
| lang_star_nil r : lang (Star r) EmptyString
| lang_star_cons r u v :
    lang r u -> lang (Star r) v -> lang (Star r) (u +:+ v).

(** Matching by derivatives. *)
Fixpoint nullable (r : re) : bool :=
  match r with
  | Void => false
  | Eps => true
  | Class _ => false
  | Cat r s => nullable r && nullable s
  | Alt r s => nullable r || nullable s
  | Star _ => true
  end.

Fixpoint deriv (c : ascii) (r : re) : re :=
  match r with
  | Void => Void
  | Eps => Void
  | Class p => if p c then Eps else Void
  | Cat r s =>
      if nullable r then Alt (Cat (deriv c r) s) (deriv c s)
      else Cat (deriv c r) s
  | Alt r s => Alt (deriv c r) (deriv c s)
  | Star r => Cat (deriv c r) (Star r)
  end.

Fixpoint fullmatch (r : re) (s : string) : bool :=
  match s with
  | EmptyString => nullable r
  | String c s' => fullmatch (deriv c r) s'
  end.

(** [r+] and [r{2,}] *)
Definition plus (r : re) : re := Cat r (Star r).
Definition two_or_more (r : re) : re := Cat r (Cat r (Star r)).

Definition in_range (lo hi : nat) (c : ascii) : bool :=
  ((lo <=? nat_of_ascii c) && (nat_of_ascii c <=? hi))%nat.

(** [[a-zA-Z]] *)
Definition letter (c : ascii) : bool :=
  in_range 97 122 c || in_range 65 90 c.

(** [[a-zA-Z0-9._%+-]] *)
Definition local_char (c : ascii) : bool :=
  letter c || in_range 48 57 c || Ascii.eqb c "." || Ascii.eqb c "_"
  || Ascii.eqb c "%" || Ascii.eqb c "+" || Ascii.eqb c "-".

(** [[a-zA-Z0-9.-]] *)
Definition domain_char (c : ascii) : bool :=
  letter c || in_range 48 57 c || Ascii.eqb c "." || Ascii.eqb c "-".

(** The pattern between [^] and [$]:
    [[a-zA-Z0-9._%+-]+@[a-zA-Z0-9.-]+\.[a-zA-Z]{2,}] *)
Definition pattern : re :=
  Cat (plus (Class local_char))
    (Cat (Class (Ascii.eqb "@"))
       (Cat (plus (Class domain_char))
          (Cat (Class (Ascii.eqb "."))
             (two_or_more (Class letter))))).

Definition newline : ascii := ascii_of_nat 10.

(** [s] without a line feed at its end, when it has one. *)
Fixpoint chop_newline (s : string) : option string :=
  match s with
  | EmptyString => None
  | String c EmptyString =>
      if Ascii.eqb c newline then Some EmptyString else None
  | String c r => String c <$> chop_newline r
  end.

(** [bool(re.match('^' + r + '$', s))]: the pattern matches the whole
    string, or the whole string but a line feed at its end, which is
    where [$] also matches. *)
Definition re_match (r : re) (s : string) : bool :=
  fullmatch r s
  || match chop_newline s with
     | Some s' => fullmatch r s'
     | None => false
     end.

(** [validate_email(email)] *)
Definition validate_email (email : string) : bool :=
  if String.eqb email "" then false else re_match pattern email.

(** The shape of an accepted address: a local part, [@], a domain, a
    dot and a top-level name of at least two letters. *)
Definition address (s : string) : Prop :=
  ∃ loc dom tld,
    s = loc +:+ "@" +:+ dom +:+ "." +:+ tld
    ∧ loc ≠ "" ∧ StrOps.all local_char loc = true
    ∧ dom ≠ "" ∧ StrOps.all domain_char dom = true
    ∧ (2 <= String.length tld)%nat ∧ StrOps.all letter tld = true.

End EmailPattern.

(** ** What is stored for a task candidate *)

Module Candidates.
Import Validators AIService.

(** The priority a candidate object is given: its own when that is
    one of the three, [Medium] for any other, a missing or non-string
    one included. *)
Definition clamp_priority (fields : list (string * json)) : string :=
  match lookup "priority" fields with
  | Some (JStr p) => if validate_priority p then p else "Medium"
  | _ => "Medium"
  end.

(** The category a candidate object is given, likewise. *)
Definition clamp_category (fields : list (string * json)) : string :=
  match lookup "category" fields with
  | Some (JStr c) => if validate_category c then c else "General"
  | _ => "General"
  end.


(** What is stored for an element of the answer.  Nothing for an
    element that is no object or has no [description], nothing for a
    blank description, nothing for a stripped description of more than
    1000 characters; for any other candidate the stripped, sanitized
    description with the clamped priority and category. *)
Definition stored (item : json) : option task_data :=
  match item with
  | JObj fields =>
      match lookup "description" fields with
      | Some (JStr d) =>
          let d := Str.strip d in
          if String.eqb d "" || (1000 <? Str.len d) then None
          else Some {| description := sanitize_text d (Some 1000);
                       priority := clamp_priority fields;
                       category := clamp_category fields |}
      | _ => None
      end
  | _ => None
  end.


End Candidates.

(** * Properties *)

(** ** The rate limiter *)

Module RateLimiterFacts.
Import RateLimiter.

Lemma is_allowed_step (c : clients) now k limit window :
  is_allowed c now k limit window =
    (fst (gate_step (getitem c k) now limit window),
     <[k := snd (gate_step (getitem c k) now limit window)]> c).
Proof.
  unfold is_allowed, gate_step. cbv zeta.
  destruct (Z.of_nat _ >=? limit); reflexivity.
Qed.

Lemma getitem_insert (c : clients) k q : getitem (<[k := q]> c) k = q.
Proof. unfold getitem. by rewrite lookup_insert_eq. Qed.

Lemma getitem_insert_ne (c : clients) k k' q :
  k ≠ k' → getitem (<[k := q]> c) k' = getitem c k'.
Proof. intros. unfold getitem. by rewrite lookup_insert_ne. Qed.

Lemma calls_steps times : ∀ (c : clients) k limit window,
  fst (calls c k limit window times) = fst (gate_steps (getitem c k) limit window times)
  ∧ getitem (snd (calls c k limit window times)) k
    = snd (gate_steps (getitem c k) limit window times).
Proof.
  induction times as [|now rest IH]; intros c k limit window; [done|].
  cbn [calls gate_steps]. rewrite is_allowed_step.
  destruct (gate_step (getitem c k) now limit window) as [b q1] eqn:Ha.
  cbn [fst snd].
  specialize (IH (<[k := q1]> c) k limit window).
  rewrite getitem_insert in IH.
  destruct (calls _ k limit window rest) as [bs c2].
  destruct (gate_steps q1 limit window rest) as [bs' q2].
  cbn [fst snd] in *. destruct IH as [-> ->]. done.
Qed.

Lemma filter_all (bound : Z) (q : list Z) :
  Forall (λ t, bound ≤ t) q → filter (λ t, bound ≤ t) q = q.
Proof.
  induction 1 as [|t q Ht _ IH]; [done|].
  rewrite filter_cons_True by done. by rewrite IH.
Qed.

(** On a time-ordered deque the cleaning loop removes every entry
    older than the bound, and nothing else. *)
Lemma clean_filter (q : list Z) (bound : Z) :
  time_ordered q → clean q bound = filter (λ t, bound ≤ t) q.
Proof.
  intros Hs. apply Sorted_StronglySorted in Hs; [|intros x y z; lia].
  induction Hs as [|t q Hq IH Hall]; [done|].
  cbn [clean]. destruct (Z.ltb_spec t bound) as [Hlt|Hge].
  - rewrite filter_cons_False by lia. exact IH.
  - symmetry. apply filter_all. constructor; [done|].
    eapply Forall_impl; [exact Hall|]. intros; cbn in *; lia.
Qed.

Lemma sorted_snoc (q : list Z) (now : Z) :
  time_ordered q → Forall (λ t, t ≤ now) q → time_ordered (q ++ [now]).
Proof.
  intros Hs Hle. induction Hs as [|t q Hq IH Hhd].
  - repeat constructor.
  - inversion Hle; subst. cbn. constructor; [by apply IH|].
    destruct q; cbn; constructor; [done|]. by inversion Hhd.
Qed.

Lemma clean_sorted (q : list Z) bound :
  time_ordered q → time_ordered (clean q bound).
Proof.
  induction 1 as [|t q Hq IH Hhd]; [constructor|].
  cbn [clean]. destruct (t <? bound); [done|by constructor].
Qed.

Lemma clean_bounded (q : list Z) bound now :
  Forall (λ t, t ≤ now) q → Forall (λ t, t ≤ now) (clean q bound).
Proof.
  induction 1 as [|t q Ht Hq IH]; [constructor|].
  cbn [clean]. destruct (t <? bound); [done|by constructor].
Qed.

(** With a clock that does not run backwards the deque of a client
    stays time ordered. *)
Lemma is_allowed_time_ordered (c : clients) now k limit window :
  time_ordered (getitem c k) → Forall (λ t, t ≤ now) (getitem c k) →
  time_ordered (getitem (snd (is_allowed c now k limit window)) k)
  ∧ Forall (λ t, t ≤ now) (getitem (snd (is_allowed c now k limit window)) k).
Proof.
  intros Hs Hle. rewrite is_allowed_step. cbn [snd].
  rewrite getitem_insert. unfold gate_step. cbv zeta.
  pose proof (clean_sorted _ (now - window) Hs).
  pose proof (clean_bounded _ (now - window) _ Hle).
  destruct (_ >=? limit); cbn [snd]; [done|]. split.
  - by apply sorted_snoc.
  - apply Forall_app; split; [done|]. repeat constructor. lia.
Qed.

(** C3.  The rate gate is a sliding window over admission time
    stamps.  For every client whose deque is empty, with limit 5 and
    window 300 the answers to ten calls at time 0 are five admissions
    followed by five refusals, and an eleventh call at time 301 is
    admitted.  On every call on a time-ordered deque, the entries
    older than [now - window] are evicted, the call is admitted
    exactly when fewer than [limit] entries remain, and [now] is
    recorded on admission only.  A call for one client leaves the
    deque of every other client as it is. *)
Theorem sliding_window_gate :
  (∀ (c : clients) (key : string),
     getitem c key = [] →
     let '(answers, c') := calls c key 5 300 (replicate 10 0) in
     answers = [true; true; true; true; true;
                false; false; false; false; false]
     ∧ fst (is_allowed c' 301 key 5 300) = true)
  ∧ (∀ (c : clients) (now : Z) (key : string) (limit window : Z),
       time_ordered (getitem c key) →
       let remaining := filter (λ t, now - window ≤ t) (getitem c key) in
       is_allowed c now key limit window =
         if bool_decide (Z.of_nat (length remaining) < limit)
         then (true, <[key := remaining ++ [now]]> c)
         else (false, <[key := remaining]> c))
  ∧ (∀ (c : clients) (now : Z) (key other : string) (limit window : Z),
       key ≠ other →
       getitem (is_allowed c now other limit window).2 key = getitem c key).
Proof.
  split; [|split].
  - intros c key Hq.
    pose proof (calls_steps (replicate 10 0) c key 5 300) as [Hb Hc].
    rewrite Hq in Hb, Hc.
    destruct (calls c key 5 300 (replicate 10 0)) as [answers c'].
    cbn [fst snd] in Hb, Hc. split.
    + rewrite Hb. reflexivity.
    + rewrite is_allowed_step, Hc. reflexivity.
  - intros c now key limit window Hs remaining.
    unfold is_allowed. cbv zeta. rewrite (clean_filter _ _ Hs).
    fold remaining.
    destruct (Z.geb_spec (Z.of_nat (length remaining)) limit).
    + rewrite bool_decide_eq_false_2 by lia. done.
    + rewrite bool_decide_eq_true_2 by lia. done.
  - intros c now key other limit window Hne.
    rewrite is_allowed_step. cbn [snd]. by apply getitem_insert_ne.
Qed.

Lemma sliding_window_gate_witness :
  (let '(answers, c') := calls (∅ : clients) "user_1" 5 300 (replicate 10 0) in
   answers = [true; true; true; true; true;
              false; false; false; false; false]
   ∧ fst (is_allowed c' 301 "user_1" 5 300) = true)
  ∧ is_allowed ({["user_1" := [0; 10; 20]]} : clients) 315 "user_1" 1 300
    = (false, <["user_1" := [20]]> {["user_1" := [0; 10; 20]]}).
Proof.
  destruct sliding_window_gate as (H1 & H2 & _). split.
  - apply (H1 ∅ "user_1"). reflexivity.
  - rewrite (H2 {["user_1" := [0; 10; 20]]} 315 "user_1" 1 300).
    + unfold getitem. rewrite lookup_singleton_eq. reflexivity.
    + unfold getitem. rewrite lookup_singleton_eq. cbn.
      repeat constructor; lia.
Defined.

End RateLimiterFacts.

(** ** Token encryption *)

Module EncryptionFacts.
Import Encryption.

Lemma eqb_empty_false (s : string) : s ≠ "" → String.eqb s "" = false.
Proof. intros. by apply String.eqb_neq. Qed.

Lemma tag_cipher_laws : @Laws tag_cipher byte_codec.
Proof.
  split.
  - done.
  - intros s. change (Ok (string_of_list_byte (list_byte_of_string s)) = Ok s).
    by rewrite string_of_list_byte_of_string.
  - intros r m. exists (string_of_list_byte (Byte.x74 :: m)).
    split; [done|]. split; [done|].
    change (list_byte_of_string (string_of_list_byte (Byte.x74 :: m))
            = Byte.x74 :: m).
    by rewrite list_byte_of_string_of_list_byte.
Qed.

(** C4.  Given a cipher and a codec that keep their contracts,
    decrypting the encryption of a non-empty token gives the token
    back.  For any cipher and codec, decryption never raises, and a
    ciphertext that the cipher rejects, or whose plaintext does not
    decode, yields no value. *)
Theorem token_roundtrip `{cipher : Fernet} `{codec : Codec} :
  (Laws → ∀ (r : entropy) (s : string),
     s ≠ "" → roundtrip r s = Ok (Some s))
  ∧ (∀ ct : string,
       (∃ v, decrypt_token ct = Ok v)
       ∧ (raises (b ← decrypt (encode ct); decode b) →
          decrypt_token ct = Ok None)).
Proof.
  split.
  - intros L r s Hs. unfold roundtrip, encrypt_token.
    rewrite (eqb_empty_false _ Hs).
    destruct (token_is_text r (encode s)) as (t & Ht & Hne & Henc).
    rewrite Ht. cbn. unfold decrypt_token.
    rewrite (eqb_empty_false _ Hne), Henc, decrypt_encrypt. cbn.
    by rewrite decode_encode.
  - intros ct. unfold decrypt_token.
    destruct (String.eqb ct ""); [split; [eauto|done]|].
    destruct (decrypt (encode ct)) as [b|e]; cbn; [|split; eauto].
    destruct (decode b); cbn; split; eauto; done.
Qed.

Lemma token_roundtrip_witness :
  @roundtrip tag_cipher byte_codec tt "ya29.token" = Ok (Some "ya29.token")
  ∧ @decrypt_token tag_cipher byte_codec "garbage" = Ok None.
Proof.
  destruct (@token_roundtrip tag_cipher byte_codec) as [H1 H2]. split.
  - apply (H1 tag_cipher_laws tt "ya29.token"). discriminate.
  - apply (H2 "garbage"). exact I.
Defined.

End EncryptionFacts.

(** ** Strings *)

Module StrFacts.
Import Str.

Lemma app_nil (t : string) : EmptyString +:+ t = t.
Proof. reflexivity. Qed.

Lemma app_cons c (s t : string) : String c s +:+ t = String c (s +:+ t).
Proof. reflexivity. Qed.

Ltac app_simpl := rewrite ?app_cons, ?app_nil; simpl.

Lemma length_app (s t : string) :
  String.length (s +:+ t) = (String.length s + String.length t)%nat.
Proof. induction s as [|c s IH]; app_simpl; [done|by rewrite IH]. Qed.

Lemma app_assoc (s t u : string) : (s +:+ t) +:+ u = s +:+ t +:+ u.
Proof. induction s as [|c s IH]; app_simpl; [done|by rewrite IH]. Qed.

Lemma take_app (s t : string) : take (String.length s) (s +:+ t) = s.
Proof. induction s as [|c s IH]; app_simpl; [by destruct t|by rewrite IH]. Qed.

Lemma drop_app (s t : string) : drop (String.length s) (s +:+ t) = t.
Proof. induction s as [|c s IH]; app_simpl; [by destruct t|done]. Qed.

Lemma take_all (n : nat) (s : string) :
  (String.length s ≤ n)%nat → take n s = s.
Proof.
  revert n. induction s as [|c s IH]; intros [|n] H; simpl in *; try done; try lia.
  rewrite IH; [done|lia].
Qed.

Lemma length_take (n : nat) (s : string) :
  String.length (take n s) = Nat.min n (String.length s).
Proof.
  revert n. induction s as [|c s IH]; intros [|n]; simpl; try done.
  by rewrite IH.
Qed.

Lemma startswith_app (p s : string) : startswith p (p +:+ s) = true.
Proof.
  induction p as [|c p IH]; app_simpl; [done|]. by rewrite Ascii.eqb_refl.
Qed.

Lemma endswith_app (s p : string) : endswith p (s +:+ p) = true.
Proof.
  unfold endswith, len. rewrite length_app.
  apply andb_true_intro; split; [apply Z.leb_le; lia|].
  replace (String.length s + String.length p - String.length p)%nat
    with (String.length s) by lia.
  rewrite drop_app. apply String.eqb_refl.
Qed.

Lemma drop_last_app (s p : string) : drop_last (String.length p) (s +:+ p) = s.
Proof.
  unfold drop_last. rewrite length_app.
  replace (String.length s + String.length p - String.length p)%nat
    with (String.length s) by lia.
  apply take_app.
Qed.

Lemma lstrip_nonspace c r : isspace c = false → lstrip (String c r) = String c r.
Proof. intros H. simpl. by rewrite H. Qed.

Lemma rstrip_nonspace (s : string) c :
  isspace c = false →
  rstrip (s +:+ String c EmptyString) = s +:+ String c EmptyString.
Proof.
  intros H. induction s as [|a s IH]; app_simpl.
  - by rewrite H.
  - rewrite IH. by destruct s.
Qed.

Lemma lstrip_idem (s : string) : lstrip (lstrip s) = lstrip s.
Proof.
  induction s as [|c s IH]; simpl; [done|].
  destruct (isspace c) eqn:E; [done|]. simpl. by rewrite E.
Qed.

Lemma rstrip_idem (s : string) : rstrip (rstrip s) = rstrip s.
Proof.
  induction s as [|c s IH]; simpl; [done|].
  destruct (rstrip s) as [|a r'] eqn:E.
  - destruct (isspace c) eqn:Ec; simpl; [done|by rewrite Ec].
  - change (rstrip (String c (String a r'))) with
      (match rstrip (String a r') with
       | EmptyString => if isspace c then EmptyString else String c EmptyString
       | r0 => String c r0
       end).
    by rewrite IH.
Qed.

Lemma lstrip_head (s : string) :
  match lstrip s with
  | EmptyString => True
  | String c _ => isspace c = false
  end.
Proof.
  induction s as [|c s IH]; simpl; [done|].
  destruct (isspace c) eqn:E; [done|]. done.
Qed.

Lemma rstrip_head (s : string) c :
  isspace c = false → ∃ r', rstrip (String c s) = String c r'.
Proof.
  intros H. simpl. destruct (rstrip s); rewrite ?H; eauto.
Qed.

Lemma strip_idem (s : string) : strip (strip s) = strip s.
Proof.
  unfold strip. pose proof (lstrip_head s) as Hh.
  destruct (lstrip s) as [|c r] eqn:E; [done|].
  destruct (rstrip_head r c Hh) as [r' Hr].
  rewrite Hr. rewrite (lstrip_nonspace _ _ Hh). rewrite <- Hr.
  apply rstrip_idem.
Qed.

End StrFacts.

(** ** Ingestion *)

Module EmailsFacts.
Import Validators AIService Db Http Emails.

Lemma find_email_present (db : database) g uid :
  key_present (keys db) g uid
  = match find_email db g uid with Some _ => true | None => false end.
Proof.
  unfold key_present, keys, find_email.
  induction (emails db) as [|e es IH]; simpl; [done|].
  destruct (_ && _); simpl; done.
Qed.

Lemma gmail_id_taken_present (db : database) g :
  gmail_id_taken db g = id_present (keys db) g.
Proof.
  unfold gmail_id_taken, id_present, keys.
  induction (emails db) as [|e es IH]; simpl; [done|]. by rewrite IH.
Qed.

Lemma next_id_fresh (ids : list nat) x : x ∈ ids → (x < next_id ids)%nat.
Proof.
  unfold next_id. induction 1 as [x l|x y l _ IH]; simpl; lia.
Qed.

Lemma raise_validation_class {A} errors e :
  @raise_validation A errors = Raise e → exn_class_of e = ValidationError.
Proof. unfold raise_validation. by intros [= <-]. Qed.

Lemma validate_email_content_class subject body e :
  validate_email_content subject body = Raise e →
  exn_class_of e = ValidationError.
Proof.
  unfold validate_email_content.
  destruct (_ ++ _); [done|]. apply raise_validation_class.
Qed.

Lemma validate_task_data_class d p c e :
  validate_task_data d p c = Raise e → exn_class_of e = ValidationError.
Proof.
  unfold validate_task_data.
  destruct (_ ++ _); [done|]. apply raise_validation_class.
Qed.

Lemma parse_total loads response :
  ∃ tasks, _parse_ai_response loads response = Ok tasks.
Proof.
  unfold _parse_ai_response.
  destruct (catch_class _ _ _) as [l|e]; simpl; eauto.
Qed.

Lemma extract_tasks_total loads complete subject body sender :
  ∃ tasks, extract_tasks loads complete subject body sender = Ok tasks.
Proof.
  unfold extract_tasks. destruct (_ ≫= _) as [l|e]; simpl; eauto.
Qed.

(** One turn of the inner loop: a candidate that passes
    [validate_task_data] becomes a row, another one is skipped. *)
Lemma add_tasks_cons uid er ed t ts db n :
  add_tasks uid er ed (t :: ts) db n =
    match validate_task_data (description t) (Some (priority t))
            (Some (category t)) with
    | Ok v =>
        add_tasks uid er ed ts
          (add_task db (λ i, Task.mk i uid (Email.id er)
             (description v) (Str.take 255 (EmailData.sender ed))
             (priority v) (category v) false None)) (S n)
    | Raise _ => add_tasks uid er ed ts db n
    end.
Proof.
  cbn [add_tasks].
  destruct (validate_task_data _ _ _) as [v|e] eqn:Hv; [reflexivity|].
  unfold mbind, exc_bind, Py.bind, catch_class.
  by rewrite (validate_task_data_class _ _ _ _ Hv).
Qed.

(** The inner loop never raises and only appends task rows. *)
Lemma add_tasks_total uid er ed ts : ∀ db n,
  ∃ rows n', add_tasks uid er ed ts db n
             = Ok ({| users := users db; emails := emails db;
                      tasks := tasks db ++ rows |}, n').
Proof.
  induction ts as [|t ts IH]; intros db n.
  - exists [], n. rewrite app_nil_r. by destruct db.
  - rewrite add_tasks_cons.
    destruct (validate_task_data _ _ _) as [v|e]; [|apply IH].
    edestruct IH as (rows & n' & ->).
    unfold add_task; cbn [users emails tasks].
    eexists (_ :: rows), n'. by rewrite <- app_assoc.
Qed.

Lemma update_email_last u es ts (e e' : Email.t) :
  Email.id e = next_id (map Email.id es) → Email.id e' = Email.id e →
  update_email {| users := u; emails := es ++ [e]; tasks := ts |} e'
  = {| users := u; emails := es ++ [e']; tasks := ts |}.
Proof.
  intros He He'. unfold update_email. cbn [users emails tasks]. f_equal.
  rewrite map_app. cbn [map]. rewrite He', Nat.eqb_refl. f_equal.
  rewrite <- (map_id es) at 2. apply map_ext_in. intros x Hx.
  destruct (Nat.eqb_spec (Email.id x) (Email.id e)) as [Heq|]; [|done].
  assert (Email.id x ∈ map Email.id es) as Hin.
  { apply list_elem_of_In, in_map, Hx. }
  apply next_id_fresh in Hin. lia.
Qed.

Lemma process_one_outcome w uid m db pc tc :
  outcome uid m db pc tc (process_one w uid m (db, pc, tc)).
Proof.
  unfold process_one.
  pose proof (find_email_present db (EmailData.gmail_id m) uid) as Hk.
  destruct (find_email db (EmailData.gmail_id m) uid) as [x|].
  { by apply Skipped_present. }
  pose proof (eq_refl (is_valid m)) as Hv. unfold is_valid in Hv at 1.
  destruct (validate_email_content _ _) as [v|e] eqn:Hval.
  2:{ rewrite (validate_email_content_class _ _ _ Hval). simpl.
      by apply Skipped_invalid. }
  unfold add_email. rewrite gmail_id_taken_present. cbn [Email.gmail_id].
  destruct (id_present _ _) eqn:Ht.
  { simpl. by apply Refused. }
  unfold mbind at 1. unfold exc_bind, Py.bind.
  destruct (extract_tasks_total (loads w) (complete w) (EmailData.subject m)
              (EmailData.body m) (EmailData.sender m)) as [l ->].
  unfold mbind at 1. unfold exc_bind, Py.bind.
  edestruct add_tasks_total as (rows & n' & ->).
  unfold mbind, exc_bind, Py.bind. cbn [users emails tasks].
  erewrite update_email_last; [|reflexivity|reflexivity].
  by eapply Inserted.
Qed.

Lemma keys_snoc u es ts e :
  keys {| users := u; emails := es ++ [e]; tasks := ts |}
  = map (λ e, (Email.gmail_id e, Email.user_id e)) es
    ++ [(Email.gmail_id e, Email.user_id e)].
Proof. unfold keys. cbn [emails]. by rewrite map_app. Qed.

Lemma key_present_snoc ks k g uid :
  key_present (ks ++ [k]) g uid
  = key_present ks g uid || (String.eqb (fst k) g && Nat.eqb (snd k) uid).
Proof.
  unfold key_present. rewrite existsb_app. cbn [existsb].
  by rewrite orb_false_r.
Qed.

Lemma process_loop_cons w uid m ms st :
  process_loop w uid (m :: ms) st
  = process_one w uid m st ≫= process_loop w uid ms.
Proof. reflexivity. Qed.

(** A list of messages that are all passed over leaves the session
    as it is. *)
Lemma process_loop_passed_over w uid ms : ∀ db pc tc,
  Forall (passed_over (keys db) uid) ms →
  process_loop w uid ms (db, pc, tc) = Ok (db, pc, tc).
Proof.
  induction ms as [|m ms IH]; intros db pc tc Hall; [done|].
  inversion Hall as [|? ? Hm Hms]; subst.
  rewrite process_loop_cons.
  destruct (process_one_outcome w uid m db pc tc)
    as [Hp|Hp Hv|Hp Hv Ht|e rows tc' Hp Hv Ht Hg Hu Hpr];
    destruct Hm as [Hm|Hm]; try congruence;
    cbn [mbind exc_bind Py.bind]; by apply IH.
Qed.

(** After a loop that did not raise, every message of the list is
    passed over, and keys present before are still present. *)
Lemma process_loop_covers w uid ms : ∀ db pc tc db' pc' tc',
  process_loop w uid ms (db, pc, tc) = Ok (db', pc', tc') →
  (∀ g u, key_present (keys db) g u = true → key_present (keys db') g u = true)
  ∧ Forall (passed_over (keys db') uid) ms.
Proof.
  induction ms as [|m ms IH]; intros db pc tc db' pc' tc' Hl.
  { injection Hl as <- <- <-. by split. }
  rewrite process_loop_cons in Hl. revert Hl.
  destruct (process_one_outcome w uid m db pc tc)
    as [Hp|Hp Hv|Hp Hv Ht|e rows tc1 Hp Hv Ht Hg Hu Hpr];
    cbn [mbind exc_bind Py.bind]; intros Hl; try done.
  - destruct (IH _ _ _ _ _ _ Hl) as [Hmono Hall]. split; [done|].
    constructor; [|done]. left. by apply Hmono.
  - destruct (IH _ _ _ _ _ _ Hl) as [Hmono Hall]. split; [done|].
    constructor; [|done]. by right.
  - destruct (IH _ _ _ _ _ _ Hl) as [Hmono Hall].
    rewrite keys_snoc in Hmono. fold (keys db) in Hmono. split.
    + intros g u Hgu. apply Hmono. rewrite key_present_snoc, Hgu. done.
    + constructor; [|done]. left. apply Hmono.
      rewrite key_present_snoc. cbn [fst snd].
      rewrite Hg, Hu, String.eqb_refl, Nat.eqb_refl. by rewrite orb_true_r.
Qed.

(** Whether the loop raises depends on the keys of the table and on
    the messages only, not on the clock or on what the AI answers. *)
Lemma process_loop_raises w1 w2 uid ms : ∀ db1 pc1 tc1 db2 pc2 tc2 e,
  keys db1 = keys db2 →
  process_loop w1 uid ms (db1, pc1, tc1) = Raise e →
  ∃ e', process_loop w2 uid ms (db2, pc2, tc2) = Raise e'.
Proof.
  induction ms as [|m ms IH]; intros db1 pc1 tc1 db2 pc2 tc2 e Hk Hl; [done|].
  rewrite process_loop_cons in Hl |- *. revert Hl.
  destruct (process_one_outcome w1 uid m db1 pc1 tc1) as [Hp|Hp Hv|Hp Hv Ht|e1 rows1 n1 Hp Hv Ht Hg Hu Hpr];
    destruct (process_one_outcome w2 uid m db2 pc2 tc2)
      as [Hp'|Hp' Hv'|Hp' Hv' Ht'|e2 rows2 n2 Hp' Hv' Ht' Hg' Hu' Hpr'];
    try congruence;
    cbn [mbind exc_bind Py.bind]; intros Hl;
    try (by eauto); try (by eapply IH; [|exact Hl]).
  eapply IH; [|exact Hl]. rewrite !keys_snoc. fold (keys db1) (keys db2).
  congruence.
Qed.

Lemma process_loop_app w uid ms1 ms2 : ∀ st,
  process_loop w uid (ms1 ++ ms2) st
  = process_loop w uid ms1 st ≫= process_loop w uid ms2.
Proof.
  induction ms1 as [|m ms1 IH]; intros st; [done|].
  cbn [app]. rewrite !process_loop_cons.
  destruct (process_one w uid m st) as [st1|e]; [|done].
  cbn [mbind exc_bind Py.bind]. apply IH.
Qed.

Lemma build_unit w : build w = Ok tt ∨ ∃ e, build w = Raise e.
Proof. destruct (build w) as [[]|e]; eauto. Qed.

(** Reading a token attribute never raises. *)
Lemma token_getters_total w (t : UserTokens.t) :
  (∃ v, UserTokens.gmail_access_token (cipher := fernet w)
          (codec := codec w) t = Ok v)
  ∧ (∃ v, UserTokens.gmail_refresh_token (cipher := fernet w)
            (codec := codec w) t = Ok v).
Proof.
  assert (∀ s, ∃ v, Encryption.decrypt_token (cipher := fernet w)
                      (codec := codec w) s = Ok v) as Hd.
  { intros s. unfold Encryption.decrypt_token.
    destruct (String.eqb s ""); [by eexists|].
    destruct (_ ≫= _) as [v|e]; by eexists. }
  unfold UserTokens.gmail_access_token, UserTokens.gmail_refresh_token.
  split; (destruct (UserTokens.present _); [apply Hd|by eexists]).
Qed.

(** The credential is built without [expiry], so it never counts as
    expired: the refresh branch of [_build_service] does not run, the
    user row is not written and nothing is committed.  What is left
    is the construction of the client. *)
Lemma _build_service_spec w (u : User.t) (db : database) :
  _build_service w u db = (build w, db).
Proof.
  unfold _build_service.
  destruct (token_getters_total w (User.tokens u)) as [[a ->] [r ->]].
  reflexivity.
Qed.

(** The request of a connected user: the client is built, the run
    follows, and the answer is 200 with a commit or 500 with a
    rollback. *)
Lemma process_emails_connected w uid db u :
  get_user db uid = Some u → User.gmail_connected u = true →
  process_emails w uid db
  = match (_ ← build w; run w uid db) with
    | Ok (db', pc, tc) =>
        ({| status := 200;
            payload := Processed "Emails processed successfully" pc tc |},
         db')
    | Raise e => ({| status := 500; payload := Error (exn_str e) |}, db)
    end.
Proof.
  intros Hu Hc. unfold process_emails.
  by rewrite Hu, Hc, _build_service_spec.
Qed.

(** The run is the loop on the fetched list once the services are
    built and the fetch has answered. *)
Lemma run_fetched w uid db ms :
  ai_init w = Ok tt →
  get_unprocessed_emails w (max_emails w) = Ok ms →
  run w uid db = process_loop w uid ms (db, O, O).
Proof. intros Ha Hf. unfold run. by rewrite Ha, Hf. Qed.

Lemma process_loop_users w uid ms : ∀ db pc tc db' pc' tc',
  process_loop w uid ms (db, pc, tc) = Ok (db', pc', tc') →
  users db' = users db.
Proof.
  induction ms as [|m ms IH]; intros db pc tc db' pc' tc' Hl.
  { by injection Hl as <- <- <-. }
  rewrite process_loop_cons in Hl. revert Hl.
  destruct (process_one_outcome w uid m db pc tc)
    as [Hp|Hp Hv|Hp Hv Ht|e rows tc1 Hp Hv Ht Hg Hu Hpr];
    cbn [mbind exc_bind Py.bind]; intros Hl; try done;
    by apply IH in Hl.
Qed.

Lemma ingest_users w uid ms db : users (ingest w uid ms db) = users db.
Proof.
  unfold ingest.
  destruct (process_loop w uid ms (db, O, O)) as [[[db' pc] tc]|e] eqn:Hl;
    [|done].
  by apply process_loop_users in Hl.
Qed.

Lemma get_user_users db db' uid :
  users db' = users db → get_user db' uid = get_user db uid.
Proof. unfold get_user. by intros ->. Qed.

Lemma persisted_fetched w uid db ms u :
  get_user db uid = Some u → User.gmail_connected u = true →
  build w = Ok tt → ai_init w = Ok tt →
  get_unprocessed_emails w (max_emails w) = Ok ms →
  persisted w uid db = ingest w uid ms db.
Proof.
  intros Hu Hc Hb Ha Hf. unfold persisted, ingest.
  rewrite (process_emails_connected w uid db u Hu Hc), Hb.
  cbn [mbind exc_bind Py.bind]. rewrite (run_fetched w uid db ms Ha Hf).
  by destruct (process_loop w uid ms (db, O, O)) as [[[db' pc] tc]|e].
Qed.

Lemma ingest_twice w1 w2 uid ms db :
  ingest w2 uid ms (ingest w1 uid ms db) = ingest w1 uid ms db.
Proof.
  unfold ingest at 2 3.
  destruct (process_loop w1 uid ms (db, O, O)) as [[[db1 pc] tc]|e] eqn:Hl.
  - apply process_loop_covers in Hl as [_ Hall].
    unfold ingest. by rewrite (process_loop_passed_over w2 uid ms _ _ _ Hall).
  - unfold ingest.
    destruct (process_loop_raises w1 w2 uid ms db O O db O O e eq_refl Hl)
      as [e' ->]. done.
Qed.

(** C1.  Ingestion is idempotent.  Whatever the clock reads and the
    AI answers in either run, running the loop with its commit twice
    on one fetched list leaves the database the first run left; a
    message whose [(gmail_id, user_id)] pair is stored is passed over
    with the session and both counters unchanged; and the same holds
    for two requests of a user that fetch the same list. *)
Theorem ingestion_idempotent :
  (∀ (w1 w2 : world) (uid : nat) (new_emails : list EmailData.t)
     (db : database),
     ingest w2 uid new_emails (ingest w1 uid new_emails db)
     = ingest w1 uid new_emails db)
  ∧ (∀ (w : world) (uid : nat) (m : EmailData.t) (db : database)
       (pc tc : nat),
       is_Some (find_email db (EmailData.gmail_id m) uid) →
       process_one w uid m (db, pc, tc) = Ok (db, pc, tc))
  ∧ (∀ (w1 w2 : world) (uid : nat) (new_emails : list EmailData.t)
       (db : database),
       build w1 = Ok tt → ai_init w1 = Ok tt →
       get_unprocessed_emails w1 (max_emails w1) = Ok new_emails →
       get_unprocessed_emails w2 (max_emails w2) = Ok new_emails →
       persisted w2 uid (persisted w1 uid db) = persisted w1 uid db).
Proof.
  split; [exact ingest_twice|]. split.
  - intros w uid m db pc tc [x Hx]. unfold process_one. by rewrite Hx.
  - intros w1 w2 uid ms db Hb1 Ha1 Hf1 Hf2.
    destruct (get_user db uid) as [u|] eqn:Hu.
    2:{ unfold persisted, process_emails. rewrite Hu. cbn [snd]. by rewrite Hu. }
    destruct (User.gmail_connected u) eqn:Hc.
    2:{ unfold persisted, process_emails. rewrite Hu, Hc. cbn [snd].
        by rewrite Hu, Hc. }
    rewrite (persisted_fetched w1 uid db ms u Hu Hc Hb1 Ha1 Hf1).
    assert (get_user (ingest w1 uid ms db) uid = Some u) as Hu'.
    { rewrite <- Hu. apply get_user_users, ingest_users. }
    destruct (build_unit w2) as [Hb2|[e Hb2]].
    + destruct (ai_init w2) as [[]|e] eqn:Ha2.
      * rewrite (persisted_fetched w2 uid _ ms u Hu' Hc Hb2 Ha2 Hf2).
        apply ingest_twice.
      * unfold persisted.
        rewrite (process_emails_connected w2 uid _ u Hu' Hc), Hb2.
        unfold run. by rewrite Ha2.
    + unfold persisted.
      by rewrite (process_emails_connected w2 uid _ u Hu' Hc), Hb2.
Qed.

Lemma ingestion_idempotent_witness :
  persisted Sample.env 1 (persisted Sample.env 1 Sample.empty_db)
  = persisted Sample.env 1 Sample.empty_db
  ∧ process_one Sample.env 2 Sample.invoice (Sample.shared, O, O)
    = Ok (Sample.shared, O, O).
Proof.
  destruct ingestion_idempotent as (_ & H2 & H3). split.
  - apply (H3 Sample.env Sample.env 1%nat [Sample.report; Sample.invoice]);
      reflexivity.
  - apply (H2 Sample.env 2%nat Sample.invoice Sample.shared).
    vm_compute. eauto.
Defined.

(** The claimed message-level atomicity fails.  User 1 fetches [m1]
    and [m2] while user 2 owns [m2].  Message [m1] alone would be
    stored; in the run with both, the insert of [m2] is refused, the
    request answers 500 and the database is the one before the run:
    [m1], handled first, is not committed. *)
Lemma message_level_atomicity_fails :
  is_Some (find_email (ingest Sample.env 1 [Sample.report] Sample.shared) "m1" 1)
  ∧ process_loop Sample.env 1 [Sample.report; Sample.invoice]
      (Sample.shared, O, O) = Raise unique_violation
  ∧ process_emails Sample.env 1 Sample.shared
    = ({| status := 500;
          payload := Error "UNIQUE constraint failed: emails.gmail_id" |},
       Sample.shared)
  ∧ find_email (persisted Sample.env 1 Sample.shared) "m1" 1 = None.
Proof. vm_compute. eauto. Qed.

(** C2, amended.  Persistence is atomic per run, not per message: the
    session is committed once, after the loop.  When the insert of a
    message is refused, the request answers 500 with the text of the
    exception and the database is the one before the run, so the
    messages handled earlier in the run are not committed either; a
    run that raises nothing commits every message and task of the
    session together. *)
Theorem run_level_atomicity (w : world) (uid : nat) (db : database)
    (u : User.t) :
  get_user db uid = Some u → User.gmail_connected u = true →
  build w = Ok tt → ai_init w = Ok tt →
  (∀ (ms1 ms2 : list EmailData.t) (m : EmailData.t)
     (st1 : database * nat * nat) (e : exn),
     get_unprocessed_emails w (max_emails w) = Ok (ms1 ++ m :: ms2) →
     process_loop w uid ms1 (db, O, O) = Ok st1 →
     process_one w uid m st1 = Raise e →
     process_emails w uid db
     = ({| status := 500; payload := Error (exn_str e) |}, db))
  ∧ (∀ (ms : list EmailData.t) (db' : database) (pc tc : nat),
       get_unprocessed_emails w (max_emails w) = Ok ms →
       process_loop w uid ms (db, O, O) = Ok (db', pc, tc) →
       process_emails w uid db
       = ({| status := 200;
             payload := Processed "Emails processed successfully" pc tc |},
          db')).
Proof.
  intros Hu Hc Hb Ha.
  rewrite (process_emails_connected w uid db u Hu Hc), Hb.
  cbn [mbind exc_bind Py.bind]. split.
  - intros ms1 ms2 m st1 e Hf Hl1 Hm.
    rewrite (run_fetched w uid db _ Ha Hf).
    rewrite process_loop_app, Hl1. cbn [mbind exc_bind Py.bind].
    rewrite process_loop_cons, Hm. done.
  - intros ms db' pc tc Hf Hl.
    by rewrite (run_fetched w uid db _ Ha Hf), Hl.
Qed.

Lemma run_level_atomicity_witness :
  process_emails Sample.env 1 Sample.shared
  = ({| status := 500;
        payload := Error "UNIQUE constraint failed: emails.gmail_id" |},
     Sample.shared).
Proof.
  destruct (run_level_atomicity Sample.env 1%nat Sample.shared
              Sample.ann eq_refl eq_refl eq_refl eq_refl) as [H _].
  exact (H [Sample.report] [] Sample.invoice _ unique_violation
           eq_refl eq_refl eq_refl).
Defined.

Lemma id_present_spec (db : database) g :
  id_present (keys db) g = true ↔ g ∈ map Email.gmail_id (emails db).
Proof.
  unfold id_present, keys. induction (emails db) as [|e es IH]; cbn [map existsb].
  - split; [done|]. by intros ?%elem_of_nil.
  - cbn [fst]. rewrite orb_true_iff, IH, elem_of_cons, String.eqb_eq.
    split; intros [?|?]; auto.
Qed.

Lemma key_present_spec (db : database) g uid :
  key_present (keys db) g uid = true
  ↔ ∃ e, e ∈ emails db ∧ Email.gmail_id e = g ∧ Email.user_id e = uid.
Proof.
  unfold key_present, keys. induction (emails db) as [|e es IH]; cbn [map existsb].
  - split; [done|]. by intros (? & ?%elem_of_nil & _).
  - cbn [fst snd].
    rewrite orb_true_iff, IH, andb_true_iff, String.eqb_eq, Nat.eqb_eq.
    split.
    + intros [[? ?]|(x & ? & ? & ?)].
      * exists e. split; [left|done].
      * exists x. split; [by right|done].
    + intros (x & [->|?]%elem_of_cons & ? & ?); [by left|right; eauto].
Qed.

Lemma NoDup_map_inj {A B} (f : A → B) (l : list A) x y :
  NoDup (map f l) → x ∈ l → y ∈ l → f x = f y → x = y.
Proof.
  induction l as [|a l IH]; cbn [map]; intros Hnd Hx Hy Hf.
  { by apply elem_of_nil in Hx. }
  apply NoDup_cons in Hnd as [Ha Hnd].
  apply elem_of_cons in Hx as [->|Hx]; apply elem_of_cons in Hy as [->|Hy];
    [done| | |by apply IH].
  - exfalso. apply Ha. rewrite Hf. apply list_elem_of_In, in_map.
    by apply list_elem_of_In.
  - exfalso. apply Ha. rewrite <- Hf. apply list_elem_of_In, in_map.
    by apply list_elem_of_In.
Qed.

Lemma process_loop_unique w uid ms : ∀ db pc tc db' pc' tc',
  process_loop w uid ms (db, pc, tc) = Ok (db', pc', tc') →
  gmail_ids_unique db → gmail_ids_unique db'.
Proof.
  induction ms as [|m ms IH]; intros db pc tc db' pc' tc' Hl Hnd.
  { by injection Hl as <- <- <-. }
  rewrite process_loop_cons in Hl. revert Hl.
  destruct (process_one_outcome w uid m db pc tc)
    as [Hp|Hp Hv|Hp Hv Ht|e rows tc1 Hp Hv Ht Hg Hu Hpr];
    cbn [mbind exc_bind Py.bind]; intros Hl; try done;
    try (by eapply IH; [exact Hl|]).
  eapply IH; [exact Hl|]. unfold gmail_ids_unique. cbn [emails].
  rewrite map_app. cbn [map]. apply NoDup_app. split; [done|]. split.
  - intros g Hin ->%list_elem_of_singleton.
    rewrite Hg in Hin. apply id_present_spec in Hin. congruence.
  - apply NoDup_singleton.
Qed.

Lemma gmail_ids_unique_rows (db : database) (i j : nat) (e1 e2 : Email.t) :
  gmail_ids_unique db →
  emails db !! i = Some e1 → emails db !! j = Some e2 →
  Email.gmail_id e1 = Email.gmail_id e2 → i = j.
Proof.
  unfold gmail_ids_unique. revert i j.
  induction (emails db) as [|e es IH]; intros i j Hnd Hi Hj Hg; [done|].
  cbn [map] in Hnd. apply NoDup_cons in Hnd as [Hnotin Hnd].
  assert (∀ k x, es !! k = Some x → Email.gmail_id x ≠ Email.gmail_id e) as Hne.
  { intros k x Hk Heq. apply Hnotin. rewrite <- Heq.
    apply list_elem_of_In, in_map, list_elem_of_In.
    by eapply list_elem_of_lookup_2. }
  destruct i as [|i], j as [|j]; cbn in Hi, Hj.
  - done.
  - injection Hi as <-. by destruct (Hne _ _ Hj).
  - injection Hj as <-. by destruct (Hne _ _ Hi).
  - f_equal. by apply IH.
Qed.

(** C10.  The [emails] table keeps [gmail_id] unique across all
    users: a request of any user leaves a table without two rows of
    one [gmail_id] in that state, and in such a table rows at two
    positions with one [gmail_id] are one row, whoever owns them.
    The check before the insert looks
    at [(gmail_id, user_id)] only: when another user owns the
    [gmail_id] of a valid fetched message, the check finds nothing,
    and the insert is refused by the unique index. *)
Theorem gmail_id_globally_unique :
  (∀ (w : world) (uid : nat) (db : database),
     gmail_ids_unique db → gmail_ids_unique (persisted w uid db))
  ∧ (∀ (db : database) (i j : nat) (e1 e2 : Email.t),
       gmail_ids_unique db →
       emails db !! i = Some e1 → emails db !! j = Some e2 →
       Email.gmail_id e1 = Email.gmail_id e2 → i = j)
  ∧ (∀ (w : world) (uid : nat) (m : EmailData.t) (db : database)
       (pc tc : nat) (e : Email.t),
       gmail_ids_unique db →
       e ∈ emails db →
       Email.gmail_id e = EmailData.gmail_id m →
       Email.user_id e ≠ uid →
       is_valid m = true →
       find_email db (EmailData.gmail_id m) uid = None
       ∧ process_one w uid m (db, pc, tc) = Raise unique_violation).
Proof.
  split; [|split; [exact gmail_ids_unique_rows|]].
  - intros w uid db Hnd. unfold persisted.
    destruct (get_user db uid) as [u|] eqn:Hu;
      [|by unfold process_emails; rewrite Hu].
    destruct (User.gmail_connected u) eqn:Hc;
      [|by unfold process_emails; rewrite Hu, Hc].
    rewrite (process_emails_connected w uid db u Hu Hc).
    destruct (build w) as [[]|?]; [|done]. cbn [mbind exc_bind Py.bind].
    destruct (run w uid db) as [[[db' pc] tc]|err] eqn:Hr; [|done].
    cbn [snd]. unfold run in Hr.
    destruct (ai_init w) as [[]|?]; [|done].
    destruct (get_unprocessed_emails w (max_emails w)) as [ms|?]; [|done].
    cbn [mbind exc_bind Py.bind] in Hr.
    by eapply process_loop_unique.
  - intros w uid m db pc tc e Hnd He Hg Hu Hv.
    assert (key_present (keys db) (EmailData.gmail_id m) uid = false) as Hk.
    { apply not_true_is_false. intros (x & Hx & Hxg & Hxu)%key_present_spec.
      apply Hu. rewrite <- Hxu. f_equal.
      apply (NoDup_map_inj Email.gmail_id (emails db)); [done..|congruence]. }
    assert (id_present (keys db) (EmailData.gmail_id m) = true) as Ht.
    { apply id_present_spec. rewrite <- Hg.
      apply list_elem_of_In, in_map. by apply list_elem_of_In. }
    split.
    + pose proof (find_email_present db (EmailData.gmail_id m) uid) as Hf.
      rewrite Hk in Hf. by destruct (find_email _ _ _).
    + destruct (process_one_outcome w uid m db pc tc); congruence.
Qed.

Lemma gmail_id_globally_unique_witness :
  gmail_ids_unique (persisted Sample.env 2 Sample.shared)
  ∧ find_email Sample.shared "m2" 1 = None
  ∧ process_one Sample.env 1 Sample.invoice (Sample.shared, O, O)
    = Raise unique_violation.
Proof.
  destruct gmail_id_globally_unique as (H1 & _ & H2). split.
  - apply H1. unfold gmail_ids_unique. cbn. apply NoDup_singleton.
  - apply (H2 Sample.env 1%nat Sample.invoice Sample.shared O O
             (Email.mk 1 2 "m2" None "Invoice 42" "Billing"
                "billing@co.com" "Your invoice is attached."
                "Your invoice" true (Some 1500) 1001)).
    + unfold gmail_ids_unique. cbn. apply NoDup_singleton.
    + cbn. by left.
    + reflexivity.
    + cbn. lia.
    + reflexivity.
Defined.

(** Where an exception of a request can come from: the three
    library calls of the run, or the unique index of [emails]. *)
Lemma run_raises w uid db e :
  run w uid db = Raise e →
  ai_init w = Raise e ∨ list_messages w (max_emails w) = Raise e
  ∨ e = unique_violation.
Proof.
  unfold run, get_unprocessed_emails.
  destruct (ai_init w) as [[]|e1]; [|intros [= ->]; by left].
  destruct (list_messages w (max_emails w)) as [ids|e2];
    [|intros [= ->]; right; by left].
  cbn [mbind exc_bind Py.bind catch].
  generalize (omap (M:=list) (get_email_details w) ids) (db, O, O).
  intros ms. induction ms as [|m ms IH]; intros [[d pc] tc]; [done|].
  rewrite process_loop_cons.
  destruct (process_one_outcome w uid m d pc tc);
    cbn [mbind exc_bind Py.bind]; try apply IH.
  intros [= <-]. by right; right.
Qed.

(** The claimed distinction of failure kinds fails.  User 1 is
    connected and the gate admits the request.  When the message
    listing fails because the refresh token was revoked, the answer is
    not a request to reconnect: it has status 500 and the text of the
    exception, as has the answer to a provider error at the same call
    and the answer to a refused insert.  The three answers differ in
    the exception text alone. *)
Lemma failure_kinds_not_distinguished :
  let revoked :=
    Exn RefreshError "invalid_grant: Token has been expired or revoked." in
  let unavailable :=
    Exn HttpError "<HttpError 503 when requesting https://gmail.googleapis.com/gmail/v1/users/me/messages?q=in%3Ainbox returned 'The service is currently unavailable.'>" in
  let auth := (process_emails_view (Sample.with_listing (Raise revoked))
                 1 ∅ Sample.empty_db).1.1 in
  let provider := (process_emails_view (Sample.with_listing (Raise unavailable))
                     1 ∅ Sample.empty_db).1.1 in
  let insert := (process_emails_view Sample.env 1 ∅ Sample.shared).1.1 in
  auth = {| status := 500; payload := Error (exn_str revoked) |}
  ∧ provider = {| status := 500; payload := Error (exn_str unavailable) |}
  ∧ insert = {| status := 500; payload := Error (exn_str unique_violation) |}
  ∧ payload auth ≠ Error "reconnect required".
Proof. vm_compute. by repeat split. Qed.

(** C9, amended.  A request the rate gate refuses answers 429 with
    the error [Rate limit exceeded], and an admitted request of a user
    who is unknown or has no Gmail connection answers 400 with
    [Gmail not connected]; both leave the database alone.  Every
    exception raised in the run of a connected user, at whatever call
    and of whatever class, is answered with status 500 and the text of
    the exception as the only content, and the database before the
    request.  The request has these four kinds of answer and no other:
    200, 400, 429, and 500 with the text of an exception raised by
    building the client, by the OpenAI client, by the message listing
    or by the unique index. *)
Theorem failures_surfaced (w : world) (uid : nat)
    (c : RateLimiter.clients) (db : database) :
  let gate := RateLimiter.is_allowed c (time w) ("user_" +:+ pretty uid) 5 300 in
  let refused :=
    {| status := 429;
       payload := ErrorMessage "Rate limit exceeded"
                    "Too many requests. Limit: 5 per 300 seconds" |} in
  let unconnected :=
    {| status := 400; payload := Error "Gmail not connected" |} in
  let failed (e : exn) :=
    {| status := 500; payload := Error (exn_str e) |} in
  (gate.1 = false →
     process_emails_view w uid c db = (refused, gate.2, db))
  ∧ (gate.1 = true →
     (∀ u, get_user db uid = Some u → User.gmail_connected u = false) →
     process_emails_view w uid c db = (unconnected, gate.2, db))
  ∧ (∀ (u : User.t) (e : exn),
       gate.1 = true →
       get_user db uid = Some u → User.gmail_connected u = true →
       build w = Raise e ∨ (build w = Ok tt ∧ run w uid db = Raise e) →
       process_emails_view w uid c db = (failed e, gate.2, db))
  ∧ (∀ e : exn,
       ai_init w = Ok tt →
       list_messages w (max_emails w) = Raise e → run w uid db = Raise e)
  ∧ ((process_emails_view w uid c db).1.1 = refused
     ∨ (process_emails_view w uid c db).1.1 = unconnected
     ∨ (∃ pc tc,
          (process_emails_view w uid c db).1.1
          = {| status := 200;
               payload := Processed "Emails processed successfully" pc tc |})
     ∨ (∃ e, (build w = Raise e ∨ ai_init w = Raise e
              ∨ list_messages w (max_emails w) = Raise e
              ∨ e = unique_violation)
             ∧ process_emails_view w uid c db = (failed e, gate.2, db))).
Proof.
  intros gate refused unconnected failed.
  unfold process_emails_view, ratelimit. fold gate.
  destruct gate as [allowed c'] eqn:Hg. cbn [fst snd].
  split; [by intros ->|].
  split.
  { intros -> Hu. unfold process_emails.
    destruct (get_user db uid) as [u|]; [|done]. by rewrite (Hu u). }
  split.
  { intros u e -> Hu Hc Hr.
    rewrite (process_emails_connected w uid db u Hu Hc).
    destruct Hr as [->|[-> Hr]]; [done|].
    cbn [mbind exc_bind Py.bind]. by rewrite Hr. }
  split.
  { intros e Ha Hl. unfold run, get_unprocessed_emails. by rewrite Ha, Hl. }
  destruct allowed; [|by left].
  destruct (get_user db uid) as [u|] eqn:Hu;
    [|right; left; unfold process_emails; by rewrite Hu].
  destruct (User.gmail_connected u) eqn:Hc;
    [|right; left; unfold process_emails; by rewrite Hu, Hc].
  right; right. rewrite (process_emails_connected w uid db u Hu Hc).
  destruct (build w) as [[]|e] eqn:Hb; cbn [mbind exc_bind Py.bind].
  - destruct (run w uid db) as [[[db' pc] tc]|e] eqn:Hr.
    + left. by exists pc, tc.
    + right. exists e. split; [|done].
      destruct (run_raises w uid db e Hr) as [?|[?|?]]; auto.
  - right. exists e. split; [by left|done].
Qed.

Lemma failures_surfaced_witness :
  process_emails_view
    (Sample.with_listing
       (Raise (Exn RefreshError
                 "invalid_grant: Token has been expired or revoked.")))
    1 ∅ Sample.empty_db
  = ({| status := 500;
        payload := Error "invalid_grant: Token has been expired or revoked." |},
     {["user_1" := [0]]}, Sample.empty_db).
Proof.
  pose (e := Exn RefreshError
               "invalid_grant: Token has been expired or revoked.").
  destruct (failures_surfaced (Sample.with_listing (Raise e)) 1%nat ∅
              Sample.empty_db) as (_ & _ & H3 & H4 & _).
  etrans.
  - exact (H3 Sample.ann e eq_refl eq_refl eq_refl
             (or_intror (conj eq_refl (H4 e eq_refl eq_refl)))).
  - reflexivity.
Defined.

End EmailsFacts.

(** ** Validation of task candidates *)

Module ValidatorsFacts.
Import Validators AIService Db Emails StrFacts.

Lemma len_zero (s : string) : Str.len s = 0 ↔ s = "".
Proof. unfold Str.len. destruct s; simpl; split; try done; lia. Qed.




















End ValidatorsFacts.

(** ** Parsing the AI response *)

Module AIServiceFacts.
Import Validators AIService Db Emails StrFacts.

Lemma strip_fenced (body : string) :
  Str.strip ("```json" +:+ body +:+ "```") = "```json" +:+ body +:+ "```".
Proof.
  unfold Str.strip. rewrite app_cons, lstrip_nonspace by reflexivity.
  rewrite <- app_cons.
  change "```" with ("``" +:+ "`").
  rewrite <- !app_assoc. by rewrite rstrip_nonspace.
Qed.

(** A response wrapped in a [```json] ... [```] fence is parsed
    without the fence. *)
Lemma unfence_fenced (text body : string) :
  Str.strip text = "```json" +:+ body +:+ "```" →
  unfence text = Str.strip body.
Proof.
  intros Ht. unfold unfence. rewrite Ht, startswith_app.
  change 7%nat with (String.length "```json"). rewrite drop_app.
  rewrite endswith_app.
  change 3%nat with (String.length "```"). by rewrite drop_last_app.
Qed.

Lemma unfence_leading (text body : string) :
  Str.strip text = "```json" +:+ body →
  Str.endswith "```" body = false →
  unfence text = Str.strip body.
Proof.
  intros Ht He. unfold unfence. rewrite Ht, startswith_app.
  change 7%nat with (String.length "```json"). rewrite drop_app.
  by rewrite He.
Qed.

Lemma unfence_trailing (text body : string) :
  Str.strip text = body +:+ "```" →
  Str.startswith "```json" (Str.strip text) = false →
  unfence text = Str.strip body.
Proof.
  intros Ht Hs. unfold unfence. rewrite Hs, Ht, endswith_app.
  change 3%nat with (String.length "```"). by rewrite drop_last_app.
Qed.

Lemma unfence_plain (text : string) :
  Str.startswith "```json" (Str.strip text) = false →
  Str.endswith "```" (Str.strip text) = false →
  unfence text = Str.strip text.
Proof. intros Hs He. unfold unfence. rewrite Hs, He. apply strip_idem. Qed.

Lemma parse_failure loads (text : string) :
  raises (loads (unfence text)) →
  _parse_ai_response loads (Some text) = Ok [].
Proof.
  unfold _parse_ai_response. cbn [mbind exc_bind Py.bind].
  destruct (loads (unfence text)) as [v|e]; [done|]. intros _.
  cbn [mbind exc_bind Py.bind]. unfold catch_class.
  by destruct (exn_class_eqb (exn_class_of e) JSONDecodeError).
Qed.

(** What the parser returns is settled by what [json.loads] makes of
    the text without its fence. *)
Lemma parse_unfenced loads (text : string) :
  _parse_ai_response loads (Some text)
  = match loads (unfence text) with
    | Ok v => catch (items ← iterate v; clean_tasks items) (λ _, Ok [])
    | Raise _ => Ok []
    end.
Proof.
  unfold _parse_ai_response. cbn [mbind exc_bind Py.bind].
  destruct (loads (unfence text)) as [v|e]; cbn [mbind exc_bind Py.bind].
  - destruct (iterate v) as [items|e]; cbn [mbind exc_bind Py.bind];
      [|by unfold catch_class; destruct (exn_class_eqb _ _)].
    destruct (clean_tasks items) as [ts|e]; [done|].
    by unfold catch_class; destruct (exn_class_eqb _ _).
  - by unfold catch_class; destruct (exn_class_eqb _ _).
Qed.

Lemma parse_list loads (text : string) (items : list json)
    (tasks : list task_data) :
  loads (unfence text) = Ok (JArr items) →
  clean_tasks items = Ok tasks →
  _parse_ai_response loads (Some text) = Ok tasks.
Proof.
  intros Hl Hc. rewrite parse_unfenced, Hl. cbn [iterate].
  cbn [mbind exc_bind Py.bind]. by rewrite Hc.
Qed.

(** A message whose AI answer does not parse is stored, marked as
    processed, with no task. *)
Lemma process_one_parse_failure w uid m db pc tc (text : string) :
  find_email db (EmailData.gmail_id m) uid = None →
  is_valid m = true →
  gmail_id_taken db (EmailData.gmail_id m) = false →
  complete w (_create_task_extraction_prompt (EmailData.subject m)
                (EmailData.body m) (EmailData.sender m)) = Ok (Some text) →
  raises (loads w (unfence text)) →
  ∃ e, process_one w uid m (db, pc, tc)
       = Ok ({| users := users db; emails := emails db ++ [e];
                tasks := tasks db |}, S pc, tc)
       ∧ Email.gmail_id e = EmailData.gmail_id m
       ∧ Email.user_id e = uid
       ∧ Email.processed e = true.
Proof.
  intros Hf Hv Ht Hc Hl. unfold process_one. rewrite Hf.
  unfold is_valid in Hv.
  destruct (validate_email_content _ _) as [v|?]; [|done].
  unfold add_email. cbn [Email.gmail_id]. rewrite Ht.
  cbn [mbind exc_bind Py.bind].
  unfold extract_tasks. rewrite Hc. cbn [mbind exc_bind Py.bind].
  rewrite (parse_failure _ _ Hl).
  cbn [catch add_tasks mbind exc_bind Py.bind].
  erewrite EmailsFacts.update_email_last; [|reflexivity|reflexivity].
  by eexists.
Qed.

(** C8.  Parsing the AI response is total and defensive.  A
    [```json] ... [```] fence around the response, or either half of
    it, is removed before [json.loads] sees the text, and a response
    without a fence is only stripped.  The parser hands [json.loads]
    the text without its fence and nothing else: two responses that
    are equal without their fences are parsed alike; when
    [json.loads] makes a list of the text without its fence, the
    parser returns the cleaned candidates of that list, so it does for
    a fenced response whatever [json.loads] would make of the fenced
    text.  When [json.loads] raises, the parser returns the empty
    list; the parser and [extract_tasks] never raise, whatever the
    response and whatever the API call does.  So a response that does
    not parse does not stop the run: the message is stored with no
    task, the loop goes on with the messages after it, and the only
    exception one turn of the loop can raise is the refusal of an
    insert. *)
Theorem parse_defensive :
  (∀ text body : string,
     Str.strip text = "```json" +:+ body +:+ "```" →
     unfence text = Str.strip body)
  ∧ (∀ text body : string,
       Str.strip text = "```json" +:+ body →
       Str.endswith "```" body = false →
       unfence text = Str.strip body)
  ∧ (∀ text body : string,
       Str.strip text = body +:+ "```" →
       Str.startswith "```json" (Str.strip text) = false →
       unfence text = Str.strip body)
  ∧ (∀ text : string,
       Str.startswith "```json" (Str.strip text) = false →
       Str.endswith "```" (Str.strip text) = false →
       unfence text = Str.strip text)
  ∧ (∀ (loads : string → exc json) (text1 text2 : string),
       unfence text1 = unfence text2 →
       _parse_ai_response loads (Some text1)
       = _parse_ai_response loads (Some text2))
  ∧ (∀ (loads : string → exc json) (text : string) (items : list json)
       (tasks : list task_data),
       loads (unfence text) = Ok (JArr items) →
       clean_tasks items = Ok tasks →
       _parse_ai_response loads (Some text) = Ok tasks)
  ∧ (∀ (loads : string → exc json) (text body : string)
       (items : list json) (tasks : list task_data),
       Str.strip text = "```json" +:+ body +:+ "```" →
       loads (Str.strip body) = Ok (JArr items) →
       clean_tasks items = Ok tasks →
       _parse_ai_response loads (Some text) = Ok tasks)
  ∧ (∀ (loads : string → exc json) (text : string),
       raises (loads (unfence text)) →
       _parse_ai_response loads (Some text) = Ok [])
  ∧ (∀ (loads : string → exc json) (response : option string),
       ∃ tasks, _parse_ai_response loads response = Ok tasks)
  ∧ (∀ (loads : string → exc json) (complete : prompt → exc (option string))
       (subject body sender : string),
       ∃ tasks, extract_tasks loads complete subject body sender = Ok tasks)
  ∧ (∀ (w : world) (uid : nat) (m : EmailData.t) (db : database)
       (pc tc : nat) (text : string),
       find_email db (EmailData.gmail_id m) uid = None →
       is_valid m = true →
       gmail_id_taken db (EmailData.gmail_id m) = false →
       complete w (_create_task_extraction_prompt (EmailData.subject m)
                     (EmailData.body m) (EmailData.sender m))
       = Ok (Some text) →
       raises (loads w (unfence text)) →
       ∃ e, process_one w uid m (db, pc, tc)
            = Ok ({| users := users db; emails := emails db ++ [e];
                     tasks := tasks db |}, S pc, tc)
            ∧ Email.gmail_id e = EmailData.gmail_id m
            ∧ Email.user_id e = uid
            ∧ Email.processed e = true
            ∧ ∀ rest : list EmailData.t,
                process_loop w uid (m :: rest) (db, pc, tc)
                = process_loop w uid rest
                    ({| users := users db; emails := emails db ++ [e];
                        tasks := tasks db |}, S pc, tc))
  ∧ (∀ (w : world) (uid : nat) (m : EmailData.t)
       (st : database * nat * nat) (e : exn),
       process_one w uid m st = Raise e → e = unique_violation).
Proof.
  split; [exact unfence_fenced|].
  split; [exact unfence_leading|].
  split; [exact unfence_trailing|].
  split; [exact unfence_plain|].
  split.
  { intros loads text1 text2 Hu. by rewrite !parse_unfenced, Hu. }
  split; [exact parse_list|].
  split.
  { intros loads text body items tasks Ht Hl Hc.
    apply (parse_list loads text items tasks); [|done].
    by rewrite (unfence_fenced text body Ht). }
  split; [exact parse_failure|].
  split; [exact EmailsFacts.parse_total|].
  split; [exact EmailsFacts.extract_tasks_total|].
  split.
  { intros w uid m db pc tc text Hf Hv Ht Hc Hl.
    destruct (process_one_parse_failure w uid m db pc tc text Hf Hv Ht Hc Hl)
      as (e & Hp & Hg & Hu & Hpr).
    exists e. repeat split; try done.
    intros rest. by rewrite EmailsFacts.process_loop_cons, Hp. }
  intros w uid m [[db pc] tc] e.
  by destruct (EmailsFacts.process_one_outcome w uid m db pc tc);
    intros [= <-].
Qed.

Lemma parse_defensive_witness :
  unfence " ```json CANDIDATES ``` " = "CANDIDATES"
  ∧ unfence " [] " = "[]"
  ∧ _parse_ai_response Sample.loader (Some "Sure! Here are the tasks") = Ok []
  ∧ Sample.loader " ```json CANDIDATES ``` "
    = Raise (Exn JSONDecodeError "Expecting value")
  ∧ _parse_ai_response Sample.loader (Some " ```json CANDIDATES ``` ")
    = Ok [{| description := "Send the Q3 report";
             priority := "Medium"; category := "General" |};
          {| description := Str.replicate (Z.to_nat 5000) "a";
             priority := "High"; category := "Review" |}].
Proof.
  destruct parse_defensive as (H1 & _ & _ & H2 & _ & _ & H3 & H4 & _).
  split; [|split; [|split; [|split]]].
  - exact (H1 " ```json CANDIDATES ``` " " CANDIDATES " eq_refl).
  - exact (H2 " [] " eq_refl eq_refl).
  - apply H4. exact I.
  - reflexivity.
  - exact (H3 Sample.loader " ```json CANDIDATES ``` " " CANDIDATES "
             [JObj [("description", JStr " Send the Q3 report ");
                    ("priority", JStr "Urgent");
                    ("category", JStr "Reports")];
              JObj [("description", JStr "   ");
                    ("priority", JStr "High")];
              JObj [("description",
                     JStr (Str.replicate (Z.to_nat 5000) "a"));
                    ("priority", JStr "High");
                    ("category", JStr "Review")]]
             _ eq_refl eq_refl eq_refl).
Defined.

End AIServiceFacts.

(** ** Body extraction *)

Module GmailServiceFacts.
Import Encryption GmailService.

Section Body.
Variable urlsafe_b64decode : string → exc bytes.
Context `{codec : Codec}.

Local Abbreviation scan_parts := (scan_parts urlsafe_b64decode).
Local Abbreviation text_part := (text_part urlsafe_b64decode).
Local Abbreviation _extract_body := (_extract_body urlsafe_b64decode).
Local Abbreviation extract_body_try := (extract_body_try urlsafe_b64decode).

Lemma eq_str_html_not_plain (mime : json) :
  eq_str mime "text/html" = true → eq_str mime "text/plain" = false.
Proof.
  destruct mime as [|b|n|s|l|f]; try done. cbn [eq_str].
  by intros ->%String.eqb_eq.
Qed.

Lemma scan_parts_passed_by (part : json) (rest : list json) :
  passed_by part → scan_parts (part :: rest) = scan_parts rest.
Proof.
  intros (mime & Hm & [[Hp Hh]|(body & Hb & Hd)]); cbn [GmailService.scan_parts];
    rewrite Hm; cbn [mbind exc_bind Py.bind].
  - by rewrite Hp, Hh.
  - destruct (eq_str mime "text/plain");
      [by rewrite Hb; cbn [mbind exc_bind Py.bind]; rewrite Hd|].
    destruct (eq_str mime "text/html"); [|done].
    by rewrite Hb; cbn [mbind exc_bind Py.bind]; rewrite Hd.
Qed.

Lemma scan_parts_skip (pre rest : list json) :
  Forall passed_by pre → scan_parts (pre ++ rest) = scan_parts rest.
Proof.
  induction 1 as [|part pre Hp _ IH]; [done|].
  cbn [app]. by rewrite scan_parts_passed_by.
Qed.

Lemma scan_parts_plain (part : json) (rest : list json) (text : string) :
  text_part "text/plain" part text →
  scan_parts (part :: rest) = Ok (Some text).
Proof.
  intros (mime & body & data & Hm & He & Hb & Hc & Hd & Ht).
  cbn [GmailService.scan_parts]. rewrite Hm. cbn [mbind exc_bind Py.bind].
  rewrite He, Hb. cbn [mbind exc_bind Py.bind].
  rewrite Hc. cbn [mbind exc_bind Py.bind].
  rewrite Hd. cbn [mbind exc_bind Py.bind]. by rewrite Ht.
Qed.

Lemma scan_parts_html (part : json) (rest : list json) (html : string) :
  text_part "text/html" part html →
  scan_parts (part :: rest) = Ok (Some (Str.strip (strip_tags html))).
Proof.
  intros (mime & body & data & Hm & He & Hb & Hc & Hd & Ht).
  cbn [GmailService.scan_parts]. rewrite Hm. cbn [mbind exc_bind Py.bind].
  rewrite (eq_str_html_not_plain _ He), He, Hb. cbn [mbind exc_bind Py.bind].
  rewrite Hc. cbn [mbind exc_bind Py.bind].
  rewrite Hd. cbn [mbind exc_bind Py.bind]. by rewrite Ht.
Qed.

Lemma extract_body_parts (fields : list (string * json)) (parts : list json) :
  lookup "parts" fields = Some (JArr parts) →
  extract_body_try (JObj fields)
  = (found ← scan_parts parts; Ok (default "" found)).
Proof.
  intros Hl. unfold GmailService.extract_body_try, contains, getitem.
  rewrite Hl. cbn [mbind exc_bind Py.bind].
  by rewrite bool_decide_eq_true_2 by eauto.
Qed.

(** C7, amended.  Body extraction never raises, and gives the empty
    string whenever a step of it does.  For a payload with a list
    of parts it returns the first part, in payload order, that is
    [text/plain] or [text/html] and has [data]: the decoded text for
    a plain part, the decoded text without tags, stripped, for an
    HTML part.  A plain part is thus returned when no HTML part with
    data stands before it; when no part has text to offer the
    result is the empty string. *)
Theorem body_extraction :
  (∀ payload : json, ∃ text, _extract_body payload = Ok text)
  ∧ (∀ payload : json,
       raises (extract_body_try payload) → _extract_body payload = Ok "")
  ∧ (∀ (fields : list (string * json)) (pre post : list json)
       (part : json) (text : string),
       lookup "parts" fields = Some (JArr (pre ++ part :: post)) →
       Forall passed_by pre →
       text_part "text/plain" part text →
       _extract_body (JObj fields) = Ok text)
  ∧ (∀ (fields : list (string * json)) (pre post : list json)
       (part : json) (html : string),
       lookup "parts" fields = Some (JArr (pre ++ part :: post)) →
       Forall passed_by pre →
       text_part "text/html" part html →
       _extract_body (JObj fields) = Ok (Str.strip (strip_tags html)))
  ∧ (∀ (fields : list (string * json)) (parts : list json),
       lookup "parts" fields = Some (JArr parts) →
       Forall passed_by parts →
       _extract_body (JObj fields) = Ok "").
Proof.
  split; [|split; [|split; [|split]]].
  - intros payload. unfold GmailService._extract_body.
    destruct (extract_body_try payload); cbn [catch]; eauto.
  - intros payload. unfold GmailService._extract_body.
    by destruct (extract_body_try payload).
  - intros fields pre post part text Hl Hpre Hpart.
    unfold GmailService._extract_body.
    rewrite (extract_body_parts _ _ Hl), (scan_parts_skip _ _ Hpre).
    by rewrite (scan_parts_plain _ _ _ Hpart).
  - intros fields pre post part html Hl Hpre Hpart.
    unfold GmailService._extract_body.
    rewrite (extract_body_parts _ _ Hl), (scan_parts_skip _ _ Hpre).
    by rewrite (scan_parts_html _ _ _ Hpart).
  - intros fields parts Hl Hall. unfold GmailService._extract_body.
    rewrite (extract_body_parts _ _ Hl).
    rewrite <- (app_nil_r parts), (scan_parts_skip _ _ Hall). done.
Qed.
End Body.

(** The claimed preference for plain text fails.  The payload has a
    plain part, yet the HTML part before it is what comes back. *)
Lemma plain_text_not_preferred :
  @text_part unencoded byte_codec "text/plain"
    (JObj [("mimeType", JStr "text/plain");
           ("body", JObj [("data", JStr "Hello, Bob.")])])
    "Hello, Bob."
  ∧ @_extract_body unencoded byte_codec Sample.html_first = Ok "Hello Bob".
Proof.
  split; [|reflexivity].
  exists (JStr "text/plain"), (JObj [("data", JStr "Hello, Bob.")]),
    (JStr "Hello, Bob."). by repeat split.
Qed.

Lemma body_extraction_witness :
  @_extract_body unencoded byte_codec Sample.html_first = Ok "Hello Bob"
  ∧ @_extract_body unencoded byte_codec (JObj [("parts", JNull)]) = Ok "".
Proof.
  destruct (@body_extraction unencoded byte_codec) as (_ & H2 & _ & H4 & _).
  split.
  - apply (H4 _ [] [JObj [("mimeType", JStr "text/plain");
                          ("body", JObj [("data", JStr "Hello, Bob.")])]]
             (JObj [("mimeType", JStr "text/html");
                    ("body", JObj [("data", JStr "<p>Hello <b>Bob</b></p>")])])
             "<p>Hello <b>Bob</b></p>").
    + reflexivity.
    + constructor.
    + exists (JStr "text/html"),
        (JObj [("data", JStr "<p>Hello <b>Bob</b></p>")]),
        (JStr "<p>Hello <b>Bob</b></p>"). by repeat split.
  - apply H2. exact I.
Defined.

End GmailServiceFacts.

(** ** The rate limiter: bursts and clients *)

Module RateLimiterMore.
Import RateLimiter RateLimiterFacts Http Emails.

Lemma clean_recent (q : list Z) (bound : Z) :
  Forall (λ t, bound ≤ t) q → clean q bound = q.
Proof.
  destruct 1 as [|t q Ht _]; [done|]. cbn [clean].
  by destruct (Z.ltb_spec t bound); [lia|].
Qed.

Lemma gate_steps_burst (limit window lo : Z) (times : list Z) :
  0 ≤ limit →
  Forall (λ t, lo ≤ t ≤ lo + window) times →
  ∀ q : list Z,
    Forall (λ t, lo ≤ t) q →
    (length q ≤ Z.to_nat limit)%nat →
    (gate_steps q limit window times).1
    = replicate (Nat.min (length times) (Z.to_nat limit - length q)) true
      ++ replicate (length times
                    - Nat.min (length times) (Z.to_nat limit - length q)) false.
Proof.
  intros Hlim Htimes. induction Htimes as [|now times Hnow _ IH];
    intros q Hq Hlen; [done|].
  cbn [gate_steps]. unfold gate_step. cbv zeta.
  rewrite clean_recent
    by (eapply Forall_impl; [exact Hq|]; intros; cbn in *; lia).
  destruct (Z.geb_spec (Z.of_nat (length q)) limit) as [Hfull|Hroom].
  - specialize (IH q Hq Hlen).
    destruct (gate_steps q limit window times) as [bs q2]. cbn [fst] in *.
    rewrite IH.
    replace (Z.to_nat limit - length q)%nat with O by lia.
    rewrite !Nat.min_0_r, !Nat.sub_0_r. done.
  - assert (Forall (λ t, lo ≤ t) (q ++ [now])) as Hq'.
    { apply Forall_app. split; [done|]. repeat constructor. lia. }
    assert (length (q ++ [now]) ≤ Z.to_nat limit)%nat as Hlen'.
    { rewrite length_app. cbn. lia. }
    specialize (IH (q ++ [now]) Hq' Hlen').
    destruct (gate_steps (q ++ [now]) limit window times) as [bs q2].
    cbn [fst] in *. rewrite IH, length_app. cbn [length].
    replace (Z.to_nat limit - length q)%nat
      with (S (Z.to_nat limit - (length q + 1)))%nat by lia.
    rewrite <- Nat.succ_min_distr. cbn [replicate app Nat.sub]. done.
Qed.

(** X1.  With a clock that does not run backwards, a call keeps the
    deque of the client time ordered and bounded by the clock reading,
    whether the call is admitted or refused. *)
Theorem gate_keeps_time_order (c : clients) (now : Z) (k : string)
    (limit window : Z) :
  time_ordered (getitem c k) → Forall (λ t, t ≤ now) (getitem c k) →
  time_ordered (getitem (is_allowed c now k limit window).2 k)
  ∧ Forall (λ t, t ≤ now) (getitem (is_allowed c now k limit window).2 k).
Proof. apply is_allowed_time_ordered. Qed.

Lemma gate_keeps_time_order_witness :
  time_ordered
    (getitem (is_allowed ({["user_7" := [0; 10]]} : clients) 20 "user_7" 5 300).2
       "user_7").
Proof.
  apply (gate_keeps_time_order {["user_7" := [0; 10]]} 20 "user_7" 5 300).
  - unfold getitem. rewrite lookup_singleton_eq. cbn.
    repeat constructor; lia.
  - unfold getitem. rewrite lookup_singleton_eq. cbn.
    repeat constructor; lia.
Defined.

(** X2.  A burst is cut at the limit.  For a client with an empty
    deque and a limit that is not negative, of any number of calls
    whose clock readings lie within one window, in any order, the
    first [limit] are admitted and all later ones are refused. *)
Theorem burst_cut_at_limit (c : clients) (key : string)
    (limit window lo : Z) (times : list Z) :
  0 ≤ limit →
  getitem c key = [] →
  Forall (λ t, lo ≤ t ≤ lo + window) times →
  (calls c key limit window times).1
  = replicate (Nat.min (length times) (Z.to_nat limit)) true
    ++ replicate (length times - Z.to_nat limit) false.
Proof.
  intros Hlim Hq Htimes.
  destruct (calls_steps times c key limit window) as [-> _]. rewrite Hq.
  rewrite (gate_steps_burst limit window lo times Hlim Htimes [])
    by (try constructor; cbn; lia).
  cbn [length]. rewrite Nat.sub_0_r. do 2 f_equal. lia.
Qed.

Lemma burst_cut_at_limit_witness :
  (calls (∅ : clients) "user_1" 3 60 [100; 130; 110; 160; 125]).1
  = [true; true; true; false; false].
Proof.
  apply (burst_cut_at_limit ∅ "user_1" 3 60 100 [100; 130; 110; 160; 125]).
  - lia.
  - reflexivity.
  - repeat constructor; lia.
Defined.

Lemma client_id_inj (uid1 uid2 : nat) :
  "user_" +:+ pretty uid1 = "user_" +:+ pretty uid2 → uid1 = uid2.
Proof. intros H. by apply (inj pretty), (inj (String.app "user_")). Qed.

(** X3.  The gate is per user.  A request of one user to
    [POST /process], admitted or refused, leaves the deque of every
    other user as it was, so it cannot use up or free what another user
    is allowed. *)
Theorem gate_is_per_user (w : world) (uid other : nat) (c : clients)
    (db : Db.database) :
  uid ≠ other →
  getitem (process_emails_view w uid c db).1.2 ("user_" +:+ pretty other)
  = getitem c ("user_" +:+ pretty other).
Proof.
  intros Hne. unfold process_emails_view, ratelimit.
  rewrite is_allowed_step.
  assert ("user_" +:+ pretty uid ≠ "user_" +:+ pretty other) as Hk.
  { intros Heq. by apply Hne, client_id_inj. }
  destruct (gate_step _ _ _ _) as [[] q]; cbn [fst snd].
  - destruct (process_emails w uid db). cbn [fst snd].
    by apply getitem_insert_ne.
  - by apply getitem_insert_ne.
Qed.

Lemma gate_is_per_user_witness :
  getitem (process_emails_view Sample.env 1 {["user_2" := [0; 0; 0; 0; 0]]}
             Sample.empty_db).1.2 "user_2"
  = [0; 0; 0; 0; 0].
Proof.
  etrans.
  - apply (gate_is_per_user Sample.env 1%nat 2%nat). lia.
  - reflexivity.
Defined.

End RateLimiterMore.

(** ** The validators: what they accept and what they return *)

Module ValidatorsMore.
Import Validators StrFacts Markup.

Lemma all_app (p : ascii → bool) (s t : string) :
  StrOps.all p (s +:+ t) = StrOps.all p s && StrOps.all p t.
Proof.
  induction s as [|c s IH]; rewrite ?app_cons, ?app_nil; simpl; [done|].
  by rewrite IH, andb_assoc.
Qed.

Lemma all_take (p : ascii → bool) (n : nat) (s : string) :
  StrOps.all p s = true → StrOps.all p (Str.take n s) = true.
Proof.
  revert n. induction s as [|c s IH]; intros [|n]; simpl; try done.
  intros [Hc Hs]%andb_true_iff. by rewrite Hc, IH.
Qed.

Lemma escape_char_markup_free (c : ascii) :
  markup_free (Str.escape_char c) = true.
Proof.
  unfold Str.escape_char.
  destruct (Ascii.eqb c "&") eqn:E1; [done|].
  destruct (Ascii.eqb c "<") eqn:E2; [done|].
  destruct (Ascii.eqb c ">") eqn:E3; [done|].
  destruct (Ascii.eqb c (ascii_of_nat 34)) eqn:E4; [done|].
  destruct (Ascii.eqb c "'") eqn:E5; [done|].
  unfold markup_free, is_markup. simpl. by rewrite E2, E3, E4, E5.
Qed.

Lemma escape_markup_free (s : string) : markup_free (Str.escape s) = true.
Proof.
  induction s as [|c s IH]; [done|]. simpl. unfold markup_free in *.
  rewrite all_app, IH. rewrite andb_true_r. apply escape_char_markup_free.
Qed.

Lemma slice_to_markup_free (n : Z) (s : string) :
  markup_free s = true → markup_free (Str.slice_to n s) = true.
Proof.
  intros H. unfold Str.slice_to, Str.drop_last.
  destruct (0 <=? n); by apply all_take.
Qed.

Lemma escape_nonempty (s : string) : s ≠ "" → Str.escape s ≠ "".
Proof.
  destruct s as [|c s]; [done|]. intros _. simpl. unfold Str.escape_char.
  repeat (destruct (Ascii.eqb c _); [by rewrite app_cons|]).
  by rewrite app_cons.
Qed.

Lemma take_nonempty (n : nat) (s : string) :
  n ≠ O → s ≠ "" → Str.take n s ≠ "".
Proof. by destruct n, s. Qed.

Lemma len_take_le (n : nat) (s : string) : Str.len (Str.take n s) ≤ Z.of_nat n.
Proof. unfold Str.len. rewrite length_take. lia. Qed.

Lemma sanitize_markup_free (text : string) (max_length : option Z) :
  markup_free (sanitize_text text max_length) = true.
Proof.
  unfold sanitize_text. destruct (String.eqb text ""); [done|].
  pose proof (escape_markup_free (Str.strip text)) as He.
  destruct max_length as [n|]; [|done].
  destruct (negb (n =? 0) && (n <? Str.len _)); [|done].
  by apply slice_to_markup_free.
Qed.

Lemma sanitize_cut (text : string) (n : Z) :
  0 < n →
  Str.len (sanitize_text text (Some n)) ≤ n
  ∧ sanitize_text text (Some n)
    = Str.take (Z.to_nat n) (Str.escape (Str.strip text)).
Proof.
  intros Hn. unfold sanitize_text.
  destruct (String.eqb_spec text "") as [->|Hne].
  { split; [unfold Str.len; simpl; lia|]. by destruct (Z.to_nat n). }
  destruct (Z.eqb_spec n 0); [lia|]. cbn [negb andb].
  destruct (Z.ltb_spec n (Str.len (Str.escape (Str.strip text)))) as [Hlt|Hge].
  - unfold Str.slice_to. destruct (Z.leb_spec 0 n); [|lia]. split; [|done].
    pose proof (len_take_le (Z.to_nat n) (Str.escape (Str.strip text))). lia.
  - split; [done|]. symmetry. apply take_all. unfold Str.len in Hge. lia.
Qed.

(** X4.  Sanitized text carries no markup character: whatever the
    text and the cap, the result of [sanitize_text] contains none of
    [<], [>], the double quote and the single quote, also when the cut
    falls inside an escape sequence. *)
Theorem sanitize_text_markup_free (text : string) (max_length : option Z) :
  markup_free (sanitize_text text max_length) = true.
Proof. apply sanitize_markup_free. Qed.

(** X5.  A positive cap bounds the length: for [max_length > 0] the
    result of [sanitize_text] has at most [max_length] characters; it
    is the stripped, escaped text cut to the cap. *)
Theorem sanitize_text_bounded (text : string) (n : Z) :
  0 < n →
  Str.len (sanitize_text text (Some n)) ≤ n
  ∧ sanitize_text text (Some n)
    = Str.take (Z.to_nat n) (Str.escape (Str.strip text)).
Proof. apply sanitize_cut. Qed.

Lemma sanitize_text_bounded_witness :
  Str.len (sanitize_text "  <b>Tom & Jerry</b>  " (Some 12)) ≤ 12
  ∧ sanitize_text "  <b>Tom & Jerry</b>  " (Some 12) = "&lt;b&gt;Tom".
Proof. exact (sanitize_text_bounded "  <b>Tom & Jerry</b>  " 12 eq_refl). Defined.

Lemma strip_nonempty_len (s : string) :
  Str.strip s ≠ "" → s ≠ "" ∧ Str.len (Str.strip s) ≠ 0.
Proof.
  intros H. split; [by intros ->|].
  unfold Str.len. destruct (Str.strip s); [done|simpl; lia].
Qed.

Lemma sanitized_nonempty (d : string) (n : Z) :
  0 < n → Str.strip d ≠ "" → sanitize_text d (Some n) ≠ "".
Proof.
  intros Hn Hd. destruct (sanitize_cut d n Hn) as [_ ->].
  apply take_nonempty; [lia|]. by apply escape_nonempty.
Qed.

(** The three conditions under which [validate_email_content]
    accepts. *)
Lemma validate_email_content_cases (subject body : string) :
  (Str.strip subject ≠ "" ∧ Str.len subject ≤ 500 ∧ Str.len body ≤ 50000
   ∧ validate_email_content subject body
     = Ok {| cleaned_subject := sanitize_text subject (Some 500);
             cleaned_body := if String.eqb body "" then ""
                             else sanitize_text body (Some 50000) |})
  ∨ ((Str.strip subject = "" ∨ 500 < Str.len subject ∨ 50000 < Str.len body)
     ∧ ∃ e, validate_email_content subject body = Raise e
            ∧ exn_class_of e = ValidationError).
Proof.
  unfold validate_email_content.
  destruct (String.eqb_spec subject "") as [->|Hs]; cbn [orb].
  { right. split; [by left|].
    destruct (_ && _); eexists; split; reflexivity. }
  destruct (Z.eqb_spec (Str.len (Str.strip subject)) 0) as [H0|H0].
  { right. split.
    - left. unfold Str.len in H0. destruct (Str.strip subject); [done|].
      simpl in H0. lia.
    - destruct (_ && _); eexists; split; reflexivity. }
  assert (Str.strip subject ≠ "") as Hstrip by (by intros E; rewrite E in H0).
  destruct (Z.ltb_spec 500 (Str.len subject)) as [Hlong|Hshort].
  { right. split; [by right; left|].
    destruct (_ && _); eexists; split; reflexivity. }
  destruct (String.eqb_spec body "") as [->|Hb]; cbn [negb andb app].
  { left. by repeat split. }
  destruct (Z.ltb_spec 50000 (Str.len body)) as [Hbl|Hbs].
  - right. split; [by right; right|]. eexists. split; reflexivity.
  - left. by repeat split.
Qed.

(** X6.  [validate_email_content] accepts exactly the messages with a
    non-blank subject of at most 500 characters and a body of at most
    50000; it raises a [ValidationError] on every other.  What it
    returns is free of markup characters, with a non-empty subject of
    at most 500 characters and a body of at most 50000. *)
Theorem validate_email_content_accepts (subject body : string) :
  ((Str.strip subject ≠ "" ∧ Str.len subject ≤ 500 ∧ Str.len body ≤ 50000)
   ↔ ∃ v, validate_email_content subject body = Ok v)
  ∧ (∀ v, validate_email_content subject body = Ok v →
       cleaned_subject v ≠ ""
       ∧ Str.len (cleaned_subject v) ≤ 500
       ∧ Str.len (cleaned_body v) ≤ 50000
       ∧ markup_free (cleaned_subject v) = true
       ∧ markup_free (cleaned_body v) = true)
  ∧ (∀ e, validate_email_content subject body = Raise e →
       exn_class_of e = ValidationError).
Proof.
  destruct (validate_email_content_cases subject body)
    as [(Hs & Hl & Hb & Hv)|(Hbad & e & Hv & He)]; rewrite Hv.
  - split; [split; eauto|]. split; [|done].
    intros v [= <-]. cbn [cleaned_subject cleaned_body].
    split; [by apply sanitized_nonempty|].
    split; [by apply sanitize_cut|]. split.
    { destruct (String.eqb body ""); [unfold Str.len; simpl; lia|].
      by apply sanitize_cut. }
    split; [apply sanitize_markup_free|].
    destruct (String.eqb body ""); [done|apply sanitize_markup_free].
  - split; [|split; [done|by intros ? [= <-]]].
    split; [|by intros [? ?]].
    intros (Hs & Hl & Hb). destruct Hbad as [?|[?|?]]; [done|lia|lia].
Qed.

Lemma validate_email_content_accepts_witness :
  ∃ v, validate_email_content "Please send the Q3 report by Friday" "" = Ok v.
Proof.
  apply (validate_email_content_accepts "Please send the Q3 report by Friday" "").
  repeat split; [discriminate|vm_compute; discriminate|vm_compute; discriminate].
Defined.

Lemma optional_error (valid : string → bool) (o : option string) :
  (Optional.absent_or valid o
   ∧ truthy o && negb (valid (or_default o "")) = false)
  ∨ (¬ Optional.absent_or valid o
     ∧ truthy o && negb (valid (or_default o "")) = true).
Proof.
  destruct o as [s|]; [|by left]. cbn [truthy or_default Optional.absent_or].
  destruct (String.eqb_spec s "") as [->|Hs]; [left; split; [by left|done]|].
  cbn [negb andb]. destruct (valid s) eqn:Hv.
  - left. split; [by right|done].
  - right. split; [|done]. intros [?|?]; congruence.
Qed.

Lemma or_default_valid (valid : string → bool) (o : option string) (d : string) :
  Optional.absent_or valid o → valid d = true → valid (or_default o d) = true.
Proof.
  destruct o as [s|]; cbn [or_default Optional.absent_or]; [|done].
  destruct (String.eqb_spec s "") as [->|Hs]; [done|]. by intros [?|?].
Qed.

Lemma validate_task_data_cases (d : string) (p c : option string) :
  (Str.strip d ≠ "" ∧ Str.len d ≤ 1000
   ∧ Optional.absent_or validate_priority p
   ∧ Optional.absent_or validate_category c
   ∧ validate_task_data d p c
     = Ok {| description := sanitize_text d (Some 1000);
             priority := or_default p "Medium";
             category := or_default c "General" |})
  ∨ (¬ (Str.strip d ≠ "" ∧ Str.len d ≤ 1000
        ∧ Optional.absent_or validate_priority p
        ∧ Optional.absent_or validate_category c)
     ∧ ∃ e, validate_task_data d p c = Raise e
            ∧ exn_class_of e = ValidationError).
Proof.
  unfold validate_task_data.
  destruct (optional_error validate_priority p) as [[Hp ->]|[Hp ->]];
    destruct (optional_error validate_category c) as [[Hc ->]|[Hc ->]];
    (destruct (String.eqb_spec d "") as [->|Hd]; cbn [orb];
     [right; split; [by intros (? & _)|eexists; split; reflexivity]|]);
    (destruct (Z.eqb_spec (Str.len (Str.strip d)) 0) as [H0|H0];
     [right; split;
        [intros (Hs & _); apply Hs; by apply ValidatorsFacts.len_zero
        |eexists; split; reflexivity]|]);
    (destruct (Z.ltb_spec 1000 (Str.len d)) as [Hl|Hl];
     [right; split; [intros (_ & ? & _); lia|eexists; split; reflexivity]|]);
    cbn [app].
  - left. repeat split; try done. intros E. by rewrite E in H0.
  - right. split; [by intros (_ & _ & _ & ?)|]. eexists; split; reflexivity.
  - right. split; [by intros (_ & _ & ? & _)|]. eexists; split; reflexivity.
  - right. split; [by intros (_ & _ & ? & _)|]. eexists; split; reflexivity.
Qed.

(** X7.  [validate_task_data] accepts exactly the candidates with a
    non-blank description of at most 1000 characters whose priority
    and category are each absent, empty or in the fixed set, and raises
    a [ValidationError] on every other.  What it returns has a
    non-empty description of at most 1000 characters without markup
    characters, and a priority and a category from the fixed sets,
    [Medium] and [General] standing in for absent ones. *)
Theorem validate_task_data_accepts (d : string) (p c : option string) :
  ((Str.strip d ≠ "" ∧ Str.len d ≤ 1000
    ∧ Optional.absent_or validate_priority p
    ∧ Optional.absent_or validate_category c)
   ↔ ∃ v, validate_task_data d p c = Ok v)
  ∧ (∀ v, validate_task_data d p c = Ok v →
       description v ≠ ""
       ∧ Str.len (description v) ≤ 1000
       ∧ markup_free (description v) = true
       ∧ validate_priority (priority v) = true
       ∧ validate_category (category v) = true
       ∧ (p = None → priority v = "Medium")
       ∧ (c = None → category v = "General"))
  ∧ (∀ e, validate_task_data d p c = Raise e →
       exn_class_of e = ValidationError).
Proof.
  destruct (validate_task_data_cases d p c)
    as [(Hd & Hl & Hp & Hc & Hv)|(Hbad & e & Hv & He)]; rewrite Hv.
  - split; [split; eauto|]. split; [|done].
    intros v [= <-]. cbn [description priority category].
    split; [by apply sanitized_nonempty|].
    split; [by apply sanitize_cut|].
    split; [apply sanitize_markup_free|].
    split; [by apply or_default_valid|].
    split; [by apply or_default_valid|].
    split; by intros ->.
  - split; [|split; [done|by intros ? [= <-]]].
    split; [done|by intros [? ?]].
Qed.

Lemma validate_task_data_accepts_witness :
  ∃ v, validate_task_data "Call <Bob>" None (Some "Review") = Ok v.
Proof.
  apply (validate_task_data_accepts "Call <Bob>" None (Some "Review")).
  repeat split; [discriminate|vm_compute; discriminate|by right].
Defined.

End ValidatorsMore.

(** ** What a run adds to the tables *)

Module GrowthFacts.
Import Validators AIService Db Http Emails Rows Growth.
Import EmailsFacts ValidatorsMore.

Lemma next_id_not_in (ids : list nat) : next_id ids ∉ ids.
Proof. intros H%next_id_fresh. lia. Qed.

Lemma validated_content_ok (subject body : string) (v : email_content) :
  validate_email_content subject body = Ok v →
  cleaned_subject v ≠ ""
  ∧ Str.len (cleaned_subject v) ≤ 500
  ∧ Str.len (cleaned_body v) ≤ 50000.
Proof.
  destruct (validate_email_content_cases subject body)
    as [(Hs & Hl & Hb & ->)|(_ & e & -> & _)]; [|done].
  intros [= <-]. cbn [cleaned_subject cleaned_body].
  split; [by apply sanitized_nonempty|].
  split; [by apply sanitize_cut|].
  destruct (String.eqb body ""); [unfold Str.len; simpl; lia|].
  by apply sanitize_cut.
Qed.

Lemma validated_task_ok (d p c : string) (v : task_data) :
  validate_task_data d (Some p) (Some c) = Ok v →
  description v ≠ "" ∧ Str.len (description v) ≤ 1000
  ∧ validate_priority (priority v) = true
  ∧ validate_category (category v) = true.
Proof.
  destruct (validate_task_data_cases d (Some p) (Some c))
    as [(Hd & Hl & Hp & Hc & ->)|(_ & e & -> & _)]; [|done].
  intros [= <-]. cbn [description priority category].
  split; [by apply sanitized_nonempty|].
  split; [by apply sanitize_cut|].
  split.
  - by apply (or_default_valid validate_priority (Some p) "Medium").
  - by apply (or_default_valid validate_category (Some c) "General").
Qed.

(** The inner loop appends validated rows with fresh primary keys and
    counts them. *)
Lemma add_tasks_rows uid er ed ts : ∀ db n,
  ∃ rows,
    add_tasks uid er ed ts db n
    = Ok ({| users := users db; emails := emails db;
             tasks := tasks db ++ rows |}, (n + length rows)%nat)
    ∧ Forall (task_fields_ok uid (Email.id er)) rows
    ∧ (NoDup (map Task.id (tasks db)) →
       NoDup (map Task.id (tasks db ++ rows))).
Proof.
  induction ts as [|t ts IH]; intros db n.
  { exists []. rewrite app_nil_r, Nat.add_0_r. by destruct db. }
  rewrite add_tasks_cons.
  destruct (validate_task_data _ _ _) as [v|e] eqn:Hv; [|apply IH].
  edestruct IH as (rows & -> & Hrows & Hnd).
  unfold add_task in *. cbn [users emails tasks] in *.
  eexists (_ :: rows). rewrite <- app_assoc. cbn [app length].
  split; [by rewrite Nat.add_succ_r|]. split.
  - constructor; [|done].
    destruct (validated_task_ok _ _ _ _ Hv) as (? & ? & ? & ?).
    by repeat split.
  - intros Hids. rewrite <- app_assoc in Hnd.
    apply Hnd. rewrite map_app. cbn [map Task.id].
    apply NoDup_app. split; [done|]. split; [|apply NoDup_singleton].
    intros x Hx ->%list_elem_of_singleton. by apply next_id_not_in in Hx.
Qed.

Lemma task_row_ok_weaken uid (es1 es2 es3 : list Email.t) (t : Task.t) :
  task_row_ok uid es2 t → task_row_ok uid (es1 ++ es2 ++ es3) t.
Proof.
  intros (? & ? & ? & ? & ? & ? & ? & e & He & ? & ?).
  repeat split; try done. exists e. split; [|done].
  apply elem_of_app. right. apply elem_of_app. by left.
Qed.

Lemma task_row_ok_l uid (es es' : list Email.t) (t : Task.t) :
  task_row_ok uid es t → task_row_ok uid (es ++ es') t.
Proof. apply (task_row_ok_weaken uid [] es es'). Qed.

Lemma task_row_ok_r uid (es es' : list Email.t) (t : Task.t) :
  task_row_ok uid es t → task_row_ok uid (es' ++ es) t.
Proof.
  intros H. apply (task_row_ok_weaken uid es' es []) in H.
  by rewrite app_nil_r in H.
Qed.

Lemma grows_refl w uid db : grows w uid db db [] [].
Proof. unfold grows. by rewrite !app_nil_r. Qed.

Lemma grows_trans w uid db db1 db2 es1 rows1 es2 rows2 :
  grows w uid db db1 es1 rows1 → grows w uid db1 db2 es2 rows2 →
  grows w uid db db2 (es1 ++ es2) (rows1 ++ rows2).
Proof.
  intros (Hu1 & He1 & Ht1 & Hes1 & Hr1) (Hu2 & He2 & Ht2 & Hes2 & Hr2).
  unfold grows. rewrite Hu2, He2, Ht2, Hu1, He1, Ht1, <- !app_assoc.
  repeat split; try done.
  - by apply Forall_app.
  - apply Forall_app. split.
    + eapply Forall_impl; [exact Hr1|]. intros t Ht. by apply task_row_ok_l.
    + eapply Forall_impl; [exact Hr2|]. intros t Ht. by apply task_row_ok_r.
Qed.

(** One turn of the outer loop, when it does not raise: the rows it
    appends, the counters, the primary keys. *)
Lemma process_one_grows w uid m db pc tc db' pc' tc' :
  process_one w uid m (db, pc, tc) = Ok (db', pc', tc') →
  ∃ es rows,
    grows w uid db db' es rows
    ∧ pc' = (pc + length es)%nat ∧ tc' = (tc + length rows)%nat
    ∧ (ids_unique db → ids_unique db')
    ∧ Forall (λ e, Email.gmail_id e = EmailData.gmail_id m) es.
Proof.
  unfold process_one.
  destruct (find_email db (EmailData.gmail_id m) uid) as [x|].
  { intros [= <- <- <-]. exists [], [].
    split; [apply grows_refl|]. cbn. by rewrite !Nat.add_0_r. }
  destruct (validate_email_content _ _) as [v|e] eqn:Hval.
  2:{ rewrite (validate_email_content_class _ _ _ Hval). simpl.
      intros [= <- <- <-]. exists [], [].
      split; [apply grows_refl|]. cbn. by rewrite !Nat.add_0_r. }
  unfold add_email. cbn [Email.gmail_id].
  destruct (gmail_id_taken db (EmailData.gmail_id m));
    [cbn [mbind exc_bind Py.bind]; discriminate|].
  unfold mbind at 1. unfold exc_bind, Py.bind.
  destruct (extract_tasks_total (loads w) (complete w) (EmailData.subject m)
              (EmailData.body m) (EmailData.sender m)) as [l ->].
  unfold mbind at 1. unfold exc_bind, Py.bind.
  edestruct add_tasks_rows as (rows & -> & Hrows & Hnd).
  unfold mbind, exc_bind, Py.bind. cbn [users emails tasks] in *.
  erewrite update_email_last; [|reflexivity|reflexivity].
  intros [= Hdb Hpc Htc]. subst db' pc' tc'. eexists [_], rows.
  destruct (validated_content_ok _ _ _ Hval) as (Hs & Hsl & Hbl).
  split; [|split; [cbn; lia|split; [done|split]]].
  - unfold grows. cbn [users emails tasks]. repeat split; try done.
    + constructor; [|done]. unfold email_row_ok, Email.mark_processed.
      cbn [Email.user_id Email.processed Email.processed_at Email.subject
           Email.body Email.sender Email.sender_email Email.snippet].
      repeat split; try done;
        [apply (len_take_le 255)|apply (len_take_le 255)
        |apply (len_take_le 500)].
    + eapply Forall_impl; [exact Hrows|].
      intros t (? & Heid & ? & ? & ? & ? & ? & ?). repeat split; try done.
      eexists. split; [by left|]. by split.
  - intros [Hie Hit]. split; cbn [emails tasks]; [|by apply Hnd].
    rewrite map_app. cbn [map Email.id Email.mark_processed].
    apply NoDup_app. split; [done|]. split; [|apply NoDup_singleton].
    intros x Hx ->%list_elem_of_singleton. by apply next_id_not_in in Hx.
  - by constructor.
Qed.

Lemma process_loop_grows w uid ms : ∀ db pc tc db' pc' tc',
  process_loop w uid ms (db, pc, tc) = Ok (db', pc', tc') →
  ∃ es rows,
    grows w uid db db' es rows
    ∧ pc' = (pc + length es)%nat ∧ tc' = (tc + length rows)%nat
    ∧ (ids_unique db → ids_unique db')
    ∧ Forall (λ e, ∃ m, m ∈ ms ∧ Email.gmail_id e = EmailData.gmail_id m) es.
Proof.
  induction ms as [|m ms IH]; intros db pc tc db' pc' tc' Hl.
  { injection Hl as <- <- <-. exists [], [].
    split; [apply grows_refl|]. cbn. by rewrite !Nat.add_0_r. }
  rewrite process_loop_cons in Hl.
  destruct (process_one w uid m (db, pc, tc)) as [[[db1 pc1] tc1]|e] eqn:H1;
    [|done].
  cbn [mbind exc_bind Py.bind] in Hl.
  apply process_one_grows in H1 as (es1 & rows1 & Hg1 & -> & -> & Hid1 & Hm1).
  apply IH in Hl as (es2 & rows2 & Hg2 & -> & -> & Hid2 & Hm2).
  exists (es1 ++ es2), (rows1 ++ rows2).
  split; [by eapply grows_trans|]. rewrite !length_app.
  split; [lia|]. split; [lia|]. split; [auto|].
  apply Forall_app. split.
  - eapply Forall_impl; [exact Hm1|]. intros e He. exists m. split; [by left|done].
  - eapply Forall_impl; [exact Hm2|]. intros e (m' & ? & ?).
    exists m'. split; [by right|done].
Qed.

(** A request, whatever its answer: the rows it commits, the counts
    it reports, the primary keys. *)
Lemma request_grows w uid db :
  ∃ es rows,
    grows w uid db (persisted w uid db) es rows
    ∧ (∀ msg pc tc,
         payload (process_emails w uid db).1 = Processed msg pc tc →
         pc = length es ∧ tc = length rows)
    ∧ (ids_unique db → ids_unique (persisted w uid db))
    ∧ (∀ ms, get_unprocessed_emails w (max_emails w) = Ok ms →
         Forall (λ e, ∃ m, m ∈ ms ∧ Email.gmail_id e = EmailData.gmail_id m) es).
Proof.
  unfold persisted.
  assert (∀ (code : nat) (error : string),
    ∃ es rows,
      grows w uid db db es rows
      ∧ (∀ msg pc tc, payload {| status := code; payload := Error error |}
                      = Processed msg pc tc →
           pc = length es ∧ tc = length rows)
      ∧ (ids_unique db → ids_unique db)
      ∧ (∀ ms, get_unprocessed_emails w (max_emails w) = Ok ms →
           Forall (λ e, ∃ m, m ∈ ms ∧ Email.gmail_id e = EmailData.gmail_id m)
             es)) as Hsame.
  { intros code error. exists [], [].
    split; [apply grows_refl|]. split; [by intros ? ? ? [=]|].
    split; [done|]. intros; constructor. }
  destruct (get_user db uid) as [u|] eqn:Hu;
    [|unfold process_emails; rewrite Hu; apply Hsame].
  destruct (User.gmail_connected u) eqn:Hc;
    [|unfold process_emails; rewrite Hu, Hc; apply Hsame].
  rewrite (process_emails_connected w uid db u Hu Hc).
  destruct (build w) as [[]|?]; [|apply Hsame].
  cbn [mbind exc_bind Py.bind].
  destruct (run w uid db) as [[[db' pc] tc]|e] eqn:Hr; [|apply Hsame].
  unfold run in Hr.
  destruct (ai_init w) as [[]|?]; [|done].
  destruct (get_unprocessed_emails w (max_emails w)) as [ms|?]; [|done].
  cbn [mbind exc_bind Py.bind] in Hr.
  apply process_loop_grows in Hr as (es & rows & Hg & -> & -> & Hid & Hm).
  exists es, rows. cbn [fst snd payload]. split; [done|].
  split; [by intros ? ? ? [= _ <- <-]|]. split; [done|].
  by intros ? [= <-].
Qed.

(** X8.  The counts a request reports are the rows it commits: when
    the answer carries [emails_processed] and [tasks_created], the
    [emails] table has grown by the first and the [tasks] table by the
    second. *)
Theorem reported_counts_match (w : world) (uid : nat) (db : database)
    (msg : string) (pc tc : nat) :
  payload (process_emails w uid db).1 = Processed msg pc tc →
  length (emails (persisted w uid db)) = (length (emails db) + pc)%nat
  ∧ length (tasks (persisted w uid db)) = (length (tasks db) + tc)%nat.
Proof.
  intros Hp.
  destruct (request_grows w uid db)
    as (es & rows & (_ & He & Ht & _) & Hc & _).
  destruct (Hc _ _ _ Hp) as [-> ->]. by rewrite He, Ht, !length_app.
Qed.

Lemma reported_counts_match_witness :
  length (emails (persisted Sample.env 1 Sample.empty_db)) = 2%nat
  ∧ length (tasks (persisted Sample.env 1 Sample.empty_db)) = 2%nat.
Proof.
  exact (reported_counts_match Sample.env 1%nat Sample.empty_db
           "Emails processed successfully" 2%nat 2%nat eq_refl).
Defined.

(** X9.  A request only appends.  Whatever its answer, the rows of
    [emails] and [tasks] stored before the request are all still
    there, unchanged and in place, at the front of the tables, and the
    [users] table is as before, token columns, expiry and [updated_at]
    included.  The one place that writes to a user row and commits is
    the refresh branch of [_build_service]; the credential is built
    without [expiry], so that branch does not run, whatever the row
    holds and whatever the clocks read: building the service comes
    down to building the client and leaves the database alone. *)
Theorem request_only_appends (w : world) (uid : nat) (db : database) :
  users (persisted w uid db) = users db
  ∧ emails db `prefix_of` emails (persisted w uid db)
  ∧ tasks db `prefix_of` tasks (persisted w uid db)
  ∧ ∀ u : User.t, _build_service w u db = (build w, db).
Proof.
  destruct (request_grows w uid db)
    as (es & rows & (Hu & He & Ht & _) & _).
  split; [done|]. split; [by exists es|]. split; [by exists rows|].
  intros u. apply _build_service_spec.
Qed.

(** X10.  Every email row a request adds belongs to the requesting
    user, is marked as processed at the clock reading taken for its own
    message, has a
    non-empty subject of at most 500 characters, a body of at most
    50000, sender fields of at most 255 and a snippet of at most 500,
    and carries the [gmail_id] of one of the fetched messages. *)
Theorem added_emails_well_formed (w : world) (uid : nat) (db : database)
    (ms : list EmailData.t) (e : Email.t) :
  get_unprocessed_emails w (max_emails w) = Ok ms →
  e ∈ emails (persisted w uid db) →
  e ∈ emails db
  ∨ (email_row_ok w uid e
     ∧ ∃ m, m ∈ ms ∧ Email.gmail_id e = EmailData.gmail_id m).
Proof.
  intros Hf He.
  destruct (request_grows w uid db)
    as (es & rows & (_ & Hes & _ & Hok & _) & _ & _ & Hm).
  rewrite Hes in He. apply elem_of_app in He as [?|He]; [by left|right].
  split.
  - by eapply (proj1 (Forall_forall _ _)) in Hok.
  - by eapply (proj1 (Forall_forall _ _)) in He; [|exact (Hm ms Hf)].
Qed.

Lemma added_emails_well_formed_witness :
  Forall (λ e, e ∈ emails Sample.empty_db
               ∨ (email_row_ok Sample.env 1 e
                  ∧ ∃ m, m ∈ [Sample.report; Sample.invoice]
                         ∧ Email.gmail_id e = EmailData.gmail_id m))
    (emails (persisted Sample.env 1 Sample.empty_db))
  ∧ map Email.processed_at (emails (persisted Sample.env 1 Sample.empty_db))
    = [Some 2000; Some 2003].
Proof.
  split; [|reflexivity].
  apply Forall_forall. intros e.
  exact (added_emails_well_formed Sample.env 1%nat Sample.empty_db
           [Sample.report; Sample.invoice] e eq_refl).
Defined.

(** X11.  Every task row a request adds belongs to the requesting
    user, is open, has a priority and a category from the fixed sets
    and a non-empty description of at most 1000 characters, and refers
    to an email row added by the same request for the same user. *)
Theorem added_tasks_well_formed (w : world) (uid : nat) (db : database)
    (t : Task.t) :
  t ∈ tasks (persisted w uid db) →
  t ∈ tasks db
  ∨ ∃ es, emails (persisted w uid db) = emails db ++ es
          ∧ task_row_ok uid es t.
Proof.
  intros Ht.
  destruct (request_grows w uid db)
    as (es & rows & (_ & Hes & Hrows & _ & Hok) & _).
  rewrite Hrows in Ht. apply elem_of_app in Ht as [?|Ht]; [by left|right].
  exists es. split; [done|].
  by eapply (proj1 (Forall_forall _ _)) in Hok.
Qed.

Lemma added_tasks_well_formed_witness :
  Forall (λ t, t ∈ tasks Sample.empty_db
               ∨ ∃ es, emails (persisted Sample.env 1 Sample.empty_db)
                       = emails Sample.empty_db ++ es
                       ∧ task_row_ok 1 es t)
    (tasks (persisted Sample.env 1 Sample.empty_db)).
Proof.
  apply Forall_forall. intros t.
  exact (added_tasks_well_formed Sample.env 1%nat Sample.empty_db t).
Defined.

(** X12.  Primary keys stay distinct: a request on tables whose
    primary keys are distinct leaves tables whose primary keys are
    distinct. *)
Theorem primary_keys_stay_unique (w : world) (uid : nat) (db : database) :
  ids_unique db → ids_unique (persisted w uid db).
Proof.
  destruct (request_grows w uid db) as (es & rows & _ & _ & Hid & _).
  exact Hid.
Qed.

Lemma primary_keys_stay_unique_witness :
  ids_unique (persisted Sample.env 2 Sample.shared).
Proof.
  apply (primary_keys_stay_unique Sample.env 2%nat Sample.shared).
  split; cbn; [apply NoDup_singleton|apply NoDup_nil_2].
Defined.

(** X13.  After a request answered with 200, every fetched message
    with valid content is in the [emails] table under the requesting
    user, whether this request stored it or an earlier one did. *)
Theorem fetched_messages_stored (w : world) (uid : nat) (db : database)
    (ms : list EmailData.t) (m : EmailData.t) :
  status (process_emails w uid db).1 = 200%nat →
  get_unprocessed_emails w (max_emails w) = Ok ms →
  m ∈ ms → is_valid m = true →
  is_Some (find_email (persisted w uid db) (EmailData.gmail_id m) uid).
Proof.
  unfold persisted. intros Hs Hf Hm Hv. revert Hs.
  destruct (get_user db uid) as [u|] eqn:Hu;
    [|by unfold process_emails; rewrite Hu].
  destruct (User.gmail_connected u) eqn:Hc;
    [|by unfold process_emails; rewrite Hu, Hc].
  rewrite (process_emails_connected w uid db u Hu Hc).
  destruct (build w) as [[]|?]; [|done]. cbn [mbind exc_bind Py.bind].
  destruct (run w uid db) as [[[db' pc] tc]|e] eqn:Hr; [|done].
  intros _. cbn [snd]. unfold run in Hr.
  destruct (ai_init w) as [[]|?]; [|done].
  rewrite Hf in Hr. cbn [mbind exc_bind Py.bind] in Hr.
  apply process_loop_covers in Hr as [_ Hall].
  eapply (proj1 (Forall_forall _ _)) in Hall; [|exact Hm].
  destruct Hall as [Hk|?]; [|congruence].
  rewrite find_email_present in Hk.
  destruct (find_email db' (EmailData.gmail_id m) uid); [eauto|done].
Qed.

Lemma fetched_messages_stored_witness :
  is_Some (find_email (persisted Sample.env 1 Sample.empty_db) "m2" 1).
Proof.
  apply (fetched_messages_stored Sample.env 1%nat Sample.empty_db
           [Sample.report; Sample.invoice] Sample.invoice);
    [reflexivity|reflexivity|by right; left|reflexivity].
Defined.

Lemma find_app_none {A} (p : A → bool) (l1 l2 : list A) :
  find p l1 = None → find p (l1 ++ l2) = find p l2.
Proof.
  induction l1 as [|x l1 IH]; [done|]. cbn [app find].
  destruct (p x); [done|exact IH].
Qed.

Lemma find_app_some {A} (p : A → bool) (l1 l2 : list A) x :
  find p l1 = Some x → find p (l1 ++ l2) = Some x.
Proof.
  induction l1 as [|y l1 IH]; [done|]. cbn [app find].
  destruct (p y); [done|exact IH].
Qed.

Lemma find_none_weaken {A} (p q : A → bool) (l : list A) :
  (∀ x, q x = true → p x = true) → existsb p l = false → find q l = None.
Proof.
  intros Hpq. induction l as [|x l IH]; [done|]. cbn [existsb find].
  intros [Hx Hl]%orb_false_iff. destruct (q x) eqn:Hq.
  - apply Hpq in Hq. congruence.
  - by apply IH.
Qed.

(** X14.  Insert, then look up.  When the insert of an email row
    succeeds, looking the row up by its [gmail_id] and user finds it,
    and the lookup of every other [gmail_id] answers as before the
    insert. *)
Theorem insert_then_lookup (db db' : database) (row : nat → Email.t)
    (e : Email.t) :
  add_email db row = Ok (db', e) →
  find_email db' (Email.gmail_id e) (Email.user_id e) = Some e
  ∧ ∀ g uid, g ≠ Email.gmail_id e →
      find_email db' g uid = find_email db g uid.
Proof.
  unfold add_email.
  destruct (gmail_id_taken db _) eqn:Ht; [done|].
  intros [= <- <-]. unfold find_email. cbn [emails]. split.
  - rewrite find_app_none.
    + cbn [find]. by rewrite String.eqb_refl, Nat.eqb_refl.
    + eapply find_none_weaken; [|exact Ht]. cbn.
      by intros x [? _]%andb_true_iff.
  - intros g uid Hg.
    destruct (find _ (emails db)) as [x|] eqn:Hf.
    + by apply find_app_some.
    + rewrite find_app_none by done. cbn [find].
      destruct (String.eqb_spec
                  (Email.gmail_id (row (next_id (map Email.id (emails db))))) g);
        [congruence|done].
Qed.

Lemma insert_then_lookup_witness :
  ∃ db' e,
    add_email Sample.shared
      (λ i, Email.mk i 1 "m9" None "Hello" "Ann" "ann@co.com" "" "" false None 7)
    = Ok (db', e)
    ∧ find_email db' "m9" 1 = Some e
    ∧ find_email db' "m2" 2 = find_email Sample.shared "m2" 2.
Proof.
  eexists _, _. split; [reflexivity|].
  destruct (insert_then_lookup Sample.shared _
              (λ i, Email.mk i 1 "m9" None "Hello" "Ann" "ann@co.com" "" ""
                      false None 7) _ eq_refl) as [H1 H2].
  split; [exact H1|]. apply H2. discriminate.
Defined.

End GrowthFacts.

(** ** The parser on malformed answers; the keyword heuristics *)

Module AIServiceMore.
Import Validators AIService AIHeuristics.

Lemma clean_tasks_cons (task : json) (rest : list json) :
  clean_tasks (task :: rest)
  = match clean_task task with
    | Raise e => Raise e
    | Ok r =>
        match clean_tasks rest with
        | Raise e => Raise e
        | Ok valid_tasks =>
            Ok (match r with Some t => t :: valid_tasks | None => valid_tasks end)
        end
    end.
Proof.
  cbn [clean_tasks]. destruct (clean_task task); [|done].
  cbn [mbind exc_bind Py.bind]. by destruct (clean_tasks rest).
Qed.

Lemma clean_tasks_strings (items : list json) :
  Forall (λ x, ∃ s, x = JStr s) items → clean_tasks items = Ok [].
Proof.
  induction 1 as [|x items [s ->] _ IH]; [done|].
  by rewrite clean_tasks_cons, IH.
Qed.

Lemma chars_strings (s : string) : Forall (λ x, ∃ c, x = JStr c) (chars s).
Proof. induction s; constructor; eauto. Qed.

Lemma clean_tasks_raises (items : list json) (x : json) (e : exn) :
  x ∈ items → clean_task x = Raise e → ∃ e', clean_tasks items = Raise e'.
Proof.
  induction 1 as [x items|x y items _ IH]; intros Hx;
    rewrite clean_tasks_cons.
  - rewrite Hx. eauto.
  - destruct (clean_task y); [|eauto].
    destruct (IH Hx) as [e' ->]. eauto.
Qed.

Lemma parse_raise loads (text : string) (v : json) (e : exn) :
  loads (unfence text) = Ok v →
  (items ← iterate v; clean_tasks items) = Raise e →
  _parse_ai_response loads (Some text) = Ok [].
Proof.
  intros Hl He. unfold _parse_ai_response.
  cbn [mbind exc_bind Py.bind]. rewrite Hl. cbn [mbind exc_bind Py.bind] in *.
  rewrite He. unfold catch_class.
  by destruct (exn_class_eqb (exn_class_of e) JSONDecodeError).
Qed.

(** X15.  All or nothing.  When the answer parses as JSON but is not
    a list (an object wrapping the list, a string, a number, [null]),
    the parser returns no task.  When it is a list and one element is
    an object whose [description] is not a string, the parser returns
    no task either: the well-formed candidates of that answer are lost
    with it. *)
Theorem parse_all_or_nothing (loads : string → exc json) (text : string) :
  (∀ v : json,
     loads (unfence text) = Ok v →
     (∀ items, v ≠ JArr items) →
     _parse_ai_response loads (Some text) = Ok [])
  ∧ (∀ (items : list json) (fields : list (string * json)) (d : json),
       loads (unfence text) = Ok (JArr items) →
       JObj fields ∈ items →
       lookup "description" fields = Some d →
       (∀ s, d ≠ JStr s) →
       _parse_ai_response loads (Some text) = Ok []).
Proof.
  split.
  - intros v Hl Hv. destruct v as [|b|n|s|items|fields].
    + by eapply parse_raise.
    + by eapply parse_raise.
    + by eapply parse_raise.
    + unfold _parse_ai_response. cbn [mbind exc_bind Py.bind]. rewrite Hl.
      cbn [mbind exc_bind Py.bind iterate].
      by rewrite (clean_tasks_strings _ (chars_strings s)).
    + by destruct (Hv items).
    + unfold _parse_ai_response. cbn [mbind exc_bind Py.bind]. rewrite Hl.
      cbn [mbind exc_bind Py.bind iterate].
      rewrite clean_tasks_strings; [done|]. clear Hl Hv.
      induction fields as [|[k v] fields IH]; cbn [map fst]; constructor; eauto.
  - intros items fields d Hl Hin Hd Hns.
    assert (∃ e, clean_task (JObj fields) = Raise e) as [e He].
    { unfold clean_task. rewrite Hd.
      destruct d as [|b|n|s|l|f]; try (by eexists). by destruct (Hns s). }
    destruct (clean_tasks_raises items _ e Hin He) as [e' He'].
    by eapply parse_raise.
Qed.

Lemma parse_all_or_nothing_witness :
  _parse_ai_response
    (λ _, Ok (JObj [("tasks", JArr [JObj [("description", JStr "Call Bob")]])]))
    (Some "{...}") = Ok []
  ∧ _parse_ai_response
      (λ _, Ok (JArr [JObj [("description", JStr "Call Bob")];
                      JObj [("description", JNull)]]))
      (Some "[...]") = Ok [].
Proof.
  split.
  - apply (proj1 (parse_all_or_nothing _ "{...}")
             (JObj [("tasks", JArr [JObj [("description", JStr "Call Bob")]])]));
      [reflexivity|done].
  - apply (proj2 (parse_all_or_nothing _ "[...]")
             [JObj [("description", JStr "Call Bob")];
              JObj [("description", JNull)]]
             [("description", JNull)] JNull); [reflexivity| |reflexivity|done].
    by right; left.
Defined.

Lemma lower_char_idem (c : ascii) :
  StrOps.lower_char (StrOps.lower_char c) = StrOps.lower_char c.
Proof. destruct c as [[] [] [] [] [] [] [] []]; reflexivity. Qed.

Lemma lower_idem (s : string) : StrOps.lower (StrOps.lower s) = StrOps.lower s.
Proof.
  induction s as [|c s IH]; [done|]. simpl. by rewrite lower_char_idem, IH.
Qed.

Lemma lower_app (s t : string) :
  StrOps.lower (s +:+ t) = StrOps.lower s +:+ StrOps.lower t.
Proof.
  induction s as [|c s IH]; [done|].
  rewrite !StrFacts.app_cons. simpl. rewrite StrFacts.app_cons. by rewrite IH.
Qed.

Lemma content_of_lower (subject body : string) :
  content_of (StrOps.lower subject) (StrOps.lower body) = content_of subject body.
Proof. unfold content_of. by rewrite !lower_app, !lower_idem. Qed.

(** X16.  The keyword heuristics stay within the fixed sets and
    ignore case: for all subjects and bodies [_determine_priority]
    answers a priority that [validate_priority] accepts and
    [_determine_category] a category that [validate_category] accepts,
    and both answer the same on the lower-cased texts. *)
Theorem heuristics_in_range (subject body sender : string) :
  validate_priority (_determine_priority subject body sender) = true
  ∧ validate_category (_determine_category subject body) = true
  ∧ _determine_priority (StrOps.lower subject) (StrOps.lower body) sender
    = _determine_priority subject body sender
  ∧ _determine_category (StrOps.lower subject) (StrOps.lower body)
    = _determine_category subject body.
Proof.
  split; [|split; [|split]].
  - unfold _determine_priority.
    by repeat (destruct (any_in _ _); [reflexivity|]).
  - unfold _determine_category, category_keywords, first_category.
    by repeat (destruct (any_in _ _); [reflexivity|]).
  - unfold _determine_priority. by rewrite content_of_lower.
  - unfold _determine_category. by rewrite content_of_lower.
Qed.

End AIServiceMore.

(** ** Tags, senders and dates *)

Module GmailServiceMore.
Import GmailService GmailHeaders StrFacts.

Lemma strip_tags_from_plain (s rest : string) :
  StrOps.has "<" s = false →
  strip_tags_from O (s +:+ rest) = s +:+ strip_tags_from O rest.
Proof.
  induction s as [|c s IH]; [done|]. rewrite !app_cons. simpl.
  intros [Hc Hs]%orb_false_iff. rewrite Hc. by rewrite IH.
Qed.

Lemma strip_tags_from_drop (s rest : string) :
  strip_tags_from (String.length s) (s +:+ rest) = strip_tags_from O rest.
Proof.
  induction s as [|c s IH]; [done|]. rewrite app_cons. simpl. exact IH.
Qed.

Lemma strip_tags_from_closing (s rest : string) (c : ascii) :
  strip_tags_from (S (String.length s)) (s +:+ String c rest)
  = strip_tags_from O rest.
Proof.
  induction s as [|a s IH]; [done|]. rewrite app_cons. simpl. exact IH.
Qed.

Lemma tag_close_found (s rest : string) :
  StrOps.has "<" s = false → StrOps.has ">" s = false →
  tag_close (s +:+ String ">" rest) = Some (S (String.length s)).
Proof.
  induction s as [|c s IH]; [done|]. rewrite app_cons. simpl.
  intros [Hc Hs]%orb_false_iff [Hc' Hs']%orb_false_iff.
  rewrite Hc, Hc'. by rewrite IH.
Qed.

Lemma strip_tags_from_length (s : string) : ∀ n,
  (String.length (strip_tags_from n s) ≤ String.length s)%nat.
Proof.
  induction s as [|c s IH]; intros n; [by destruct n|]. simpl.
  destruct n as [|n]; [|specialize (IH n); lia].
  destruct (Ascii.eqb c "<").
  - destruct (tag_length s) as [k|]; [specialize (IH k); lia|].
    simpl. specialize (IH O). lia.
  - simpl. specialize (IH O). lia.
Qed.

(** X17.  What [strip_tags] removes and what it keeps.  Text without
    [<] comes back as it is, and such text in front of anything stays
    in front.  A tag, that is [<], a name of at least one character
    with neither [<] nor [>], and [>], is removed.  The result is never
    longer than the text. *)
Theorem strip_tags_behaviour :
  (∀ s rest : string,
     StrOps.has "<" s = false →
     strip_tags (s +:+ rest) = s +:+ strip_tags rest)
  ∧ (∀ name rest : string,
       name ≠ "" →
       StrOps.has "<" name = false → StrOps.has ">" name = false →
       strip_tags ("<" +:+ name +:+ ">" +:+ rest) = strip_tags rest)
  ∧ (∀ s : string,
       (String.length (strip_tags s) ≤ String.length s)%nat).
Proof.
  split; [exact strip_tags_from_plain|]. split.
  - intros name rest Hne Hlt Hgt. unfold strip_tags.
    destruct name as [|c name]; [done|].
    simpl in Hlt, Hgt.
    apply orb_false_iff in Hlt as [Hc Hlt].
    apply orb_false_iff in Hgt as [Hc' Hgt].
    change ("<" +:+ String c name +:+ ">" +:+ rest)
      with (String "<" (String c (name +:+ String ">" rest))).
    cbn [strip_tags_from]. change (Ascii.eqb "<" "<") with true. cbn iota.
    unfold tag_length. rewrite Hc.
    rewrite (tag_close_found name rest Hlt Hgt).
    cbn [fmap option_fmap option_map strip_tags_from].
    apply strip_tags_from_closing.
  - intros s. apply strip_tags_from_length.
Qed.

Lemma strip_tags_behaviour_witness :
  strip_tags ("Dear Bob, " +:+ "<br/>bye") = "Dear Bob, " +:+ strip_tags "<br/>bye"
  ∧ strip_tags ("<" +:+ "br/" +:+ ">" +:+ "bye") = strip_tags "bye".
Proof.
  destruct strip_tags_behaviour as (H1 & H2 & _). split.
  - by apply H1.
  - by apply H2.
Defined.

Lemma split_app (sep : ascii) (a b : string) :
  StrOps.has sep a = false →
  StrOps.split sep (a +:+ String sep b) = a :: StrOps.split sep b.
Proof.
  induction a as [|c a IH]; rewrite ?app_cons, ?app_nil; simpl.
  - intros _. by rewrite Ascii.eqb_refl.
  - intros [Hc Ha]%orb_false_iff. rewrite Hc, (IH Ha). done.
Qed.

Lemma split_none (sep : ascii) (s : string) :
  StrOps.has sep s = false → StrOps.split sep s = [s].
Proof.
  induction s as [|c s IH]; [done|]. simpl.
  intros [Hc Hs]%orb_false_iff. by rewrite Hc, (IH Hs).
Qed.

Lemma split_nonempty (sep : ascii) (s : string) : StrOps.split sep s ≠ [].
Proof.
  induction s as [|c s IH]; [done|]. simpl.
  destruct (Ascii.eqb c sep); [done|]. by destruct (StrOps.split sep s).
Qed.

Lemma piece0_app (sep : ascii) (a b : string) :
  StrOps.has sep a = false →
  StrOps.piece 0 sep (a +:+ b) = a +:+ StrOps.piece 0 sep b.
Proof.
  unfold StrOps.piece.
  induction a as [|c a IH]; rewrite ?app_cons, ?app_nil; simpl; [done|].
  intros [Hc Ha]%orb_false_iff. rewrite Hc. specialize (IH Ha).
  pose proof (split_nonempty sep (a +:+ b)).
  destruct (StrOps.split sep (a +:+ b)); [done|]. simpl in *. by rewrite IH.
Qed.

Lemma piece0_sep (sep : ascii) (b : string) :
  StrOps.piece 0 sep (String sep b) = "".
Proof. unfold StrOps.piece. simpl. by rewrite Ascii.eqb_refl. Qed.

Lemma app_empty_r (s : string) : s +:+ "" = s.
Proof. induction s as [|c s IH]; [done|]. by rewrite app_cons, IH. Qed.

Lemma contains_char (c : ascii) (s : string) :
  Str.contains (String c "") s = StrOps.has c s.
Proof.
  induction s as [|a s IH]; [done|].
  cbn [Str.contains Str.startswith StrOps.has]. rewrite IH.
  rewrite (Ascii.eqb_sym a c). by destruct (Ascii.eqb c a).
Qed.

Lemma has_app (c : ascii) (s t : string) :
  StrOps.has c (s +:+ t) = StrOps.has c s || StrOps.has c t.
Proof.
  induction s as [|a s IH]; [done|]. rewrite app_cons. simpl.
  by rewrite IH, orb_assoc.
Qed.

Lemma rstrip_app_space (s : string) : Str.rstrip (s +:+ " ") = Str.rstrip s.
Proof.
  induction s as [|c s IH]; [done|]. rewrite app_cons. simpl. by rewrite IH.
Qed.

Lemma strip_app_space (s : string) : Str.strip (s +:+ " ") = Str.strip s.
Proof.
  unfold Str.strip. induction s as [|c s IH]; [done|].
  rewrite app_cons. simpl. destruct (Str.isspace c); [exact IH|].
  rewrite <- app_cons. apply rstrip_app_space.
Qed.

(** X18.  Parsing a sender.  A header [name <address>], where the
    name has no [<] and the address neither [<] nor [>], parses to the
    name, stripped of blanks and then of double quotes at both ends,
    and the stripped address.  A header without [<] is taken whole as
    name and as address. *)
Theorem parse_sender_behaviour :
  (∀ name address : string,
     StrOps.has "<" name = false →
     StrOps.has "<" address = false → StrOps.has ">" address = false →
     _parse_sender (name +:+ " <" +:+ address +:+ ">")
     = (StrOps.strip_set is_quote (Str.strip name), Str.strip address))
  ∧ (∀ sender : string,
       StrOps.has "<" sender = false →
       _parse_sender sender = (sender, sender)).
Proof.
  split.
  - intros name address Hn Ha Hg. unfold _parse_sender.
    set (sender := name +:+ " <" +:+ address +:+ ">").
    assert (sender = (name +:+ " ") +:+ String "<" (address +:+ ">")) as Hs.
    { unfold sender. by rewrite app_assoc. }
    assert (StrOps.has "<" (name +:+ " ") = false) as Hn'.
    { by rewrite has_app, Hn. }
    rewrite !contains_char.
    assert (StrOps.has "<" sender = true) as ->.
    { rewrite Hs, has_app. simpl. by rewrite orb_true_r. }
    assert (StrOps.has ">" sender = true) as ->.
    { unfold sender. rewrite !has_app. simpl. by rewrite !orb_true_r. }
    cbn [andb]. unfold StrOps.piece at 1 3. rewrite Hs, (split_app _ _ _ Hn').
    cbn [nth]. rewrite strip_app_space. f_equal.
    assert (StrOps.has "<" (address +:+ ">") = false) as Ha'.
    { by rewrite has_app, Ha. }
    rewrite (split_none _ _ Ha'). cbn [nth].
    change (address +:+ ">") with (address +:+ String ">" "").
    unfold StrOps.piece. by rewrite (split_app _ _ _ Hg).
  - intros sender Hs. unfold _parse_sender.
    by rewrite contains_char, Hs.
Qed.

Lemma parse_sender_behaviour_witness :
  _parse_sender ("Jane Doe" +:+ " <" +:+ "jane@co.com" +:+ ">")
  = ("Jane Doe", "jane@co.com")
  ∧ _parse_sender "jane@co.com" = ("jane@co.com", "jane@co.com").
Proof.
  destruct parse_sender_behaviour as [H1 H2]. split.
  - exact (H1 "Jane Doe" "jane@co.com" eq_refl eq_refl eq_refl).
  - exact (H2 "jane@co.com" eq_refl).
Defined.

(** X19.  The UTC offset of a date is dropped.  For a date text
    without [+] and [-], what follows a [+] or a [-] after it does not
    reach [strptime]: the date parses as the text alone does, so two
    dates that differ in their offset only get the same time. *)
Theorem parse_date_drops_offset (strptime : string → exc Z) (utcnow : Z)
    (date offset : string) :
  StrOps.has "+" date = false → StrOps.has "-" date = false →
  _parse_date strptime utcnow (date +:+ "+" +:+ offset)
  = _parse_date strptime utcnow date
  ∧ _parse_date strptime utcnow (date +:+ "-" +:+ offset)
    = _parse_date strptime utcnow date.
Proof.
  intros Hp Hm. unfold _parse_date, date_text.
  assert (StrOps.piece 0 "-" (StrOps.piece 0 "+" date) = date) as Hd.
  { unfold StrOps.piece. rewrite (split_none _ _ Hp). cbn [nth].
    by rewrite (split_none _ _ Hm). }
  rewrite Hd. split.
  - change ("+" +:+ offset) with (String "+" offset).
    unfold StrOps.piece at 2. rewrite (split_app _ _ _ Hp). cbn [nth].
    unfold StrOps.piece. by rewrite (split_none _ _ Hm).
  - change ("-" +:+ offset) with (String "-" offset).
    rewrite (piece0_app "+" date _ Hp).
    assert (StrOps.piece 0 "+" (String "-" offset)
            = String "-" (StrOps.piece 0 "+" offset)) as ->.
    { unfold StrOps.piece. simpl.
      pose proof (split_nonempty "+" offset).
      by destruct (StrOps.split "+" offset). }
    unfold StrOps.piece. by rewrite (split_app _ _ _ Hm).
Qed.

Lemma parse_date_drops_offset_witness :
  let strptime := λ s : string, Ok (Str.len s) in
  _parse_date strptime 0 ("Mon, 01 Jan 2024 10:00:00 " +:+ "+" +:+ "0900")
  = _parse_date strptime 0 ("Mon, 01 Jan 2024 10:00:00 " +:+ "-" +:+ "0500").
Proof.
  intros strptime.
  destruct (parse_date_drops_offset strptime 0
              "Mon, 01 Jan 2024 10:00:00 " "0900" eq_refl eq_refl) as [-> _].
  destruct (parse_date_drops_offset strptime 0
              "Mon, 01 Jan 2024 10:00:00 " "0500" eq_refl eq_refl) as [_ ->].
  reflexivity.
Defined.

End GmailServiceMore.

(** ** The views on single rows *)

Module ViewsFacts.
Import Db Views.

Lemma lookup_map {A B} (f : A → B) (l : list A) (i : nat) :
  map f l !! i = f <$> l !! i.
Proof.
  revert i. induction l as [|x l IH]; intros [|i]; try done. apply IH.
Qed.

Lemma find_task_spec (db : database) (task_id uid : nat) (t : Task.t) :
  find_task db task_id uid = Some t →
  t ∈ tasks db ∧ Task.id t = task_id ∧ Task.user_id t = uid.
Proof.
  unfold find_task. intros [Hin Hp]%find_some.
  apply andb_true_iff in Hp as [?%Nat.eqb_eq ?%Nat.eqb_eq].
  split; [by apply list_elem_of_In|done].
Qed.

Lemma find_task_none (db : database) (task_id uid : nat) (t : Task.t) :
  find_task db task_id uid = None → t ∈ tasks db →
  Task.id t ≠ task_id ∨ Task.user_id t ≠ uid.
Proof.
  unfold find_task. intros Hf Hin.
  pose proof (find_none _ _ Hf t (proj1 (list_elem_of_In _ _) Hin)) as Hp.
  apply andb_false_iff in Hp as [?%Nat.eqb_neq|?%Nat.eqb_neq]; auto.
Qed.

Lemma task_id_owner (db : database) (t t' : Task.t) :
  task_ids_unique db → t ∈ tasks db → t' ∈ tasks db →
  Task.id t = Task.id t' → t = t'.
Proof. apply EmailsFacts.NoDup_map_inj. Qed.

(** X20.  The views on one email show the user's own rows only.  An
    email that [get_email] or [get_email_tasks] returns is a stored
    row with the asked primary key that belongs to the requesting
    user, and every task [get_email_tasks] lists is a stored task of
    that email and that user; when no row has the asked key and the
    user, the answer is 404. *)
Theorem email_views_own_rows (uid email_id : nat) (db : database) :
  (∀ e, payload (get_email uid email_id db) = EmailJson e →
     e ∈ emails db ∧ Email.id e = email_id ∧ Email.user_id e = uid)
  ∧ (∀ e ts, payload (get_email_tasks uid email_id db) = EmailTasksJson e ts →
       e ∈ emails db ∧ Email.id e = email_id ∧ Email.user_id e = uid
       ∧ Forall (λ p, p.1 ∈ tasks db ∧ Task.email_id p.1 = email_id
                      ∧ Task.user_id p.1 = uid) ts)
  ∧ ((∀ e, e ∈ emails db → Email.id e = email_id → Email.user_id e ≠ uid) →
     status (get_email uid email_id db) = 404%nat
     ∧ status (get_email_tasks uid email_id db) = 404%nat).
Proof.
  assert (∀ e, find_email_by_id db email_id uid = Some e →
            e ∈ emails db ∧ Email.id e = email_id ∧ Email.user_id e = uid)
    as Hfind.
  { unfold find_email_by_id. intros e [Hin Hp]%find_some.
    apply andb_true_iff in Hp as [?%Nat.eqb_eq ?%Nat.eqb_eq].
    split; [by apply list_elem_of_In|done]. }
  unfold get_email, get_email_tasks. split; [|split].
  - destruct (find_email_by_id db email_id uid) as [x|]; [|done].
    intros e [= <-]. by apply Hfind.
  - destruct (find_email_by_id db email_id uid) as [x|]; [|done].
    intros e ts [= <- <-]. destruct (Hfind x eq_refl) as (? & ? & ?).
    repeat split; try done.
    apply Forall_forall. intros p Hp. apply list_elem_of_In in Hp.
    apply in_map_iff in Hp as (t & <- & Ht).
    apply filter_In in Ht as [Ht Hc].
    apply andb_true_iff in Hc as [?%Nat.eqb_eq ?%Nat.eqb_eq].
    cbn [to_dict fst]. split; [by apply list_elem_of_In|done].
  - intros Hnone.
    destruct (find_email_by_id db email_id uid) as [x|]; [|done].
    destruct (Hfind x eq_refl) as (Hin & Hid & Hu). by destruct (Hnone x).
Qed.

Lemma email_views_own_rows_witness :
  status (get_email 1 1 Sample.shared) = 404%nat
  ∧ status (get_email_tasks 1 1 Sample.shared) = 404%nat.
Proof.
  apply (email_views_own_rows 1 1 Sample.shared).
  intros e [->|[]%elem_of_nil]%elem_of_cons _. cbn. lia.
Defined.

Lemma update_task_lookup (db : database) (t' : Task.t) (i : nat) :
  tasks (update_task db t') !! i
  = (λ x, if Nat.eqb (Task.id x) (Task.id t') then t' else x) <$> tasks db !! i.
Proof. unfold update_task. cbn [tasks]. apply lookup_map. Qed.

(** The effect of committing a change [g] of the row with the asked
    key and user, when that row exists. *)
Lemma toggle_effect (g : Task.t → Task.t) (db : database)
    (task_id uid : nat) (t0 : Task.t) :
  (∀ t, Task.id (g t) = Task.id t) →
  task_ids_unique db →
  find_task db task_id uid = Some t0 →
  ∀ i t, tasks db !! i = Some t →
    tasks (update_task db (g t0)) !! i
    = Some (if Nat.eqb (Task.id t) task_id then g t else t).
Proof.
  intros Hg Hnd Hf i t Hi.
  destruct (find_task_spec _ _ _ _ Hf) as (Hin0 & Hid0 & Hu0).
  rewrite update_task_lookup, Hi. cbn [fmap option_fmap option_map].
  rewrite Hg, Hid0. f_equal.
  destruct (Nat.eqb_spec (Task.id t) task_id) as [Heq|]; [|done].
  f_equal. symmetry. apply (task_id_owner db); [done| |done|congruence].
  by eapply list_elem_of_lookup_2.
Qed.

(** X21.  Completing a task touches that task only.  With distinct
    primary keys, [complete_task] leaves the users, the emails and
    every task row in place; the one row with the asked key that
    belongs to the requesting user becomes completed at the clock
    reading, and every other row, those of other users included, is
    as before.  When the user owns no task with that key the answer is
    404 and the database is unchanged. *)
Theorem complete_task_touches_one (now : Z) (uid task_id : nat)
    (db : database) :
  task_ids_unique db →
  let db' := (complete_task now uid task_id db).2 in
  users db' = users db ∧ emails db' = emails db
  ∧ (∀ i t, tasks db !! i = Some t →
       tasks db' !! i
       = Some (if Nat.eqb (Task.id t) task_id && Nat.eqb (Task.user_id t) uid
               then mark_completed now t else t))
  ∧ (find_task db task_id uid = None →
     complete_task now uid task_id db
     = ({| status := 404; payload := NotFound "Task not found" |}, db)).
Proof.
  intros Hnd. unfold complete_task.
  destruct (find_task db task_id uid) as [t0|] eqn:Hf; cbn [snd].
  - split; [done|]. split; [done|]. split; [|done].
    intros i t Hi.
    rewrite (toggle_effect (mark_completed now) db task_id uid t0) with (t := t)
      by done.
    f_equal. destruct (Nat.eqb_spec (Task.id t) task_id) as [Heq|]; [|done].
    destruct (find_task_spec _ _ _ _ Hf) as (Hin0 & Hid0 & Hu0).
    assert (t = t0) as ->.
    { apply (task_id_owner db); [done| |done|congruence].
      by eapply list_elem_of_lookup_2. }
    by rewrite Hu0, Nat.eqb_refl.
  - split; [done|]. split; [done|]. split; [|done].
    intros i t Hi. f_equal.
    destruct (find_task_none db task_id uid t Hf) as [Hne|Hne];
      [by eapply list_elem_of_lookup_2| |].
    + by rewrite (proj2 (Nat.eqb_neq _ _) Hne).
    + by rewrite (proj2 (Nat.eqb_neq _ _) Hne), andb_false_r.
Qed.

Lemma complete_task_touches_one_witness :
  let db := Emails.persisted Sample.env 1 Sample.empty_db in
  (complete_task 3000 2 1 db).2 = db
  ∧ map Task.completed (tasks (complete_task 3000 1 1 db).2) = [true; false].
Proof.
  intros db.
  assert (task_ids_unique db) as Hnd.
  { unfold task_ids_unique. vm_compute.
    apply NoDup_cons. split; [|apply NoDup_singleton].
    intros [=]%list_elem_of_singleton. }
  split.
  - destruct (complete_task_touches_one 3000 2 1 db Hnd) as (_ & _ & _ & H).
    by rewrite (H eq_refl).
  - reflexivity.
Defined.

(** X22.  Completing and reopening come back.  With distinct primary
    keys, reopening a task with [incomplete_task] after completing it,
    when it was open before, restores the database in every column the
    rows here carry ([updated_at] is not among them); and reopening
    twice is reopening once. *)
Theorem complete_then_reopen (now : Z) (uid task_id : nat) (db : database)
    (t0 : Task.t) :
  task_ids_unique db →
  find_task db task_id uid = Some t0 →
  (Task.completed t0 = false → Task.completed_at t0 = None →
   (incomplete_task uid task_id (complete_task now uid task_id db).2).2 = db)
  ∧ (incomplete_task uid task_id (incomplete_task uid task_id db).2).2
    = (incomplete_task uid task_id db).2.
Proof.
  intros Hnd Hf.
  destruct (find_task_spec _ _ _ _ Hf) as (Hin0 & Hid0 & Hu0).
  assert (∀ (g h : Task.t → Task.t),
            (∀ t, Task.id (g t) = Task.id t) →
            (∀ t, Task.user_id (g t) = Task.user_id t) →
            (∀ t, Task.id (h t) = Task.id t) →
            tasks (update_task (update_task db (g t0)) (h (g t0)))
            = map (λ t, if Nat.eqb (Task.id t) task_id then h (g t) else t)
                (tasks db)) as Htwice.
  { intros g h Hg Hgu Hh. unfold update_task. cbn [tasks].
    rewrite map_map. apply map_ext_in. intros t Ht.
    rewrite Hh, !Hg, Hid0.
    destruct (Nat.eqb_spec (Task.id t) task_id) as [Heq|Hne].
    - rewrite Hg, Hid0, Nat.eqb_refl.
      assert (t = t0) as ->; [|done].
      apply (task_id_owner db); [done| |done|congruence].
      by apply list_elem_of_In.
    - by rewrite (proj2 (Nat.eqb_neq _ _) Hne). }
  assert (∀ g, (∀ t, Task.id (g t) = Task.id t) →
               (∀ t, Task.user_id (g t) = Task.user_id t) →
               find_task (update_task db (g t0)) task_id uid = Some (g t0))
    as Hfind.
  { intros g Hg Hgu. clear Htwice. unfold find_task, update_task. cbn [tasks].
    rewrite Hg, Hid0.
    unfold find_task in Hf. revert Hf Hnd Hin0. unfold task_ids_unique.
    induction (tasks db) as [|t l IH]; [done|]. cbn [map find].
    intros Hf Hnd Hin0. apply NoDup_cons in Hnd as [Hnotin Hnd].
    destruct (Nat.eqb_spec (Task.id t) task_id) as [Heq|Hne].
    + rewrite Hg, Hgu, Hid0, Hu0, !Nat.eqb_refl. done.
    + rewrite (proj2 (Nat.eqb_neq _ _) Hne). cbn [andb] in *.
      apply elem_of_cons in Hin0 as [->|Hin0]; [done|]. by apply IH. }
  assert (∀ a b : database, users a = users b → emails a = emails b →
                            tasks a = tasks b → a = b) as Hext.
  { intros [] []. cbn. congruence. }
  split.
  - intros Hc Hca. unfold complete_task at 1. rewrite Hf. cbn [snd].
    unfold incomplete_task.
    rewrite (Hfind (mark_completed now)) by done. cbn [snd].
    apply Hext; [done|done|].
    rewrite (Htwice (mark_completed now) mark_incomplete) by done.
    rewrite <- (map_id (tasks db)) at 2. apply map_ext_in.
    intros t Ht. destruct (Nat.eqb_spec (Task.id t) task_id) as [Heq|]; [|done].
    assert (t = t0) as ->.
    { apply (task_id_owner db); [done|by apply list_elem_of_In|done|congruence]. }
    destruct t0. cbn in *. by subst.
  - unfold incomplete_task at 2 3. rewrite Hf. cbn [snd].
    unfold incomplete_task. rewrite (Hfind mark_incomplete) by done. cbn [snd].
    apply Hext; [done|done|].
    rewrite (Htwice mark_incomplete mark_incomplete) by done.
    unfold update_task. cbn [tasks]. apply map_ext_in. intros t Ht.
    cbn [mark_incomplete Task.id]. rewrite Hid0.
    destruct (Nat.eqb_spec (Task.id t) task_id) as [Heq|]; [|done].
    assert (t = t0) as ->; [|done].
    apply (task_id_owner db); [done|by apply list_elem_of_In|done|congruence].
Qed.

Lemma complete_then_reopen_witness :
  let db := Emails.persisted Sample.env 1 Sample.empty_db in
  (incomplete_task 1 2 (complete_task 3000 1 2 db).2).2 = db.
Proof.
  intros db.
  assert (task_ids_unique db) as Hnd.
  { unfold task_ids_unique. vm_compute.
    apply NoDup_cons. split; [|apply NoDup_singleton].
    intros [=]%list_elem_of_singleton. }
  destruct (complete_then_reopen 3000 1 2 db
              (Task.mk 2 1 2 "Send the Q3 report" "Billing" "Medium" "General"
                 false None) Hnd eq_refl) as [H _].
  exact (H eq_refl eq_refl).
Defined.

End ViewsFacts.

(** ** The token properties of the user model *)

Module UserTokensFacts.
Import Encryption UserTokens.

Section Tokens.
Context `{cipher : Fernet} `{codec : Codec}.

Lemma encrypt_then_decrypt (r : entropy) (v : string) :
  Laws → v ≠ "" →
  ∃ ct, encrypt_token r v = Ok (Some ct) ∧ ct ≠ ""
        ∧ decrypt_token ct = Ok (Some v).
Proof.
  intros L Hv. unfold encrypt_token.
  rewrite (proj2 (String.eqb_neq _ _) Hv).
  destruct (token_is_text r (encode v)) as (t & Ht & Hne & Henc).
  rewrite Ht. cbn [mbind exc_bind Py.bind]. exists t.
  split; [done|]. split; [done|]. unfold decrypt_token.
  rewrite (proj2 (String.eqb_neq _ _) Hne), Henc, decrypt_encrypt.
  cbn [mbind exc_bind Py.bind]. by rewrite decode_encode.
Qed.

Lemma decrypt_token_total (ct : string) : ∃ v, decrypt_token ct = Ok v.
Proof.
  unfold decrypt_token. destruct (String.eqb ct ""); [eauto|].
  destruct (decrypt (encode ct)) as [b|e]; cbn; [|eauto].
  destruct (decode b); cbn; eauto.
Qed.

Lemma present_some (s : string) : s ≠ "" → present (Some s) = true.
Proof. intros H. cbn. by rewrite (proj2 (String.eqb_neq _ _) H). Qed.

(** X23.  The token attributes of a user.  With a cipher and codec
    that keep their contracts, assigning a non-empty access or refresh
    token and reading the attribute back gives the token, and leaves
    the other column as it is.  Assigning [None] or the empty string
    clears the column, and the attribute then reads [None].  Reading
    never raises, whatever the column holds. *)
Theorem token_attributes :
  (Laws → ∀ (r : entropy) (v : string) (u : UserTokens.t),
     v ≠ "" →
     (∃ u', set_gmail_access_token r (Some v) u = Ok u'
            ∧ gmail_access_token u' = Ok (Some v)
            ∧ _gmail_refresh_token u' = _gmail_refresh_token u)
     ∧ (∃ u', set_gmail_refresh_token r (Some v) u = Ok u'
              ∧ gmail_refresh_token u' = Ok (Some v)
              ∧ _gmail_access_token u' = _gmail_access_token u))
  ∧ (∀ (r : entropy) (v : option string) (u : UserTokens.t),
       present v = false →
       (∃ u', set_gmail_access_token r v u = Ok u'
              ∧ _gmail_access_token u' = None
              ∧ gmail_access_token u' = Ok None)
       ∧ (∃ u', set_gmail_refresh_token r v u = Ok u'
                ∧ _gmail_refresh_token u' = None
                ∧ gmail_refresh_token u' = Ok None))
  ∧ (∀ u : UserTokens.t,
       (∃ v, gmail_access_token u = Ok v)
       ∧ (∃ v, gmail_refresh_token u = Ok v)).
Proof.
  split; [|split].
  - intros L r v u Hv.
    destruct (encrypt_then_decrypt r v L Hv) as (ct & He & Hne & Hd).
    unfold set_gmail_access_token, set_gmail_refresh_token.
    rewrite (present_some v Hv). cbn [default from_option id].
    rewrite He. cbn [mbind exc_bind Py.bind].
    split; eexists; (split; [reflexivity|]);
      unfold gmail_access_token, gmail_refresh_token;
      cbn [_gmail_access_token _gmail_refresh_token];
      by rewrite (present_some ct Hne).
  - intros r v u Hv.
    unfold set_gmail_access_token, set_gmail_refresh_token. rewrite Hv.
    split; eexists; by repeat split.
  - intros u. unfold gmail_access_token, gmail_refresh_token.
    split.
    + destruct (present _); [apply decrypt_token_total|eauto].
    + destruct (present _); [apply decrypt_token_total|eauto].
Qed.
End Tokens.

Lemma token_attributes_witness :
  ∃ u', @set_gmail_access_token tag_cipher byte_codec tt (Some "ya29.token")
          (UserTokens.mk None (Some "t1//refresh")) = Ok u'
        ∧ @gmail_access_token tag_cipher byte_codec u' = Ok (Some "ya29.token")
        ∧ _gmail_refresh_token u' = Some "t1//refresh".
Proof.
  destruct (@token_attributes tag_cipher byte_codec) as [H _].
  destruct (H EncryptionFacts.tag_cipher_laws tt "ya29.token"
              (UserTokens.mk None (Some "t1//refresh"))) as [H1 _];
    [discriminate|exact H1].
Defined.

End UserTokensFacts.

(** ** The pattern of [validate_email] *)

Module EmailPatternFacts.
Import EmailPattern StrFacts.

Lemma app_eq_nil (u v : string) : u +:+ v = "" → u = "" ∧ v = "".
Proof. destruct u; [done|]. by rewrite app_cons. Qed.

Lemma app_eq_cons (u v : string) c s :
  u +:+ v = String c s →
  (u = "" ∧ v = String c s) ∨ ∃ u', u = String c u' ∧ s = u' +:+ v.
Proof.
  destruct u as [|a u]; [by left|]. rewrite app_cons. intros [= -> <-].
  right. by exists u.
Qed.

Lemma nullable_lang (r : re) : nullable r = true ↔ lang r "".
Proof.
  split.
  - induction r; simpl; try done.
    + intros _. constructor.
    + intros [H1 H2]%andb_true_iff. change "" with ("" +:+ "").
      constructor; auto.
    + intros [H|H]%orb_true_iff; [apply lang_alt_l|apply lang_alt_r]; auto.
    + intros _. constructor.
  - intros H. remember "" as w eqn:Hw.
    induction H; simpl; try done.
    + apply app_eq_nil in Hw as [-> ->]. by rewrite IHlang1, IHlang2.
    + by rewrite IHlang.
    + rewrite IHlang by done. apply orb_true_r.
Qed.

Lemma deriv_sound (r : re) : ∀ c s, lang (deriv c r) s → lang r (String c s).
Proof.
  induction r as [| |p|r1 IH1 r2 IH2|r1 IH1 r2 IH2|r IH]; intros c s H; simpl in H.
  - inversion H.
  - inversion H.
  - destruct (p c) eqn:Hp; inversion H; subst. by constructor.
  - assert (∀ w, lang (Cat (deriv c r1) r2) w → lang (Cat r1 r2) (String c w))
      as Hcat.
    { intros w Hw. inversion Hw; subst. rewrite <- app_cons.
      constructor; auto. }
    destruct (nullable r1) eqn:Hn; [|by apply Hcat].
    inversion H; subst; [by apply Hcat|].
    change (String c s) with ("" +:+ String c s).
    constructor; [by apply nullable_lang|auto].
  - inversion H; subst; [apply lang_alt_l|apply lang_alt_r]; auto.
  - inversion H; subst. rewrite <- app_cons. constructor; auto.
Qed.

Lemma deriv_complete (r : re) (w : string) :
  lang r w → ∀ c s, w = String c s → lang (deriv c r) s.
Proof.
  induction 1 as [|p a Hp|r1 r2 u v H1 IH1 H2 IH2|r1 r2 u H IH|r1 r2 u H IH
                  |r|r u v H1 IH1 H2 IH2]; intros c s Hw; simpl.
  - done.
  - injection Hw as -> <-. rewrite Hp. constructor.
  - apply app_eq_cons in Hw as [[-> ->]|(u' & -> & ->)].
    + rewrite (proj2 (nullable_lang r1) H1). apply lang_alt_r. by apply IH2.
    + destruct (nullable r1).
      * apply lang_alt_l. constructor; [by apply IH1|done].
      * constructor; [by apply IH1|done].
  - apply lang_alt_l. by apply IH.
  - apply lang_alt_r. by apply IH.
  - done.
  - apply app_eq_cons in Hw as [[-> ->]|(u' & -> & ->)].
    + by apply IH2.
    + constructor; [by apply IH1|done].
Qed.

(** Matching by derivatives decides the language of the expression. *)
Lemma fullmatch_lang (s : string) : ∀ r, fullmatch r s = true ↔ lang r s.
Proof.
  induction s as [|c s IH]; intros r; simpl.
  - apply nullable_lang.
  - rewrite IH. split; [apply deriv_sound|].
    intros H. by eapply deriv_complete.
Qed.

Lemma lang_class_inv (p : ascii → bool) (s : string) :
  lang (Class p) s ↔ ∃ c, s = String c "" ∧ p c = true.
Proof.
  split.
  - intros H. inversion H; subst. eauto.
  - intros (c & -> & Hp). by constructor.
Qed.

Lemma lang_star_class (p : ascii → bool) (s : string) :
  lang (Star (Class p)) s ↔ StrOps.all p s = true.
Proof.
  split.
  - intros H. remember (Star (Class p)) as r eqn:Hr.
    induction H as [| | | | | |r u v H1 _ H2 IH2]; try done.
    injection Hr as ->. inversion H1; subst. rewrite app_cons, app_nil. simpl.
    rewrite IH2 by done. by rewrite andb_true_r.
  - induction s as [|c s IH]; simpl; [constructor|].
    intros [Hc Hs]%andb_true_iff.
    change (String c s) with (String c "" +:+ s).
    constructor; [by constructor|auto].
Qed.

Lemma lang_plus_class (p : ascii → bool) (s : string) :
  lang (plus (Class p)) s ↔ s ≠ "" ∧ StrOps.all p s = true.
Proof.
  unfold plus. split.
  - intros H. inversion H as [| |r s' u v Hu Hv| | | |]; subst.
    inversion Hu; subst. apply lang_star_class in Hv.
    rewrite app_cons, app_nil. simpl. split; [done|].
    by apply andb_true_iff.
  - intros [Hne Hall]. destruct s as [|c s]; [done|]. simpl in Hall.
    apply andb_true_iff in Hall as [Hc Hs].
    change (String c s) with (String c "" +:+ s).
    constructor; [by constructor|by apply lang_star_class].
Qed.

Lemma lang_two_or_more (p : ascii → bool) (s : string) :
  lang (two_or_more (Class p)) s
  ↔ (2 ≤ String.length s)%nat ∧ StrOps.all p s = true.
Proof.
  unfold two_or_more. split.
  - intros H. inversion H as [| |r s' u v Hu Hv| | | |]; subst.
    inversion Hu; subst.
    inversion Hv as [| |r' s'' u' v' Hu' Hv'| | | |]; subst.
    inversion Hu'; subst. apply lang_star_class in Hv'.
    rewrite !app_cons, !app_nil. simpl. split; [lia|].
    by repeat (apply andb_true_iff; split).
  - intros [Hlen Hall]. destruct s as [|a [|b s]]; simpl in Hlen; try lia.
    simpl in Hall. apply andb_true_iff in Hall as [Ha Hall].
    apply andb_true_iff in Hall as [Hb Hs].
    change (String a (String b s)) with (String a "" +:+ String b "" +:+ s).
    constructor; [by constructor|].
    constructor; [by constructor|by apply lang_star_class].
Qed.

Lemma lang_pattern (s : string) : lang pattern s ↔ address s.
Proof.
  unfold pattern, address. split.
  - intros H.
    inversion H as [| |? ? loc s1 Hloc H1| | | |]; subst.
    inversion H1 as [| |? ? at_ s2 Hat H2| | | |]; subst.
    inversion H2 as [| |? ? dom s3 Hdom H3| | | |]; subst.
    inversion H3 as [| |? ? dot tld Hdot Htld| | | |]; subst.
    apply lang_plus_class in Hloc as [? ?].
    apply lang_plus_class in Hdom as [? ?].
    apply lang_two_or_more in Htld as [? ?].
    apply lang_class_inv in Hat as (c1 & -> & <-%Ascii.eqb_eq).
    apply lang_class_inv in Hdot as (c2 & -> & <-%Ascii.eqb_eq).
    by exists loc, dom, tld.
  - intros (loc & dom & tld & -> & ? & ? & ? & ? & ? & ?).
    constructor; [by apply lang_plus_class|].
    constructor; [by constructor|].
    constructor; [by apply lang_plus_class|].
    constructor; [by constructor|by apply lang_two_or_more].
Qed.

Lemma chop_newline_app (t : string) :
  chop_newline (t +:+ String newline "") = Some t.
Proof.
  induction t as [|a t IH]; [done|]. rewrite app_cons.
  destruct t as [|b t].
  - rewrite app_nil. done.
  - rewrite app_cons in *.
    change (String a <$> chop_newline (String b (t +:+ String newline ""))
            = Some (String a (String b t))).
    by rewrite IH.
Qed.

Lemma chop_newline_spec (s t : string) :
  chop_newline s = Some t ↔ s = t +:+ String newline "".
Proof.
  split; [|intros ->; apply chop_newline_app].
  revert t. induction s as [|c s IH]; intros t; [done|].
  destruct s as [|b s].
  - simpl. destruct (Ascii.eqb_spec c newline) as [->|Hne]; [|done].
    by intros [= <-].
  - change (chop_newline (String c (String b s)))
      with (String c <$> chop_newline (String b s)).
    destruct (chop_newline (String b s)) as [t'|] eqn:Hc; [|done].
    intros [= <-]. by rewrite app_cons, <- (IH t').
Qed.

(** X24.  What [validate_email] accepts.  It accepts exactly the
    strings made of a non-empty local part of letters, digits and
    [._%+-], an [@], a non-empty domain of letters, digits, dots and
    hyphens, a dot and at least two letters, and the same followed by
    one line feed: the [$] of the pattern also matches before a line
    feed at the end. *)
Theorem validate_email_accepts (s : string) :
  validate_email s = true
  ↔ address s ∨ ∃ t, s = t +:+ String newline "" ∧ address t.
Proof.
  unfold validate_email, re_match.
  destruct (String.eqb_spec s "") as [->|Hne].
  { split; [done|]. intros [(loc & dom & tld & H & _)|(t & H & _)].
    - symmetry in H. apply app_eq_nil in H as [_ H]. by rewrite app_cons in H.
    - symmetry in H. by apply app_eq_nil in H as [_ H]. }
  rewrite orb_true_iff, fullmatch_lang, lang_pattern. split.
  - intros [?|H]; [by left|right].
    destruct (chop_newline s) as [t|] eqn:Hc; [|done].
    apply chop_newline_spec in Hc. apply fullmatch_lang, lang_pattern in H.
    by exists t.
  - intros [?|(t & Ht & Hadd)]; [by left|right].
    apply chop_newline_spec in Ht. rewrite Ht.
    by apply fullmatch_lang, lang_pattern.
Qed.

Lemma validate_email_accepts_witness :
  let s := "jane.doe+x@mail.example.com" in
  address s ∨ ∃ t, s = t +:+ String newline "" ∧ address t.
Proof.
  exact (proj1 (validate_email_accepts "jane.doe+x@mail.example.com") eq_refl).
Defined.

End EmailPatternFacts.
